(** * F95Checker: the coordination layer of [common/structs.py]

    A shallow embedding of the classes [CounterContext], [Popup],
    [DaemonProcess], [DaemonPipe], [ChildPipe] and [Timestamp], with the
    properties their specification states.

    Conventions.  Python [int] is [Z] (unbounded), [str] and [bytes] are
    [string], [None]-able values are [option].  A call that may raise
    returns a [result]; mutable objects are records threaded through the
    functions that mutate them. *)

From Stdlib Require Import ZArith List String Ascii Bool Lia.
From Stdlib Require Import DecimalString DecimalZ.
From Stdlib Require Import Permutation Sorted.
Import ListNotations.

Local Open Scope string_scope.
Local Open Scope list_scope.
Local Open Scope Z_scope.

(** ** Exceptions and fallible results *)

(** The subclasses of Python's [Exception] that the modelled code raises,
    catches or lets through. *)
Inductive exn : Type :=
| DaemonPipeExit
| JSONDecodeError
| UnicodeDecodeError
| RecursionError
| AssertionError
| AttributeError
| NotImplementedError
| RuntimeError
| ValueError
| OverflowError
| OSError
| TypeError.

Inductive result (A : Type) : Type :=
| Ok (a : A)
| Raise (e : exn).

Arguments Ok {A} a.
Arguments Raise {A} e.

Definition bind {A B : Type} (r : result A) (k : A -> result B) : result B :=
  match r with
  | Ok a => k a
  | Raise e => Raise e
  end.

Notation "x <- r ;; k" := (bind r (fun x => k))
  (at level 61, r at next level, right associativity).

(** ** [CounterContext] *)

Module CounterContext.

Record t : Type := mk { count : Z }.

Definition __init__ : t := {| count := 0 |}.

Definition __enter__ (self : t) : t := {| count := count self + 1 |}.

(** [__exit__] ignores the exception triple and returns [None], which is
    falsy: an exception raised by the body goes on propagating. *)
Definition __exit__ (self : t) (exc : option exn) : t :=
  {| count := count self - 1 |}.

Definition __aenter__ (self : t) : t := __enter__ self.

Definition __aexit__ (self : t) (exc : option exn) : t := __exit__ self exc.

(** Code that touches the counter only through its context-manager
    interface: the scoped discipline. *)
Inductive scoped : Type :=
| Pass                                  (* code that leaves the counter alone *)
| Throw (e : exn)                       (* the body fails *)
| Seq (s1 s2 : scoped)                  (* s1; s2 *)
| Try (body handler : scoped)           (* try: body  except Exception: handler *)
| With (body : scoped)                  (* with counter: body *)
| AsyncWith (body : scoped).            (* async with counter: body *)

(** What a run yields: how it ended, the counter afterwards, and every
    value the counter took on the way, in order. *)
Record run : Type := mkrun { outcome : result unit; after : t; seen : list Z }.

Definition exc_of (r : result unit) : option exn :=
  match r with Ok _ => None | Raise e => Some e end.

Fixpoint exec (s : scoped) (c : t) : run :=
  match s with
  | Pass => mkrun (Ok tt) c []
  | Throw e => mkrun (Raise e) c []
  | Seq s1 s2 =>
      let r1 := exec s1 c in
      match outcome r1 with
      | Ok _ =>
          let r2 := exec s2 (after r1) in
          mkrun (outcome r2) (after r2) (seen r1 ++ seen r2)
      | Raise e => r1
      end
  | Try body handler =>
      let r1 := exec body c in
      match outcome r1 with
      | Ok _ => r1
      | Raise _ =>
          let r2 := exec handler (after r1) in
          mkrun (outcome r2) (after r2) (seen r1 ++ seen r2)
      end
  | With body =>
      let c1 := __enter__ c in
      let r := exec body c1 in
      let c2 := __exit__ (after r) (exc_of (outcome r)) in
      mkrun (outcome r) c2 (count c1 :: seen r ++ [count c2])
  | AsyncWith body =>
      let c1 := __aenter__ c in
      let r := exec body c1 in
      let c2 := __aexit__ (after r) (exc_of (outcome r)) in
      mkrun (outcome r) c2 (count c1 :: seen r ++ [count c2])
  end.

End CounterContext.

(** ** Python values *)

(** The few Python values the modelled code tests for identity with
    [None] or for truth. *)
Inductive value : Type :=
| VNone
| VBool (b : bool)
| VInt (z : Z)
| VStr (s : string).

Definition is_None (v : value) : bool :=
  match v with VNone => true | _ => false end.

Definition truthy (v : value) : bool :=
  match v with
  | VNone => false
  | VBool b => b
  | VInt z => negb (Z.eqb z 0)
  | VStr s => negb (String.eqb s "")
  end.

(** [str(n)] for an [int]. *)
Definition str_int (z : Z) : string := NilZero.string_of_int (Z.to_int z).

(** Whether the character [c] occurs in [s]. *)
Fixpoint has_char (c : ascii) (s : string) : bool :=
  match s with
  | EmptyString => false
  | String x r => if Ascii.eqb x c then true else has_char c r
  end.

(** ** [Popup] *)

Module Popup.

(** The class attribute [next_uuid]. *)
Record cls : Type := mkcls { next_uuid : Z }.

Definition cls0 : cls := {| next_uuid := 0 |}.

Record t : Type := mk { open : bool; uuid : string }.

(** [s.split('.')[-1]]: what follows the last dot of [s], the whole of
    [s] when it has none. *)
Fixpoint last_field (acc s : string) : string :=
  match s with
  | EmptyString => acc
  | String c r =>
      if Ascii.eqb c "."%char then last_field "" r
      else last_field (acc ++ String c "")%string r
  end.

(** [__init__]: [now] is [str(time.time())] and [rnd] what
    [utils.rand_num_str()] returns at this construction. *)
Definition __init__ (c : cls) (now rnd : string) : t * cls :=
  let uuid := next_uuid c in
  let c' := {| next_uuid := next_uuid c + 1 |} in
  ({| open := true;
      uuid := (str_int uuid ++ "_" ++ last_field "" now ++ "_" ++ rnd)%string |},
   c').

(** Popups constructed one after the other in one run. *)
Fixpoint construct (c : cls) (inputs : list (string * string)) : list t * cls :=
  match inputs with
  | [] => ([], c)
  | (now, rnd) :: rest =>
      let '(p, c1) := __init__ c now rnd in
      let '(ps, c2) := construct c1 rest in
      (p :: ps, c2)
  end.

Section Call.

(** The wrapped render step, with the arguments bound at construction
    already applied: it receives the arguments of the call and the
    keyword [popup_uuid], works on the state [W] of the interface and
    returns the pair [(opened, closed)] or raises. *)
Variable W : Type.
Variable Args : Type.
Variable func : Args -> string -> W -> result (value * value) * W.

(** The interface state with the log of render steps run so far. *)
Record ui : Type := mkui { world : W; rendered : list (string * Args) }.

Definition super_call (self : t) (args : Args) (u : ui)
  : result (value * value) * ui :=
  let '(r, w') := func args (uuid self) (world u) in
  (r, {| world := w'; rendered := rendered u ++ [(uuid self, args)] |}).

Definition __call__ (self : t) (args : Args) (u : ui)
  : result (value * value) * t * ui :=
  if negb (open self) then (Ok (VInt 0, VBool true), self, u)
  else
    match super_call self args u with
    | (Ok (opened, closed), u') =>
        let self' :=
          if truthy closed then {| open := false; uuid := uuid self |}
          else self in
        (Ok (opened, closed), self', u')
    | (Raise e, u') => (Raise e, self, u')
    end.

(** Successive calls on one popup, each with its own arguments. *)
Fixpoint calls (self : t) (argss : list Args) (u : ui)
  : list (result (value * value)) * t * ui :=
  match argss with
  | [] => ([], self, u)
  | args :: rest =>
      let '(r, self1, u1) := __call__ self args u in
      let '(rs, self2, u2) := calls self1 rest u1 in
      (r :: rs, self2, u2)
  end.

End Call.

Arguments mkui {W Args} world rendered.
Arguments world {W Args} u.
Arguments rendered {W Args} u.
Arguments super_call {W Args} func self args u.
Arguments __call__ {W Args} func self args u.
Arguments calls {W Args} func self argss u.

(** What a closed popup answers: [return 0, True]. *)
Definition closed_answer : result (value * value) := Ok (VInt 0, VBool true).

(** A render step for the examples: the interface state counts the
    frames drawn, the argument says whether the user dismisses the
    popup in this frame. *)
Definition dismissable (args : bool) (popup_uuid : string) (frames : nat)
  : result (value * value) * nat :=
  (Ok (VBool true, VBool args), S frames).

End Popup.

(** ** [DaemonProcess] *)

Module DaemonProcess.

(** An attribute of a duck-typed object: missing, holding a value, or a
    property whose getter raises. *)
Inductive attr (A : Type) : Type :=
| Absent
| Present (v : A)
| Failing (e : exn).

Arguments Absent {A}.
Arguments Present {A} v.
Arguments Failing {A} e.

(** A process handle as [kill] sees it.  [exitcode] is what a
    multiprocessing process has, [returncode] what an asyncio or a
    standard subprocess has, [poll] is the method of a standard
    subprocess with what a call to it yields.  [kill_raises] is the
    exception [proc.kill()] raises, if any; [signals] counts the kill
    signals delivered to the process. *)
Record proc : Type := mkproc {
  exitcode : attr value;
  returncode : attr value;
  poll : attr (result value);
  kill_raises : option exn;
  signals : nat
}.

(** [getattr(obj, name, default)]: the default stands in for a missing
    attribute, and for a getter that raises [AttributeError]. *)
Definition getattr (a : attr value) (default : value) : result value :=
  match a with
  | Absent => Ok default
  | Present v => Ok v
  | Failing AttributeError => Ok default
  | Failing e => Raise e
  end.

(** [getattr(proc, "poll", lambda: False)()]. *)
Definition call_poll (p : proc) : result value :=
  match poll p with
  | Absent => Ok (VBool false)
  | Present r => r
  | Failing AttributeError => Ok (VBool false)
  | Failing e => Raise e
  end.

(** [proc.kill()]. *)
Definition proc_kill (p : proc) : result unit * proc :=
  match kill_raises p with
  | Some e => (Raise e, p)
  | None =>
      (Ok tt, {| exitcode := exitcode p; returncode := returncode p;
                 poll := poll p; kill_raises := kill_raises p;
                 signals := S (signals p) |})
  end.

(** The body of the [try] in [kill]. *)
Definition kill_body (p : proc) : result unit * proc :=
  match getattr (exitcode p) (VBool false) with
  | Raise e => (Raise e, p)
  | Ok v1 =>
      if is_None v1 then proc_kill p
      else
        match getattr (returncode p) (VBool false) with
        | Raise e => (Raise e, p)
        | Ok v2 =>
            if is_None v2 then proc_kill p
            else
              match call_poll p with
              | Raise e => (Raise e, p)
              | Ok v3 => if is_None v3 then proc_kill p else (Ok tt, p)
              end
        end
  end.

(** [kill]: [except Exception: pass] around the body. *)
Definition kill (p : proc) : result unit * proc :=
  match kill_body p with
  | (Ok _, p') => (Ok tt, p')
  | (Raise _, p') => (Ok tt, p')
  end.

(** A [weakref.finalize] object: alive until its first call. *)
Record finalizer : Type := mkfin { alive : bool }.

Record t : Type := mk { finalize : finalizer }.

Definition __init__ (p : proc) : t := {| finalize := {| alive := true |} |}.

(** Calling the finalizer: it unregisters itself, then runs
    [kill(proc)]; a dead finalizer does nothing. *)
Definition call_finalize (self : t) (p : proc) : result unit * t * proc :=
  if alive (finalize self) then
    let '(r, p') := kill p in
    (r, {| finalize := {| alive := false |} |}, p')
  else (Ok tt, self, p).

Definition __enter__ (self : t) : t := self.

(** The explicit release at scope exit. *)
Definition __exit__ (self : t) (p : proc) : result unit * t * proc :=
  call_finalize self p.

(** The automatic release: the interpreter calls the finalizer itself. *)
Definition backstop (self : t) (p : proc) : result unit * t * proc :=
  call_finalize self p.

(** The ways a guard gets released, and a run of several of them. *)
Inductive release : Type := ScopeExit | Backstop.

Definition release_once (how : release) (self : t) (p : proc)
  : result unit * t * proc :=
  match how with
  | ScopeExit => __exit__ self p
  | Backstop => backstop self p
  end.

Fixpoint release_all (hows : list release) (self : t) (p : proc)
  : list (result unit) * t * proc :=
  match hows with
  | [] => ([], self, p)
  | how :: rest =>
      let '(r, self1, p1) := release_once how self p in
      let '(rs, self2, p2) := release_all rest self1 p1 in
      (r :: rs, self2, p2)
  end.

(** The liveness check as the specification words it: the handle says
    the process is still running when its exit-code field is unset, or
    its return-code field is unset, or its poll-style probe returns
    [None]. *)
Definition says_running (p : proc) : Prop :=
  exitcode p = Present VNone \/
  returncode p = Present VNone \/
  poll p = Present (Ok VNone).

End DaemonProcess.

(** ** Messages and their wire encoding *)

(** A message: what [json.loads] builds. *)
#[warnings="-register-all"]
Inductive json : Type :=
| JNull
| JBool (b : bool)
| JInt (z : Z)
| JStr (s : string)
| JList (items : list json)
| JDict (items : list (string * json)).

(** The [json] module of the Python library is not part of the
    repository: the pipes are modelled over any [loads] and [dumps].
    [json_loads] returns the decoded message or the exception it raises
    ([JSONDecodeError] for text that is no JSON document). *)
Class JsonModule : Type := {
  json_loads : string -> result json;
  json_dumps : json -> string
}.

Definition newline : string := String (ascii_of_nat 10) EmptyString.

(** A [loads] that knows the JSON literals only, and a [dumps] for them;
    every other line is a decode error. *)
Definition literal_loads (s : string) : result json :=
  if String.eqb s ("null" ++ newline) then Ok JNull
  else if String.eqb s ("true" ++ newline) then Ok (JBool true)
  else if String.eqb s ("false" ++ newline) then Ok (JBool false)
  else if String.eqb s ("[]" ++ newline) then Ok (JList [])
  else if String.eqb s ("{}" ++ newline) then Ok (JDict [])
  else Raise JSONDecodeError.

Definition literal_dumps (m : json) : string :=
  match m with
  | JBool true => "true"
  | JBool false => "false"
  | JList [] => "[]"
  | JDict [] => "{}"
  | _ => "null"
  end.

#[local] Instance literal_json : JsonModule :=
  {| json_loads := literal_loads; json_dumps := literal_dumps |}.

Section Decoding.
Context {J : JsonModule}.

(** The messages among some lines, in the order of the lines. *)
Fixpoint decoded (ls : list string) : list json :=
  match ls with
  | [] => []
  | l :: rest =>
      match json_loads l with
      | Ok m => m :: decoded rest
      | Raise _ => decoded rest
      end
  end.

(** A line that is a message, or that fails to decode as one. *)
Definition message_or_noise (l : string) : Prop :=
  forall e : exn, json_loads l = Raise e -> e = JSONDecodeError.

End Decoding.

(** How a call on a pipe ends.  [Suspended] is a task left waiting for
    input that does not come; [OutOfFuel] is a loop still running when
    the steps granted to it are used up. *)
Inductive outcome (A : Type) : Type :=
| Returned (a : A)
| Raised (e : exn)
| Suspended
| OutOfFuel.

Arguments Returned {A} a.
Arguments Raised {A} e.
Arguments Suspended {A}.
Arguments OutOfFuel {A}.

(** ** [DaemonPipe] *)

Module DaemonPipe.

(** The read end of the worker's output, an [asyncio.StreamReader]:
    the lines fed and not yet read, and whether the end was fed. *)
Record StreamReader : Type := mkreader { buffer : list string; eof : bool }.

Definition at_eof (r : StreamReader) : bool :=
  eof r && match buffer r with [] => true | _ :: _ => false end.

(** An [asyncio.subprocess.Process]; [stdin] holds what was written to
    the worker.  A stream is [None] when it was not piped. *)
Record Process : Type := mkprocess {
  returncode : option Z;
  stdout : option StreamReader;
  stdin : option (list string)
}.

Record t : Type := mk { proc : Process; daemon : DaemonProcess.t }.

(** What the event loop may observe while the task is suspended. *)
Inductive event : Type :=
| FeedLine (l : string)     (* the worker wrote a line *)
| FeedEof                   (* the worker's output was closed *)
| Exit (code : Z).          (* the worker was reaped *)

(** What happens during each successive suspension of the task; after
    the last entry nothing happens any more. *)
Definition world : Type := list (list event).

Definition feed (e : event) (r : StreamReader) : StreamReader :=
  match e with
  | FeedLine l =>
      if eof r then r else {| buffer := buffer r ++ [l]; eof := false |}
  | FeedEof => {| buffer := buffer r; eof := true |}
  | Exit _ => r
  end.

Definition occur (p : Process) (e : event) : Process :=
  {| returncode :=
       match e, returncode p with
       | Exit c, None => Some c
       | _, rc => rc
       end;
     stdout := option_map (feed e) (stdout p);
     stdin := stdin p |}.

Definition occur_all (p : Process) (evs : list event) : Process :=
  fold_left occur evs p.

Definition set_proc (self : t) (p : Process) : t :=
  {| proc := p; daemon := daemon self |}.

(** [await asyncio.sleep(0)]: one suspension. *)
Definition sleep0 (w : world) (self : t) : world * t :=
  match w with
  | [] => ([], self)
  | evs :: w' => (w', set_proc self (occur_all (proc self) evs))
  end.

Definition is_alive (w : world) (self : t) : bool * world * t :=
  let '(w', self') := sleep0 w self in
  (match returncode (proc self') with None => true | Some _ => false end,
   w', self').

(** [await stdout.readline()]: a buffered line is returned at once; at
    the end of the stream the empty line is; otherwise the task is
    suspended until something is fed.  No line ([None]): it waits for
    ever. *)
Fixpoint readline (w : world) (p : Process)
  : option string * world * Process :=
  match stdout p with
  | None => (None, w, p)
  | Some r =>
      match buffer r with
      | l :: rest =>
          (Some l, w, {| returncode := returncode p;
                         stdout := Some {| buffer := rest; eof := eof r |};
                         stdin := stdin p |})
      | [] =>
          if eof r then (Some EmptyString, w, p)
          else
            match w with
            | [] => (None, [], p)
            | evs :: w' => readline w' (occur_all p evs)
            end
      end
  end.

Section WithJson.
Context {J : JsonModule}.

(** The loop of [get_async], at most [fuel] iterations of it. *)
Fixpoint get_async_loop (fuel : nat) (w : world) (self : t)
  : outcome json * world * t :=
  match fuel with
  | O => (OutOfFuel, w, self)
  | S fuel' =>
      let '(alive, w1, self1) := is_alive w self in
      let running :=
        if alive then
          match stdout (proc self1) with
          | Some r => Ok (negb (at_eof r))
          | None => Raise AttributeError
          end
        else Ok false in
      match running with
      | Raise e => (Raised e, w1, self1)
      | Ok false => (Raised DaemonPipeExit, w1, self1)
      | Ok true =>
          match readline w1 (proc self1) with
          | (None, w2, p2) => (Suspended, w2, set_proc self1 p2)
          | (Some line, w2, p2) =>
              let self2 := set_proc self1 p2 in
              match json_loads line with
              | Ok m => (Returned m, w2, self2)
              | Raise JSONDecodeError => get_async_loop fuel' w2 self2
              | Raise e => (Raised e, w2, self2)
              end
          end
      end
  end.

Definition get_async (fuel : nat) (w : world) (self : t)
  : outcome json * world * t :=
  match stdout (proc self) with
  | None => (Raised AssertionError, w, self)
  | Some _ => get_async_loop fuel w self
  end.

Definition put (self : t) (data : json) : result unit * t :=
  match stdin (proc self) with
  | None => (Raise AssertionError, self)
  | Some written =>
      match returncode (proc self) with
      | None =>
          (Ok tt,
           set_proc self
             {| returncode := returncode (proc self);
                stdout := stdout (proc self);
                stdin := Some (written ++ [(json_dumps data ++ newline)%string]) |})
      | Some _ => (Raise DaemonPipeExit, self)
      end
  end.

(** Successive calls of [get_async], up to the first that does not
    return a message. *)
Fixpoint drain (n fuel : nat) (w : world) (self : t) : list (outcome json) :=
  match n with
  | O => []
  | S n' =>
      match get_async fuel w self with
      | (Returned m, w', self') => Returned m :: drain n' fuel w' self'
      | (o, _, _) => [o]
      end
  end.

End WithJson.

(** The lines a world feeds, in the order they arrive. *)
Definition fed (evs : list event) : list string :=
  flat_map (fun e => match e with FeedLine l => [l] | _ => [] end) evs.

Definition arrivals (w : world) : list string := flat_map fed w.

(** A world in which the worker neither exits nor closes its output. *)
Definition quiet (evs : list event) : Prop :=
  Forall (fun e => exists l, e = FeedLine l) evs.

Definition calm (w : world) : Prop := Forall quiet w.

(** A healthy transport: the worker runs and its output is open. *)
Definition healthy (p : Process) : Prop :=
  returncode p = None /\ exists r, stdout p = Some r /\ eof r = false.

(** A process that has exited, or whose output is at its end. *)
Definition terminal (p : Process) : Prop :=
  exists r, stdout p = Some r /\ (returncode p <> None \/ at_eof r = true).

(** The lines still to be read: those buffered, then those to come. *)
Definition pending (w : world) (p : Process) : list string :=
  match stdout p with
  | Some r => buffer r ++ arrivals w
  | None => []
  end.

(** What one call of [get_async] owes a healthy transport: the first
    message among the pending lines, with the lines after it still
    pending; a wait, when no message is pending. *)
Definition serves {J : JsonModule} (fuel : nat) (w : world) (self : t) : Prop :=
  match decoded (pending w (proc self)) with
  | [] => exists w' self', get_async fuel w self = (Suspended, w', self')
  | m :: ms =>
      exists w' self',
        get_async fuel w self = (Returned m, w', self') /\
        healthy (proc self') /\ calm w' /\
        Forall message_or_noise (pending w' (proc self')) /\
        decoded (pending w' (proc self')) = ms /\
        (List.length (pending w' (proc self'))
         <= List.length (pending w (proc self)))%nat
  end.

End DaemonPipe.

(** ** [ChildPipe] *)

Module ChildPipe.

(** [sys.stdin] as the worker reads it: [lines k] is what the [k]-th
    call of [readline] returns, the empty string once the input is
    exhausted; [pos] counts the calls made.  A read that blocks until a
    line is there is a read that returns it. *)
Record TextIO : Type := mkio { lines : nat -> string; pos : nat }.

Definition readline (f : TextIO) : string * TextIO :=
  (lines f (pos f), {| lines := lines f; pos := S (pos f) |}).

(** A standard input that holds [ls] and is exhausted after them. *)
Definition of_list (ls : list string) : TextIO :=
  {| lines := fun k => nth k ls EmptyString; pos := 0 |}.

(** The next [k] lines of a stream. *)
Definition upcoming (f : TextIO) (k : nat) : list string :=
  map (lines f) (seq (pos f) k).

(** The running event loop: whether it implements [add_reader]. *)
Record Loop : Type := mkloop { add_reader_supported : bool }.

Record Event : Type := mkevent { is_set : bool }.

(** [loop] is always assigned; the slot [stdin_event] is left
    unassigned ([None]) when there is no loop or no standard input. *)
Record t : Type := mk { loop : option Loop; stdin_event : option (option Event) }.

(** What the pipe asks of the scheduler and of the input, in order. *)
Inductive action : Type :=
| AddReader          (* loop.add_reader(sys.stdin, stdin_event.set) *)
| EventWait          (* await stdin_event.wait() *)
| EventClear         (* stdin_event.clear() *)
| RunInExecutor      (* await loop.run_in_executor(None, sys.stdin.readline) *)
| ReadInline         (* sys.stdin.readline() on the calling thread *)
| Sleep0.            (* await asyncio.sleep(0) *)

Definition action_eqb (a b : action) : bool :=
  match a, b with
  | AddReader, AddReader | EventWait, EventWait | EventClear, EventClear
  | RunInExecutor, RunInExecutor | ReadInline, ReadInline
  | Sleep0, Sleep0 => true
  | _, _ => false
  end.

(** [__init__]: [running] is the loop [asyncio.get_running_loop()]
    returns, [None] when it raises [RuntimeError]. *)
Definition __init__ {S : Type} (running : option Loop) (sys_stdin : option S)
  : t * list action :=
  match running, sys_stdin with
  | Some l, Some _ =>
      if add_reader_supported l
      then ({| loop := Some l;
               stdin_event := Some (Some {| is_set := false |}) |}, [AddReader])
      else ({| loop := Some l; stdin_event := Some None |}, [])
  | _, _ => ({| loop := running; stdin_event := None |}, [])
  end.

(** The standard input as [get_async] meets it: the lines [sys.stdin]
    has taken into its buffer and not returned yet, the lines in the
    descriptor the controller writes to, and whether the controller has
    closed its end. *)
Record Stdin : Type := mkstdin {
  buffered : list string;
  in_pipe : list string;
  closed : bool
}.

Inductive arrival : Type :=
| Write (line : string)     (* the controller wrote a line *)
| Close.                    (* the controller closed its end *)

(** One iteration of the event loop while the task is suspended: what
    reaches the descriptor during it and, for the iteration after an
    executor thread has read the descriptor, whether the selector had
    looked at the descriptor before the thread emptied it. *)
Record iteration : Type := mkiter {
  selector_first : bool;
  arrives : list arrival
}.

(** The iterations to come; after the last nothing arrives any more. *)
Definition world : Type := list iteration.

Definition arrive (s : Stdin) (a : arrival) : Stdin :=
  match a with
  | Write l =>
      if closed s then s
      else {| buffered := buffered s; in_pipe := in_pipe s ++ [l];
              closed := false |}
  | Close =>
      {| buffered := buffered s; in_pipe := in_pipe s; closed := true |}
  end.

Definition arrive_all (s : Stdin) (arrivals : list arrival) : Stdin :=
  fold_left arrive arrivals s.

(** What the selector reports of the descriptor: there is something
    to read in it, or its end.  What [sys.stdin] holds in its buffer
    is not in the descriptor any more. *)
Definition readable (s : Stdin) : bool :=
  match in_pipe s with
  | [] => closed s
  | _ :: _ => true
  end.

(** The reader callback [stdin_event.set], which the loop calls in an
    iteration whose selector reports the descriptor readable. *)
Definition signal (s : Stdin) (ev : Event) : Event :=
  if readable s then {| is_set := true |} else ev.

Definition set_event (self : t) (ev : option Event) : t :=
  {| loop := loop self; stdin_event := Some ev |}.

(** [await stdin_event.wait()] on an event that is not set: the task
    is suspended, iteration after iteration, until the selector finds
    the descriptor readable and the callback sets the event.  [false]:
    that never happens. *)
Fixpoint wait (w : world) (s : Stdin) : bool * world * Stdin :=
  match w with
  | [] => (readable s, [], s)
  | i :: w' =>
      let s' := arrive_all s (arrives i) in
      if readable s' then (true, w', s') else wait w' s'
  end.

(** The executor thread in its read of a descriptor with nothing in
    it: it stays there until something arrives.  [false]: nothing
    does. *)
Fixpoint block (w : world) (s : Stdin) : bool * world * Stdin :=
  if readable s then (true, w, s)
  else
    match w with
    | [] => (false, [], s)
    | i :: w' => block w' (arrive_all s (arrives i))
    end.

(** [sys.stdin.readline()] once a line can be had: a line of the
    buffer is returned without a look at the descriptor; otherwise what
    is in the descriptor is taken into the buffer, in one read, and its
    first line returned; the empty string at the end of the input. *)
Definition stdin_readline (s : Stdin) : string * Stdin :=
  match buffered s with
  | l :: rest =>
      (l, {| buffered := rest; in_pipe := in_pipe s; closed := closed s |})
  | [] =>
      match in_pipe s with
      | l :: rest =>
          (l, {| buffered := rest; in_pipe := []; closed := closed s |})
      | [] => (EmptyString, s)
      end
  end.

(** [await loop.run_in_executor(None, sys.stdin.readline)]: the thread
    reads, from the buffer or, after the wait it takes, from the
    descriptor; the task resumes one iteration later, in which the
    callback sets the event when the selector saw the descriptor before
    the thread emptied it or finds it readable afterwards.  No line
    ([None]): the thread stays in its read. *)
Definition run_in_executor (w : world) (s : Stdin) (ev : option Event)
  : option string * world * Stdin * option Event :=
  let '(found, w1, s1, from_descriptor) :=
    match buffered s with
    | _ :: _ => (true, w, s, false)
    | [] => let '(found, w1, s1) := block w s in (found, w1, s1, true)
    end in
  if found then
    let '(line, s2) := stdin_readline s1 in
    match w1 with
    | [] => (Some line, [], s2, option_map (signal s2) ev)
    | i :: w2 =>
        let ev1 :=
          if from_descriptor && selector_first i
          then option_map (fun _ => {| is_set := true |}) ev
          else ev in
        let s3 := arrive_all s2 (arrives i) in
        (Some line, w2, s3, option_map (signal s3) ev1)
    end
  else (None, w1, s1, ev).

(** [await asyncio.sleep(0)]: one iteration. *)
Definition sleep0 (w : world) (s : Stdin) (ev : option Event)
  : world * Stdin * option Event :=
  match w with
  | [] => ([], s, option_map (signal s) ev)
  | i :: w' =>
      let s' := arrive_all s (arrives i) in
      (w', s', option_map (signal s') ev)
  end.

Section WithJson.
Context {J : JsonModule}.

(** The loop of [get], at most [fuel] iterations of it. *)
Fixpoint get_loop (fuel : nat) (f : TextIO)
  : outcome json * TextIO * list action :=
  match fuel with
  | O => (OutOfFuel, f, [])
  | S fuel' =>
      let '(line, f1) := readline f in
      match json_loads line with
      | Ok m => (Returned m, f1, [ReadInline])
      | Raise JSONDecodeError =>
          let '(o, f2, tr) := get_loop fuel' f1 in
          (o, f2, ReadInline :: tr)
      | Raise e => (Raised e, f1, [ReadInline])
      end
  end.

Definition get (fuel : nat) (self : t) (sys_stdin : option TextIO)
  : outcome json * option TextIO * list action :=
  match sys_stdin with
  | None => (Raised AssertionError, None, [])
  | Some f =>
      let '(o, f', tr) := get_loop fuel f in (o, Some f', tr)
  end.

(** The loop of [get_async].  With a readiness event the task first
    waits until the event is set, unless it is set already, and clears
    it; the line is read on an executor thread either way.  The call
    is [Suspended] when the event is never set or when the thread
    stays in its read. *)
Fixpoint get_async_loop (fuel : nat) (w : world) (self : t) (s : Stdin)
  : outcome json * world * t * Stdin * list action :=
  match fuel with
  | O => (OutOfFuel, w, self, s, [])
  | S fuel' =>
      match stdin_event self with
      | None => (Raised AttributeError, w, self, s, [])
      | Some ev =>
          let '(go, w1, s1) :=
            match ev with
            | Some e => if is_set e then (true, w, s) else wait w s
            | None => (true, w, s)
            end in
          if go then
            let ev1 :=
              match ev with
              | Some _ => Some {| is_set := false |}
              | None => None
              end in
            let tr1 :=
              match ev with
              | Some _ => [EventWait; EventClear]
              | None => []
              end in
            match run_in_executor w1 s1 ev1 with
            | (None, w2, s2, ev2) =>
                (Suspended, w2, set_event self ev2, s2, tr1 ++ [RunInExecutor])
            | (Some line, w2, s2, ev2) =>
                match json_loads line with
                | Ok m =>
                    (Returned m, w2, set_event self ev2, s2,
                     tr1 ++ [RunInExecutor])
                | Raise JSONDecodeError =>
                    let '(w3, s3, ev3) := sleep0 w2 s2 ev2 in
                    let '(o, w4, self4, s4, tr) :=
                      get_async_loop fuel' w3 (set_event self ev3) s3 in
                    (o, w4, self4, s4, tr1 ++ [RunInExecutor; Sleep0] ++ tr)
                | Raise e =>
                    (Raised e, w2, set_event self ev2, s2,
                     tr1 ++ [RunInExecutor])
                end
            end
          else (Suspended, w1, self, s1, [EventWait])
      end
  end.

Definition get_async (fuel : nat) (w : world) (self : t)
  (sys_stdin : option Stdin)
  : outcome json * world * t * option Stdin * list action :=
  match sys_stdin with
  | None => (Raised AssertionError, w, self, None, [])
  | Some s =>
      match loop self with
      | None => (Raised AssertionError, w, self, Some s, [])
      | Some _ =>
          let '(o, w', self', s', tr) := get_async_loop fuel w self s in
          (o, w', self', Some s', tr)
      end
  end.

(** [print(json.dumps(data), flush=True)]: the text put on the
    standard output. *)
Definition put (sys_stdout : option (list string)) (data : json)
  : result unit * option (list string) :=
  match sys_stdout with
  | None => (Raise AssertionError, None)
  | Some written =>
      (Ok tt, Some (written ++ [(json_dumps data ++ newline)%string]))
  end.

(** Successive calls of [get_async], up to the first that does not
    return a message. *)
Fixpoint drain (n fuel : nat) (w : world) (self : t) (s : Stdin)
  : list (outcome json) :=
  match n with
  | O => []
  | S n' =>
      match get_async fuel w self (Some s) with
      | (Returned m, w', self', Some s', _) =>
          Returned m :: drain n' fuel w' self' s'
      | (o, _, _, _, _) => [o]
      end
  end.

End WithJson.

(** The reading of the specification: the read is handed to another
    thread only where the loop cannot signal readiness. *)
Definition defers_only_without_readiness (l : Loop) (tr : list action) : Prop :=
  In RunInExecutor tr -> add_reader_supported l = false.

(** One round of the loop of [get_async], as the code has it. *)
Definition round (l : Loop) : list action :=
  (if add_reader_supported l then [EventWait; EventClear] else [])
  ++ [RunInExecutor].

Definition occurrences (a : action) (tr : list action) : nat :=
  List.length (filter (action_eqb a) tr).

(** Whether a call was left in [stdin_event.wait()]: 1 if so. *)
Definition left_waiting (tr : list action) : nat :=
  match last tr RunInExecutor with
  | EventWait => 1
  | _ => 0
  end.

(** Whether the event, not set now, gets set in this world. *)
Definition signalled (w : world) (s : Stdin) : bool := fst (fst (wait w s)).

(** A pipe as [__init__] leaves it under the running loop [l], and as
    every round of [get_async] leaves it again: with an event exactly
    when the loop takes a reader. *)
Definition built_under (l : Loop) (self : t) : Prop :=
  loop self = Some l /\
  exists ev, stdin_event self = Some ev /\
             (if add_reader_supported l then ev <> None else ev = None).



(** The lines a world writes, in the order they arrive. *)
Definition writes (arrivals : list arrival) : list string :=
  flat_map (fun a => match a with Write l => [l] | Close => [] end) arrivals.

Definition to_come (w : world) : list string :=
  flat_map (fun i => writes (arrives i)) w.



(** The lines still to be read: those in the buffer, those in the
    descriptor, those to come. *)
Definition pending (w : world) (s : Stdin) : list string :=
  buffered s ++ in_pipe s ++ to_come w.


End ChildPipe.

(** ** [Timestamp] *)

Module Timestamp.

(** The argument [unix_time : int | float].  A finite float is
    [m * 2^e] for integers [m] and [e]. *)
Inductive number : Type :=
| PyInt (z : Z)
| PyFloat (m e : Z)
| PyInf (negative : bool)
| PyNaN.

(** [int(x)]: a float is truncated towards zero; an infinity raises
    [OverflowError], a NaN [ValueError]. *)
Definition int (x : number) : result Z :=
  match x with
  | PyInt z => Ok z
  | PyFloat m e =>
      if 0 <=? e then Ok (m * 2 ^ e) else Ok (Z.quot m (2 ^ (- e)))
  | PyInf _ => Raise OverflowError
  | PyNaN => Raise ValueError
  end.

Record t : Type := mk { value : Z; _display : option string }.

Definition update (self : t) (unix_time : option number) : result t :=
  match unix_time with
  | Some x => v <- int x ;; Ok {| value := v; _display := None |}
  | None => Ok {| value := value self; _display := None |}
  end.

(** [__init__(unix_time)] runs [update(unix_time)] on the new object,
    which assigns both slots; the registration in [instances] is left
    out. *)
Definition __init__ (unix_time : number) : result t :=
  v <- int unix_time ;; Ok {| value := v; _display := None |}.

Definition try_except {A : Type} (body : result A) (handler : exn -> result A)
  : result A :=
  match body with
  | Ok a => Ok a
  | Raise e => handler e
  end.

Definition fallback : string := "Bad format!".

(** The cache of an unset timestamp is empty or holds the empty
    string. *)
Definition zero_cache_sound (self : t) : Prop :=
  value self = 0 -> _display self = None \/ _display self = Some EmptyString.

Section Display.

(** [datetime.datetime] of the Python library: the conversion of an
    epoch and the formatting, each of which may raise. *)
Variable datetime : Type.
Variable fromtimestamp : Z -> result datetime.
Variable strftime : datetime -> string -> result string.

(** The property [display]; [format] is what the property [format]
    yields at this read (the setting looked up, or the exception the
    lookup raises). *)
Definition display (self : t) (format : result string) : result string * t :=
  match _display self with
  | None =>
      let r :=
        if value self =? 0 then Ok EmptyString
        else
          try_except
            (d <- fromtimestamp (value self) ;;
             fmt <- format ;;
             strftime d fmt)
            (fun _ => Ok fallback) in
      match r with
      | Ok s => (Ok s, {| value := value self; _display := Some s |})
      | Raise e => (Raise e, self)
      end
  | Some s => (Ok s, self)
  end.

(** The objects a program can hold: built by [__init__], changed by
    [update] and by reads of [display]. *)
Inductive reachable : t -> Prop :=
| reach_init x self :
    __init__ x = Ok self -> reachable self
| reach_update self x self' :
    reachable self -> update self x = Ok self' -> reachable self'
| reach_display self format :
    reachable self -> reachable (snd (display self format)).

End Display.

(** A calendar for the examples: a date is its epoch, epochs from the
    year 10000 on are out of range, and the only directive is [%s]
    (the epoch in decimal). *)
Definition sample_fromtimestamp (v : Z) : result Z :=
  if v <? 253402300800 then Ok v else Raise OverflowError.

Definition sample_strftime (d : Z) (format : string) : result string :=
  if String.eqb format "%s" then Ok (str_int d) else Raise ValueError.

End Timestamp.

(** ** What successive reads make of the lines *)

Section Served.
Context {J : JsonModule}.

(** The answers successive calls of [get_async] give on some lines,
    when every line is there to be read: the message of a line that
    decodes; nothing for a line on which [loads] raises
    [JSONDecodeError], the class the [except] clause names; the
    exception of the first line on which [loads] raises another one,
    which ends the call with it; and a wait once the lines are used
    up. *)
Fixpoint served (ls : list string) : list (outcome json) :=
  match ls with
  | [] => [Suspended]
  | l :: rest =>
      match json_loads l with
      | Ok m => Returned m :: served rest
      | Raise JSONDecodeError => served rest
      | Raise e => [Raised e]
      end
  end.


End Served.





(** ** [DaemonPipe] as a context manager *)

Module DaemonPipeScope.

(** The [asyncio] process as [DaemonProcess.kill] sees it: it has a
    [returncode], and neither [exitcode] nor [poll]. *)
Definition handle (p : DaemonPipe.Process) (fault : option exn) (signals : nat)
  : DaemonProcess.proc :=
  {| DaemonProcess.exitcode := DaemonProcess.Absent;
     DaemonProcess.returncode :=
       DaemonProcess.Present
         (match DaemonPipe.returncode p with
          | None => VNone
          | Some c => VInt c
          end);
     DaemonProcess.poll := DaemonProcess.Absent;
     DaemonProcess.kill_raises := fault;
     DaemonProcess.signals := signals |}.

(** A pipe with what its process does when killed ([fault]: the
    exception [proc.kill()] raises, if any) and the kill signals the
    process got so far. *)
Record scope : Type := mkscope {
  pipe : DaemonPipe.t;
  fault : option exn;
  signals : nat
}.

(** [self.daemon.__exit__()]. *)
Definition daemon_exit (s : scope) : scope :=
  let '(_, d', h') :=
    DaemonProcess.__exit__ (DaemonPipe.daemon (pipe s))
      (handle (DaemonPipe.proc (pipe s)) (fault s) (signals s)) in
  {| pipe := {| DaemonPipe.proc := DaemonPipe.proc (pipe s);
                DaemonPipe.daemon := d' |};
     fault := fault s;
     signals := DaemonProcess.signals h' |}.

Definition __enter__ (s : scope) : scope :=
  {| pipe := {| DaemonPipe.proc := DaemonPipe.proc (pipe s);
                DaemonPipe.daemon := DaemonProcess.__enter__ (DaemonPipe.daemon (pipe s)) |};
     fault := fault s;
     signals := signals s |}.

(** [__exit__]: the answer is [True] for [DaemonPipeExit] and [None],
    which is falsy, otherwise. *)
Definition __exit__ (s : scope) (exc_type : option exn) : bool * scope :=
  let s' := daemon_exit s in
  match exc_type with
  | Some DaemonPipeExit => (true, s')
  | _ => (false, s')
  end.

Definition kill (s : scope) : scope := daemon_exit s.

(** [with pipe: body].  A body that is left waiting or still running
    has not reached the end of the block. *)
Definition with_pipe {A : Type} (body : scope -> outcome A * scope) (s : scope)
  : outcome (option A) * scope :=
  match body (__enter__ s) with
  | (Returned a, s2) => (Returned (Some a), snd (__exit__ s2 None))
  | (Raised e, s2) =>
      let '(suppress, s3) := __exit__ s2 (Some e) in
      (if suppress then Returned None else Raised e, s3)
  | (Suspended, s2) => (Suspended, s2)
  | (OutOfFuel, s2) => (OutOfFuel, s2)
  end.

(** The body [await pipe.get_async()]. *)
Definition receive {J : JsonModule} (fuel : nat) (w : DaemonPipe.world) (s : scope)
  : outcome json * scope :=
  let '(o, _, p') := DaemonPipe.get_async fuel w (pipe s) in
  (o, {| pipe := p'; fault := fault s; signals := signals s |}).

(** A worker whose output gets closed: the end of the stream was fed
    already or is fed in the course of [w]. *)
Definition closing (w : DaemonPipe.world) (p : DaemonPipe.Process) : Prop :=
  exists r, DaemonPipe.stdout p = Some r /\
            (DaemonPipe.eof r = true \/ In DaemonPipe.FeedEof (List.concat w)).

(** The lines a call may still have to read. *)
Definition backlog (w : DaemonPipe.world) (p : DaemonPipe.Process) : nat :=
  List.length (DaemonPipe.pending w p).

End DaemonPipeScope.

(** ** The two ends of a transport *)

Module Wire.

Section WithJson.
Context {J : JsonModule}.


(** Successive calls of [ChildPipe.put]. *)
Fixpoint worker_puts (msgs : list json) (sys_stdout : option (list string))
  : list (result unit) * option (list string) :=
  match msgs with
  | [] => ([], sys_stdout)
  | m :: rest =>
      let '(r, out1) := ChildPipe.put sys_stdout m in
      let '(rs, out2) := worker_puts rest out1 in
      (r :: rs, out2)
  end.

(** The line a message travels as. *)
Definition on_wire (m : json) : string := (json_dumps m ++ newline)%string.

(** A message that [loads] gets back from the line [dumps] made of it. *)
Definition survives (m : json) : Prop := json_loads (on_wire m) = Ok m.

End WithJson.




(** What was written to the standard input of the worker. *)
Definition written (self : DaemonPipe.t) : list string :=
  match DaemonPipe.stdin (DaemonPipe.proc self) with
  | Some ls => ls
  | None => []
  end.

End Wire.

(** ** Text helpers *)

(** [s.replace(c, by)] for a one-character [c]. *)
Fixpoint replace_char (c : ascii) (by_ : string) (s : string) : string :=
  match s with
  | EmptyString => EmptyString
  | String x r =>
      if Ascii.eqb x c then (by_ ++ replace_char c by_ r)%string
      else String x (replace_char c by_ r)
  end.

(** [s.split(c)] for a one-character separator [c]: the fields between
    the separators, empty ones included. *)
Fixpoint split_on (c : ascii) (s : string) : list string :=
  match s with
  | EmptyString => [EmptyString]
  | String x r =>
      if Ascii.eqb x c then EmptyString :: split_on c r
      else
        match split_on c r with
        | w :: ws => String x w :: ws
        | [] => [String x EmptyString]
        end
  end.

(** ["".join(ws)]. *)
Fixpoint join (ws : list string) : string :=
  match ws with
  | [] => EmptyString
  | w :: r => (w ++ join r)%string
  end.

(** [d.join(ws)]. *)
Fixpoint join_with (d : string) (ws : list string) : string :=
  match ws with
  | [] => EmptyString
  | [w] => w
  | w :: r => (w ++ d ++ join_with d r)%string
  end.

(** [s[:-n]] for a positive [n]. *)
Definition drop_last (n : nat) (s : string) : string :=
  substring 0 (String.length s - n) s.

(** [c.isdigit()] for an ASCII character. *)
Definition is_digit (c : ascii) : bool :=
  (48 <=? nat_of_ascii c)%nat && (nat_of_ascii c <=? 57)%nat.

(** ** [FileDownload] *)

Module FileDownload.

Inductive State : Type :=
| Preparing | Downloading | Verifying | Extracting | Stopped | Deleting | Removed.

Definition State_eqb (a b : State) : bool :=
  match a, b with
  | Preparing, Preparing | Downloading, Downloading | Verifying, Verifying
  | Extracting, Extracting | Stopped, Stopped | Deleting, Deleting
  | Removed, Removed => true
  | _, _ => false
  end.

(** The fields [delete] reads and writes. *)
Record t : Type := mk {
  path : option string;
  extracted : option string;
  state : State
}.

(** What [delete] finds around it: whether there is an event loop, and
    what removing a tree or a file does. *)
Record env : Type := mkenv {
  get_event_loop : result unit;
  rmtree : string -> result unit;
  unlink : string -> result unit
}.

(** The removals that were started. *)
Inductive op : Type :=
| Rmtree (dir : string)
| Unlink (file : string).

(** The body of the [try] in [delete], with the removals it starts. *)
Definition delete_body (E : env) (self : t) : result unit * list op :=
  match get_event_loop E with
  | Raise e => (Raise e, [])
  | Ok _ =>
      let '(r1, ops1) :=
        match extracted self with
        | Some dir => (rmtree E dir, [Rmtree dir])
        | None => (Ok tt, [])
        end in
      match r1 with
      | Raise e => (Raise e, ops1)
      | Ok _ =>
          match path self with
          | Some file => (unlink E file, ops1 ++ [Unlink file])
          | None => (Raise AttributeError, ops1)
          end
      end
  end.

Definition delete (E : env) (self : t) : result unit * t * list op :=
  if State_eqb (state self) Stopped then
    let '(_, ops) := delete_body E self in
    (Ok tt, {| path := path self; extracted := extracted self; state := Removed |},
     ops)
  else (Raise AssertionError, self, []).

End FileDownload.

(** ** [IntEnumHack] *)

Module IntEnumHack.

(** The name under which [__init__] makes a member reachable as an
    attribute; [None] when [name[0]] raises, on the empty name. *)
Definition new_name (name : string) : option string :=
  match name with
  | EmptyString => None
  | String c _ =>
      Some ((if is_digit c then "_" else "")
            ++ replace_char "-" "__" (replace_char " " "_" name))%string
  end.

(** The attribute [__init__] adds to the class, if any. *)
Definition alias (name : string) : option string :=
  match new_name name with
  | Some n => if String.eqb n name then None else Some n
  | None => None
  end.

Definition starts_with_digit (s : string) : bool :=
  match s with
  | EmptyString => false
  | String c _ => is_digit c
  end.

End IntEnumHack.

(** ** [SearchLogic] *)

Module SearchLogic.

#[warnings="-register-all"]
Inductive t : Type :=
| mk (nodes : list t) (token : option string) (logic type : string) (invert : bool).

Definition nodes (n : t) : list t := match n with mk ns _ _ _ _ => ns end.
Definition token (n : t) : option string := match n with mk _ tk _ _ _ => tk end.
Definition logic (n : t) : string := match n with mk _ _ l _ _ => l end.
Definition type (n : t) : string := match n with mk _ _ _ ty _ => ty end.
Definition invert (n : t) : bool := match n with mk _ _ _ _ i => i end.

(** [__init__] with its defaults. *)
Definition __init__ (token : option string) (logic : option string)
           (invert : option bool) (type : option string) (nodes : option (list t)) : t :=
  mk (match nodes with Some ns => ns | None => [] end)
     token
     (match logic with Some l => l | None => "&" end)
     (match type with Some ty => ty | None => "&" end)
     (match invert with Some i => i | None => false end).

Definition is_comparison (type : string) : bool :=
  existsb (String.eqb type) ["<"; "<="; "="; ">="; ">"].

Definition node_delim (logic : string) : string :=
  if String.eqb logic "|" then " or " else " and ".

(** What [__str__] has put out before it comes to the nodes. *)
Definition head (n : t) : string :=
  let output := EmptyString in
  let output := if invert n then (output ++ "not ")%string else output in
  let output :=
    match token n with
    | Some tk => if String.eqb tk "" then output else (output ++ tk)%string
    | None => output
    end in
  if is_comparison (type n) then (output ++ type n)%string else output.

Fixpoint __str__ (n : t) : string :=
  match n with
  | mk ns tk lg ty inv =>
      let output := head (mk ns tk lg ty inv) in
      match ns with
      | [] => output
      | _ :: _ =>
          let delim := node_delim lg in
          let output :=
            if (1 <? List.length ns)%nat then (output ++ "(")%string else output in
          let output :=
            (fix each (output : string) (rest : list t) : string :=
               match rest with
               | [] => output
               | node :: rest' =>
                   each (output ++ (__str__ node ++ delim))%string rest'
               end) output ns in
          let output := drop_last (String.length delim) output in
          if (1 <? List.length ns)%nat then (output ++ ")")%string else output
      end
  end.

(** [__eq__]: the children and the id are not compared. *)
Definition option_string_eqb (a b : option string) : bool :=
  match a, b with
  | Some x, Some y => String.eqb x y
  | None, None => true
  | _, _ => false
  end.

Definition __eq__ (self node : t) : bool :=
  String.eqb (logic node) (logic self) && String.eqb (type node) (type self)
  && option_string_eqb (token node) (token self)
  && Bool.eqb (invert node) (invert self).

End SearchLogic.

(** ** [Label] *)

Module LabelName.

(** A Python [str] is a sequence of code points, and the name of a
    label is text the user types: it is modelled as the list of its
    code points, not as a string of bytes. *)
Definition codepoint : Type := N.

Definition text : Type := list codepoint.

Definition space : codepoint := 32%N.

(** [name.split(" ")]: the fields between the spaces, empty ones
    included. *)
Fixpoint split (sep : codepoint) (s : text) : list text :=
  match s with
  | [] => [[]]
  | x :: r =>
      if N.eqb x sep then [] :: split sep r
      else
        match split sep r with
        | w :: ws => (x :: w) :: ws
        | [] => [[x]]
        end
  end.

(** [word[:1]]. *)
Definition first_char (word : text) : text := firstn 1 word.

(** The property [short_name] of a label called [name]. *)
Definition short_name (name : text) : text :=
  List.concat (map first_char (split space name)).

(** The code points of a text of ASCII characters. *)
Fixpoint of_ascii (s : string) : text :=
  match s with
  | EmptyString => []
  | String c r => N_of_ascii c :: of_ascii r
  end.

End LabelName.

(** ** [Label]: the registry of a class *)

Module Label.

Section WithColor.

(** A colour, a tuple of floats in the source, with the test [==] on
    it. *)
Variable color : Type.
Variable color_eqb : color -> color -> bool.

Record t : Type := mk { id : Z; name : string; color_of : color }.

(** The [__eq__] the dataclass generates: field by field. *)
Definition eqb (a b : t) : bool :=
  (id a =? id b) && String.eqb (name a) (name b)
  && color_eqb (color_of a) (color_of b).

(** [self in instances]. *)
Definition mem (self : t) (instances : list t) : bool :=
  existsb (fun x => eqb x self) instances.

(** [add], once the label is there (passed in, or built from the
    arguments). *)
Definition add (instances : list t) (self : t) : list t :=
  if mem self instances then instances else instances ++ [self].

(** [get]: the first label with this id, [None] when the loop ends. *)
Definition get (instances : list t) (id' : Z) : option t :=
  find (fun x => id x =? id') instances.

(** [list.remove(x)]: without the first element equal to [x]. *)
Fixpoint list_remove (self : t) (l : list t) : list t :=
  match l with
  | [] => []
  | x :: r => if eqb x self then r else x :: list_remove self r
  end.

(** The loop of [remove], at most [fuel] rounds of it. *)
Fixpoint remove_loop (fuel : nat) (instances : list t) (self : t) : option (list t) :=
  if mem self instances then
    match fuel with
    | O => None
    | S fuel' => remove_loop fuel' (list_remove self instances) self
    end
  else Some instances.

End WithColor.

Arguments mk {color} id name color_of.
Arguments id {color} t.
Arguments name {color} t.
Arguments color_of {color} t.
Arguments eqb {color} color_eqb a b.
Arguments mem {color} color_eqb self instances.
Arguments add {color} color_eqb instances self.
Arguments get {color} instances id'.
Arguments list_remove {color} color_eqb self l.
Arguments remove_loop {color} color_eqb fuel instances self.

(** Colours as hexadecimal texts, for the examples. *)
Definition hex_eqb : string -> string -> bool := String.eqb.

End Label.

(** ** [Tab]: positions *)

Module Tab.

Section WithColor.
Variable color : Type.

Record t : Type := mk {
  id : Z;
  name : string;
  icon : string;
  color_of : option color;
  position : Z
}.

Definition set_position (self : t) (p : Z) : t :=
  {| id := id self; name := name self; icon := icon self;
     color_of := color_of self; position := p |}.

(** [update_positions]: every tab gets its index in the list. *)
Fixpoint update_positions_from (i : Z) (instances : list t) : list t :=
  match instances with
  | [] => []
  | self :: rest => set_position self i :: update_positions_from (i + 1) rest
  end.

Definition update_positions (instances : list t) : list t :=
  update_positions_from 0 instances.

(** [instances.sort(key=position)]: the sort of Python lists is stable,
    and there is one stable way to sort a list: the tabs by position,
    those of one position in the order they were in. *)
Fixpoint insert_by_position (self : t) (sorted : list t) : list t :=
  match sorted with
  | [] => [self]
  | x :: rest =>
      if position self <=? position x then self :: x :: rest
      else x :: insert_by_position self rest
  end.

Definition sort_by_position (instances : list t) : list t :=
  fold_right insert_by_position [] instances.

Definition sort_instances (instances : list t) : list t :=
  update_positions (sort_by_position instances).

(** A tab without its position. *)
Definition unplaced (self : t) : t := set_position self 0.

(** Positions that do not decrease along the list. *)
Fixpoint ascending (ps : list Z) : Prop :=
  match ps with
  | [] => True
  | p :: rest =>
      match rest with
      | [] => True
      | q :: _ => p <= q /\ ascending rest
      end
  end.

End WithColor.

(** The positions [i], [i + 1], ... of [n] tabs. *)
Definition indices (i : Z) (n : nat) : list Z :=
  map (fun k => i + Z.of_nat k) (seq 0 n).

Arguments mk {color} id name icon color_of position.
Arguments id {color} t.
Arguments name {color} t.
Arguments icon {color} t.
Arguments color_of {color} t.
Arguments position {color} t.
Arguments set_position {color} self p.
Arguments update_positions_from {color} i instances.
Arguments update_positions {color} instances.
Arguments insert_by_position {color} self sorted.
Arguments sort_by_position {color} instances.
Arguments sort_instances {color} instances.
Arguments unplaced {color} self.

End Tab.

(** ** Operating systems *)

Inductive Os : Type := Windows | Linux | MacOS.

Definition Os_eqb (a b : Os) : bool :=
  match a, b with
  | Windows, Windows | Linux, Linux | MacOS, MacOS => true
  | _, _ => false
  end.

(** ** [Browser] *)

(** How often the character [c] occurs in [s]. *)
Fixpoint count_char (c : ascii) (s : string) : nat :=
  match s with
  | EmptyString => 0%nat
  | String x r => ((if Ascii.eqb x c then 1 else 0) + count_char c r)%nat
  end.

(** [pat in s]. *)
Fixpoint contains (pat s : string) : bool :=
  if String.prefix pat s then true
  else
    match s with
    | EmptyString => false
    | String _ r => contains pat r
    end.

Module Browser.

Record t : Type := mk {
  name : string;
  hash : Z;
  args : option (list string);
  hashed_name : string;
  integrated : bool;
  custom : bool;
  private_arg : list string;
  index : option Z
}.

(** The table of [__post_init__], in the order it is written. *)
Definition private_args : list (string * string) :=
  [("Opera", "-private"); ("Chrom", "-incognito"); ("Brave", "-incognito");
   ("Edge", "-inprivate"); ("fox", "-private-window")].

(** The loop over the table: the argument of the first entry found in
    the name, and then [break]. *)
Fixpoint first_private_arg (table : list (string * string)) (name : string)
  : list string :=
  match table with
  | [] => []
  | (search, arg) :: rest =>
      if contains search name then [arg] else first_private_arg rest name
  end.

Definition make_hashed_name (name : string) (hash : Z) : string :=
  (name ++ "###" ++ str_int hash)%string.

Section WithHash.

(** [make_hash]: the last twelve hexadecimal digits of the MD5 of the
    name, as a number. *)
Variable make_hash : string -> Z.

(** The constructor with [__post_init__]. *)
Definition new (name : string) (hash : option Z) (args : option (list string)) : t :=
  let hash := match hash with Some h => h | None => make_hash name end in
  {| name := name;
     hash := hash;
     args := args;
     hashed_name := make_hashed_name name hash;
     integrated := hash =? 0;
     custom := hash =? -1;
     private_arg := first_private_arg private_args name;
     index := None |}.

End WithHash.

(** The class attributes: the dict [instances], in the order of
    insertion, and [avail_list]. *)
Record registry : Type := mkreg {
  instances : list (string * t);
  avail_list : list string
}.

Definition empty : registry := {| instances := []; avail_list := [] |}.

(** [avail_list.index(x)]; [None] where it raises [ValueError]. *)
Fixpoint list_index (x : string) (l : list string) : option Z :=
  match l with
  | [] => None
  | y :: r =>
      if String.eqb y x then Some 0
      else match list_index x r with
           | Some i => Some (i + 1)
           | None => None
           end
  end.

Definition set_index (b : t) (i : Z) : t :=
  {| name := name b; hash := hash b; args := args b;
     hashed_name := hashed_name b; integrated := integrated b;
     custom := custom b; private_arg := private_arg b; index := Some i |}.

(** The loop at the end of [add]. *)
Fixpoint reindex (avail : list string) (l : list (string * t))
  : result (list (string * t)) :=
  match l with
  | [] => Ok []
  | (k, b) :: rest =>
      match list_index (hashed_name b) avail with
      | None => Raise ValueError
      | Some i =>
          rest' <- reindex avail rest ;;
          Ok ((k, set_index b i) :: rest')
      end
  end.

(** [hashed_name in instances]. *)
Definition has_key (k : string) (l : list (string * t)) : bool :=
  existsb (fun kv => String.eqb (fst kv) k) l.

(** [add], once the browser is there (passed in, or built from the
    arguments). *)
Definition add (R : registry) (self : t) : result registry :=
  if has_key (hashed_name self) (instances R) then Ok R
  else
    let instances' := instances R ++ [(hashed_name self, self)] in
    let avail' := avail_list R ++ [hashed_name self] in
    instances'' <- reindex avail' instances' ;;
    Ok {| instances := instances''; avail_list := avail' |}.

Fixpoint add_all (R : registry) (bs : list t) : result registry :=
  match bs with
  | [] => Ok R
  | b :: rest => R' <- add R b ;; add_all R' rest
  end.

(** What [get] is asked for: a hash or a hashed name. *)
Inductive key : Type :=
| ByHash (h : Z)
| ByName (hashed : string).

Definition matches (k : key) (b : t) : bool :=
  match k with
  | ByHash h => hash b =? h
  | ByName s => String.eqb (hashed_name b) s
  end.

(** [get]: it calls itself with the hash 0 when the loop finds
    nothing.  [frames] is how many calls deeper the interpreter lets
    the stack grow: the call that would go beyond raises
    [RecursionError], and every call above it, having no handler, lets
    it through to the caller. *)
Fixpoint get (frames : nat) (R : registry) (k : key) : result t :=
  match find (matches k) (map snd (instances R)) with
  | Some b => Ok b
  | None =>
      match frames with
      | O => Raise RecursionError
      | S frames' => get frames' R (ByHash 0)
      end
  end.

(** A registry as [add] keeps it: the keys are the hashed names, none
    twice, [avail_list] lists them in order, and the index of every
    browser is its place in that list. *)
Definition well_indexed (R : registry) : Prop :=
  map fst (instances R) = avail_list R /\
  NoDup (avail_list R) /\
  Forall (fun kv => hashed_name (snd kv) = fst kv) (instances R) /\
  map (fun kv => index (snd kv)) (instances R)
  = map (fun i => Some (Z.of_nat i)) (seq 0 (List.length (instances R))).

End Browser.

(** ** [Settings] *)

Module Settings.

(** A key of [default_exe_dir]: an operating system, or the empty
    string of old settings ([None]). *)
Definition exe_dir_key : Type := option Os.

Definition key_eqb (a b : exe_dir_key) : bool :=
  match a, b with
  | Some x, Some y => Os_eqb x y
  | None, None => true
  | _, _ => false
  end.

(** A dict as the list of its items, in the order of insertion. *)
Definition dict : Type := list (exe_dir_key * string).

Fixpoint lookup (k : exe_dir_key) (d : dict) : option string :=
  match d with
  | [] => None
  | (k', v) :: r => if key_eqb k' k then Some v else lookup k r
  end.

(** [d[k] = v]. *)
Fixpoint store (k : exe_dir_key) (v : string) (d : dict) : dict :=
  match d with
  | [] => [(k, v)]
  | (k', v') :: r =>
      if key_eqb k' k then (k', v) :: r else (k', v') :: store k v r
  end.

(** [del d[k]] for a key that is there. *)
Fixpoint delete (k : exe_dir_key) (d : dict) : dict :=
  match d with
  | [] => []
  | (k', v') :: r => if key_eqb k' k then r else (k', v') :: delete k r
  end.

(** [__post_init__] on the field [default_exe_dir]; [os] is
    [globals.os]. *)
Definition __post_init__ (os : Os) (default_exe_dir : dict) : dict :=
  match lookup None default_exe_dir with
  | Some v => delete None (store (Some os) v default_exe_dir)
  | None => default_exe_dir
  end.

(** A dict has every key once. *)
Definition proper (d : dict) : Prop := NoDup (map fst d).

End Settings.

(** ** [Game] *)

Module Game.

Inductive Status : Type :=
| Normal | Completed | OnHold | Abandoned | Unchecked | Custom.

Definition is_Custom (s : Status) : bool :=
  match s with Custom => true | _ => false end.

(** The fields the first part of [__post_init__] reads and writes. *)
Record t : Type := mk {
  id : Z;
  custom : option bool;
  version : string;
  status : Status;
  finished : string;
  installed : string;
  updated : option bool;
  image_url : string
}.

(** [bool(s)] for a string. *)
Definition nonempty (s : string) : bool := negb (String.eqb s "").

(** The assignments of [__post_init__] down to [finished], in their
    order. *)
Definition __post_init__ (self : t) : t :=
  let custom1 :=
    match custom self with
    | None => Some (is_Custom (status self))
    | c => c
    end in
  let custom2 := if id self <? 0 then Some true else custom1 in
  let updated1 :=
    match updated self with
    | None =>
        Some (nonempty (installed self)
              && negb (String.eqb (installed self) (version self)))
    | u => u
    end in
  let image_url1 :=
    if String.eqb (image_url self) "-" then "missing" else image_url self in
  let finished1 :=
    if String.eqb (finished self) "True"
       && negb (String.eqb (installed self) "True")
       && negb (String.eqb (version self) "True")
    then (if nonempty (installed self) then installed self else version self)
    else if String.eqb (finished self) "False"
            && negb (String.eqb (installed self) "False")
            && negb (String.eqb (version self) "False")
    then EmptyString
    else finished self in
  {| id := id self; custom := custom2; version := version self;
     status := status self; finished := finished1;
     installed := installed self; updated := updated1;
     image_url := image_url1 |}.

End Game.

(** ** [callbacks._launch] *)

Module Launch.

(** [stat.S_IEXEC], the bit that lets the owner run the file. *)
Definition S_IEXEC : Z := 64.

(** What [_launch] finds at the path: the mode of the file and what
    reading its first two characters as text gives. *)
Record file_stat : Type := mkstat { mode : Z; head : result string }.

(** A path under [lib]. *)
Record lib_entry : Type := mklib {
  lib_path : string;
  lib_is_file : bool;
  lib_suffix : string;
  lib_mode : Z
}.

(** What [_launch] finds around it: [exe] is the absolute path,
    [parent] its directory, [exe_stat] is [None] when the path is no
    file, [renpy] tells whether the directory [renpy] is beside the
    file, [lib] lists what the glob under [lib] yields. *)
Record env : Type := mkenv {
  os : Os;
  exe : string;
  parent : string;
  exe_stat : option file_stat;
  renpy : bool;
  lib : list lib_entry
}.

(** What [_launch] does to the system. *)
Inductive action : Type :=
| Startfile (path : string)
| Chmod (path : string) (mode : Z)
| Popen (argv : list string) (cwd : string).

Inductive raised : Type :=
| FileNotFoundError
| UnboundLocalError
| Propagated (e : exn).

Inductive ending : Type :=
| Done
| Failed (why : raised).

(** [mode & stat.S_IEXEC < stat.S_IEXEC]. *)
Definition lacks_exec (mode : Z) : bool := Z.land mode S_IEXEC <? S_IEXEC.

(** The loop over the files under [lib]. *)
Fixpoint fix_libs (entries : list lib_entry) : list action :=
  match entries with
  | [] => []
  | file :: rest =>
      if lib_is_file file && String.eqb (lib_suffix file) "" then
        if lacks_exec (lib_mode file)
        then Chmod (lib_path file) (Z.lor (lib_mode file) S_IEXEC) :: fix_libs rest
        else fix_libs rest
      else fix_libs rest
  end.

(** The program that opens a file with its default application. *)
Definition open_util (o : Os) : option string :=
  match o with
  | Linux => Some "xdg-open"
  | MacOS => Some "open"
  | Windows => None
  end.

(** [_launch path]: how the call ends and what it has done by then.
    The failures followed are the ones the source and its callers
    name: the missing file, and an error while reading the first two
    characters, which the caller reports as "something went wrong".
    [stat], [chmod], the glob and [Popen] are taken to succeed. *)
Definition _launch (E : env) : ending * list action :=
  match exe_stat E with
  | None => (Failed FileNotFoundError, [])
  | Some st =>
      if Os_eqb (os E) Windows then (Done, [Startfile (exe E)])
      else
        let executable := negb (lacks_exec (mode st)) in
        let shebang :=
          if executable then Ok (true, [])
          else
            match head st with
            | Raise e => Raise e
            | Ok text =>
                if String.eqb text "#!"
                then Ok (true, [Chmod (exe E) (Z.lor (mode st) S_IEXEC)])
                else Ok (false, [])
            end in
        match shebang with
        | Raise e => (Failed (Propagated e), [])
        | Ok (executable, made) =>
            let libs := if renpy E then fix_libs (lib E) else [] in
            if executable
            then (Done, made ++ libs ++ [Popen [exe E] (parent E)])
            else
              match open_util (os E) with
              | Some util =>
                  (Done, made ++ libs ++ [Popen [util; exe E] (parent E)])
              | None => (Failed UnboundLocalError, made ++ libs)
              end
        end
  end.

Definition is_chmod (a : action) : bool :=
  match a with Chmod _ _ => true | _ => false end.

(** Where a mode that [_launch] changes comes from. *)
Definition chmod_origin (E : env) (p : string) (m : Z) : Prop :=
  (p = exe E /\ exists st, exe_stat E = Some st /\ mode st = m
                           /\ head st = Ok "#!") \/
  (renpy E = true /\
   exists file, In file (lib E) /\ lib_path file = p /\ lib_mode file = m
                /\ lib_is_file file = true /\ lib_suffix file = EmptyString).

(** A Ren'Py game on Linux whose launcher script is not executable
    yet. *)
Definition renpy_game : env :=
  {| os := Linux; exe := "/games/demo/demo.sh"; parent := "/games/demo";
     exe_stat := Some {| mode := 33188; head := Ok "#!" |};
     renpy := true;
     lib := [ {| lib_path := "/games/demo/lib/linux/python";
                 lib_is_file := true; lib_suffix := ""; lib_mode := 33188 |};
              {| lib_path := "/games/demo/lib/linux/zlib.so";
                 lib_is_file := true; lib_suffix := ".so"; lib_mode := 33188 |};
              {| lib_path := "/games/demo/lib/linux/demo";
                 lib_is_file := true; lib_suffix := ""; lib_mode := 33261 |} ] |}.

End Launch.

(** ** The callbacks of the interface *)

Module Callbacks.

Inductive MsgBox : Type := info | warn | error.

(** What a callback does that outlasts it: what it asks of the
    system, the popups it pushes and the writes it hands to the
    database. *)
Inductive effect : Type :=
| System (a : Launch.action)
| Startfile (path : string)
| Spawn (argv : list string)
| FilePicker (title : string)
| Msgbox (title : string) (kind : MsgBox) (buttons : bool)
| DbUpdate (field : string)
| DbRemove (id : Z).

Definition is_start (e : effect) : bool :=
  match e with
  | System a => negb (Launch.is_chmod a)
  | Startfile _ | Spawn _ => true
  | _ => false
  end.

Definition is_popup (e : effect) : bool :=
  match e with
  | FilePicker _ | Msgbox _ _ _ => true
  | _ => false
  end.

(** The fields of a game that the callbacks read and write. *)
Record game : Type := mkgame {
  id : Z;
  name : string;
  executable : string;
  last_played : Timestamp.t
}.

Definition set_executable (g : game) (path : string) : game :=
  {| id := id g; name := name g; executable := path;
     last_played := last_played g |}.

Definition set_last_played (g : game) (ts : Timestamp.t) : game :=
  {| id := id g; name := name g; executable := executable g;
     last_played := ts |}.

Section LaunchGame.

(** What [_launch] finds at a path, and what [time.time()] returns. *)
Variable look : string -> Launch.env.
Variable now : Timestamp.number.

(** The inner function [_launch_game] of [launch_game_exe]. *)
Definition _launch_game (g : game) : game * list effect :=
  if String.eqb (executable g) "" then (g, [])
  else
    let (ending, actions) := Launch._launch (look (executable g)) in
    match ending with
    | Launch.Done =>
        match Timestamp.update (last_played g) (Some now) with
        | Ok ts =>
            (set_last_played g ts,
             map System actions ++ [DbUpdate "last_played"])
        | Raise _ => (g, map System actions ++ [Msgbox "Oops!" error false])
        end
    | Launch.Failed Launch.FileNotFoundError =>
        (g, map System actions ++ [Msgbox "File not found!" warn true])
    | Launch.Failed _ =>
        (g, map System actions ++ [Msgbox "Oops!" error false])
    end.

(** The button "Yes" of the two warnings. *)
Definition reset_callback (g : game) : game * list effect :=
  (set_executable g "", [DbUpdate "executable"]).

(** What the file picker calls with the selection. *)
Definition select_callback (g : game) (selected : option string)
  : game * list effect :=
  match selected with
  | Some path =>
      if String.eqb path "" then (g, [])
      else
        let (g', effects) := _launch_game (set_executable g path) in
        (g', DbUpdate "executable" :: effects)
  | None => (g, [])
  end.

Definition launch_game_exe (g : game) : game * list effect :=
  if String.eqb (executable g) ""
  then (g, [FilePicker ("Select executable for " ++ name g)%string])
  else _launch_game g.

End LaunchGame.

(** [open_game_folder]: [dir] is the parent of the executable's
    absolute path, [is_dir] tells whether it is a directory. *)
Definition open_game_folder (os : Os) (dir : string) (is_dir : bool)
  : Launch.ending * list effect :=
  let warned :=
    if is_dir then [] else [Msgbox "No such folder!" warn true] in
  if Os_eqb os Windows then (Launch.Done, warned ++ [Startfile dir])
  else
    match Launch.open_util os with
    | Some open_util => (Launch.Done, warned ++ [Spawn [open_util; dir]])
    | None => (Launch.Failed Launch.UnboundLocalError, warned)
    end.

(** The browser of the settings, as [open_webpage] reads it. *)
Record browser : Type := mkbrowser {
  is_None : bool;
  is_Custom : bool;
  browser_name : string;
  path : string;
  private : string
}.

Record settings : Type := mksettings {
  browser_of : browser;
  browser_private : bool;
  browser_custom_executable : string;
  browser_custom_arguments : string;
  confirm_on_remove : bool
}.

Section OpenWebpage.

(** [shlex.split], which raises [ValueError] on a text it cannot
    split, and [subprocess.Popen], which raises when the program
    cannot be started. *)
Variable shlex_split : string -> result (list string).
Variable popen : list string -> result unit.

(** The command line [open_webpage] builds before the [try]. *)
Definition command_line (set : settings) (url : string)
  : result (list string) :=
  if is_Custom (browser_of set) then
    args <- shlex_split (browser_custom_arguments set) ;;
    Ok (browser_custom_executable set :: args ++ [url])
  else
    let args :=
      if browser_private set then [private (browser_of set)] else [] in
    Ok (path (browser_of set) :: args ++ [url]).

Definition open_webpage (set : settings) (url : string)
  : result (list effect) :=
  if is_None (browser_of set) then Ok [Msgbox "Browser" warn false]
  else
    argv <- command_line set url ;;
    match popen argv with
    | Ok _ => Ok [Spawn argv]
    | Raise _ => Ok [Msgbox "Oops!" error false]
    end.

End OpenWebpage.

(** [s.startswith(p)]. *)
Fixpoint starts_with (p s : string) : bool :=
  match p, s with
  | EmptyString, _ => true
  | String a p', String b s' => Ascii.eqb a b && starts_with p' s'
  | String _ _, EmptyString => false
  end.

(** The names in the images directory that the pattern [f"{id}.*"]
    matches. *)
Definition glob_images (id : Z) (images : list string) : list string :=
  filter (starts_with (str_int id ++ ".")%string) images.

Section Images.

(** Whether [unlink] of a name raises. *)
Variable unlink_raises : string -> bool.

(** The loop [for img in ...: try: img.unlink() except Exception: pass]
    over the names that match: the names it called [unlink] on, and the
    directory afterwards. *)
Fixpoint unlink_each (matched : list string) (images : list string)
  : list string * list string :=
  match matched with
  | [] => ([], images)
  | img :: rest =>
      let images' :=
        if unlink_raises img then images
        else filter (fun f => negb (String.eqb f img)) images in
      let (tried, left) := unlink_each rest images' in
      (img :: tried, left)
  end.

(** [Game.delete_images]. *)
Definition delete_images (id : Z) (images : list string)
  : list string * list string :=
  unlink_each (glob_images id images) images.

(** The state [remove_game] works on: the games by id, the flag of the
    interface, the images directory. *)
Record state : Type := mkstate {
  games : list (Z * game);
  require_sort : bool;
  images : list string
}.

(** [del games[id]]: [KeyError] when the id is not there. *)
Fixpoint del (id : Z) (games : list (Z * game)) : option (list (Z * game)) :=
  match games with
  | [] => None
  | (k, g) :: rest =>
      if k =? id then Some rest
      else match del id rest with
           | Some rest' => Some ((k, g) :: rest')
           | None => None
           end
  end.

Inductive raised : Type := KeyError.

Definition remove_callback (g : game) (s : state)
  : (state * list effect) + raised :=
  match del (id g) (games s) with
  | None => inr KeyError
  | Some games' =>
      let (_, images') := unlink_each (glob_images (id g) (images s)) (images s) in
      inl ({| games := games'; require_sort := true; images := images' |},
           [DbRemove (id g)])
  end.

Definition remove_game (set : settings) (g : game) (s : state)
  : (state * list effect) + raised :=
  if confirm_on_remove set
  then inl (s, [Msgbox "Remove game" warn true])
  else remove_callback g s.

End Images.

(** Sample data. *)
Definition demo_game : game :=
  {| id := 12; name := "Demo"; executable := "/games/demo/demo.sh";
     last_played := {| Timestamp.value := 0; Timestamp._display := Some "" |} |}.

Definition firefox_private : settings :=
  {| browser_of := {| is_None := false; is_Custom := false;
                      browser_name := "Firefox"; path := "/usr/bin/firefox";
                      private := "-private-window" |};
     browser_private := true;
     browser_custom_executable := ""; browser_custom_arguments := "";
     confirm_on_remove := true |}.

Definition shelf : state :=
  {| games := [(12, demo_game); (7, set_executable demo_game "")];
     require_sort := false;
     images := ["12.png"; "7.jpg"; "120.png"] |}.

End Callbacks.
(** ** The labels of a game *)

Module GameLabels.

Section WithColor.
Variable color : Type.
Variable color_eqb : color -> color -> bool.

(** [Label.instances.index(label)]: where the first label equal to it
    stands; [ValueError] when there is none. *)
Fixpoint index (instances : list (Label.t color)) (label : Label.t color)
  : result nat :=
  match instances with
  | [] => Raise ValueError
  | x :: rest =>
      if Label.eqb color_eqb x label then Ok O
      else n <- index rest label ;; Ok (S n)
  end.

(** The keys of [labels.sort(key=...)], which are computed for every
    label before any is moved. *)
Fixpoint keyed (instances labels : list (Label.t color))
  : result (list (nat * Label.t color)) :=
  match labels with
  | [] => Ok []
  | x :: rest =>
      k <- index instances x ;;
      ks <- keyed instances rest ;;
      Ok ((k, x) :: ks)
  end.

(** The stable sort by key. *)
Fixpoint insert_by_key (kx : nat * Label.t color)
  (sorted : list (nat * Label.t color)) : list (nat * Label.t color) :=
  match sorted with
  | [] => [kx]
  | ky :: rest =>
      if (fst kx <=? fst ky)%nat then kx :: ky :: rest
      else ky :: insert_by_key kx rest
  end.

Definition sort_by_key (ks : list (nat * Label.t color))
  : list (nat * Label.t color) :=
  fold_right insert_by_key [] ks.

(** [add_label]: the labels of the game afterwards, and the field
    handed to the database, or the exception of the sort, which leaves
    the list as it was before the sort. *)
Definition add_label (instances labels : list (Label.t color))
  (label : Label.t color) : list (Label.t color) * result string :=
  let labels1 :=
    if Label.mem color_eqb label labels then labels else labels ++ [label] in
  match keyed instances labels1 with
  | Ok ks => (map snd (sort_by_key ks), Ok "labels")
  | Raise e => (labels1, Raise e)
  end.

(** [remove_label], with at most [fuel] rounds of its loop. *)
Definition remove_label (fuel : nat) (labels : list (Label.t color))
  (label : Label.t color) : option (list (Label.t color) * string) :=
  match Label.remove_loop color_eqb fuel labels label with
  | Some labels' => Some (labels', "labels")
  | None => None
  end.

(** The place of a label in the registry, for a label that is
    there. *)
Definition place (instances : list (Label.t color)) (label : Label.t color)
  : nat :=
  match index instances label with
  | Ok n => n
  | Raise _ => O
  end.

(** A list of labels with their places. *)
Definition paired (instances : list (Label.t color))
  (ks : list (nat * Label.t color)) : Prop :=
  forall p, In p ks -> index instances (snd p) = Ok (fst p).

(** The orders of the sort. *)
Definition by_key (a b : nat * Label.t color) : Prop := (fst a <= fst b)%nat.

Definition by_place (instances : list (Label.t color))
  (a b : Label.t color) : Prop :=
  (place instances a <= place instances b)%nat.

End WithColor.

Arguments index {color} color_eqb instances label.
Arguments keyed {color} color_eqb instances labels.
Arguments insert_by_key {color} kx sorted.
Arguments sort_by_key {color} ks.
Arguments add_label {color} color_eqb instances labels label.
Arguments remove_label {color} color_eqb fuel labels label.
Arguments place {color} color_eqb instances label.
Arguments paired {color} color_eqb instances ks.
Arguments by_key {color} a b.
Arguments by_place {color} color_eqb instances a b.

(** Sample labels. *)
Definition must_play : Label.t string := Label.mk 1 "Must play" "#d4202e".
Definition later : Label.t string := Label.mk 2 "Later" "#808080".
Definition dropped : Label.t string := Label.mk 3 "Dropped" "#101010".

End GameLabels.

(** ** [Tab]: the registry *)

Module TabRegistry.

Section WithColor.
Variable color : Type.
Variable color_eqb : color -> color -> bool.

Definition color_opt_eqb (a b : option color) : bool :=
  match a, b with
  | Some x, Some y => color_eqb x y
  | None, None => true
  | _, _ => false
  end.

(** The [__eq__] the dataclass generates: field by field, the position
    among them. *)
Definition eqb (a b : Tab.t color) : bool :=
  (Tab.id a =? Tab.id b) && String.eqb (Tab.name a) (Tab.name b)
  && String.eqb (Tab.icon a) (Tab.icon b)
  && color_opt_eqb (Tab.color_of a) (Tab.color_of b)
  && (Tab.position a =? Tab.position b).

Definition mem (self : Tab.t color) (instances : list (Tab.t color)) : bool :=
  existsb (fun x => eqb x self) instances.

Definition add (instances : list (Tab.t color)) (self : Tab.t color)
  : list (Tab.t color) :=
  if mem self instances then instances else instances ++ [self].

Definition get (instances : list (Tab.t color)) (id' : Z)
  : option (Tab.t color) :=
  find (fun x => Tab.id x =? id') instances.

Fixpoint list_remove (self : Tab.t color) (l : list (Tab.t color))
  : list (Tab.t color) :=
  match l with
  | [] => []
  | x :: r => if eqb x self then r else x :: list_remove self r
  end.

(** The loop of [remove], at most [fuel] rounds of it. *)
Fixpoint remove_loop (fuel : nat) (instances : list (Tab.t color))
  (self : Tab.t color) : option (list (Tab.t color)) :=
  if mem self instances then
    match fuel with
    | O => None
    | S fuel' => remove_loop fuel' (list_remove self instances) self
    end
  else Some instances.

(** [remove]: the loop, then [sort_instances]. *)
Definition remove (fuel : nat) (instances : list (Tab.t color))
  (self : Tab.t color) : option (list (Tab.t color)) :=
  match remove_loop fuel instances self with
  | Some rest => Some (Tab.sort_instances rest)
  | None => None
  end.

End WithColor.

Arguments color_opt_eqb {color} color_eqb a b.
Arguments eqb {color} color_eqb a b.
Arguments mem {color} color_eqb self instances.
Arguments add {color} color_eqb instances self.
Arguments get {color} instances id'.
Arguments list_remove {color} color_eqb self l.
Arguments remove_loop {color} color_eqb fuel instances self.
Arguments remove {color} color_eqb fuel instances self.

End TabRegistry.
(** * Properties *)

(** ** Properties of [CounterContext] *)

Module CounterContextFacts.
Import CounterContext.

Lemma exec_balanced (s : scoped) :
  forall c, count (after (exec s c)) = count c.
Proof.
  induction s as [ | e | s1 IH1 s2 IH2 | b IHb h IHh | b IHb | b IHb ];
    intro c; cbn [exec].
  - reflexivity.
  - reflexivity.
  - destruct (outcome (exec s1 c)) eqn:E; cbn [after].
    + rewrite IH2. apply IH1.
    + apply IH1.
  - destruct (outcome (exec b c)) eqn:E; cbn [after].
    + apply IHb.
    + rewrite IHh. apply IHb.
  - cbn [after __exit__ count]. rewrite IHb. cbn. lia.
  - cbn [after __aexit__ __exit__ count]. rewrite IHb. cbn. lia.
Qed.

Lemma exec_floor (s : scoped) :
  forall c, Forall (fun k => count c <= k) (seen (exec s c)).
Proof.
  induction s as [ | e | s1 IH1 s2 IH2 | b IHb h IHh | b IHb | b IHb ];
    intro c; cbn [exec].
  - constructor.
  - constructor.
  - destruct (outcome (exec s1 c)) eqn:E; cbn [seen].
    + apply Forall_app. split; [apply IH1|].
      specialize (IH2 (after (exec s1 c))).
      rewrite exec_balanced in IH2. exact IH2.
    + apply IH1.
  - destruct (outcome (exec b c)) eqn:E; cbn [seen].
    + apply IHb.
    + apply Forall_app. split; [apply IHb|].
      specialize (IHh (after (exec b c))).
      rewrite exec_balanced in IHh. exact IHh.
  - cbn [seen]. constructor; [cbn; lia|].
    apply Forall_app. split.
    + eapply Forall_impl; [|apply IHb]. cbn. intros; lia.
    + constructor; [|constructor].
      cbn [__exit__ count]. rewrite exec_balanced. cbn. lia.
  - cbn [seen]. constructor; [cbn; lia|].
    apply Forall_app. split.
    + eapply Forall_impl; [|apply IHb]. cbn. intros; lia.
    + constructor; [|constructor].
      cbn [__aexit__ __exit__ count]. rewrite exec_balanced. cbn. lia.
Qed.

Example nested_failure :
  exec (With (Seq (AsyncWith (Throw ValueError)) Pass)) __init__
  = mkrun (Raise ValueError) {| count := 0 |} [1; 2; 1; 0].
Proof. reflexivity. Qed.

(** C9.  For every nesting of scopes entered through the context-manager
    interface, synchronous or asynchronous, the count after a scope exits
    equals the count before it was entered, whether its body returned or
    raised; and a counter that starts at zero (as [__init__] leaves it)
    never shows a negative count while such code runs. *)
Theorem C9_scope_restores_count :
  (forall body c,
      count (after (exec (With body) c)) = count c /\
      count (after (exec (AsyncWith body) c)) = count c /\
      outcome (exec (With body) c) = outcome (exec body (__enter__ c)) /\
      outcome (exec (AsyncWith body) c) = outcome (exec body (__aenter__ c)) /\
      Forall (fun k => count c <= k) (seen (exec (With body) c)) /\
      Forall (fun k => count c <= k) (seen (exec (AsyncWith body) c)))
  /\ (forall s, count (after (exec s __init__)) = 0 /\
                Forall (fun k => 0 <= k) (seen (exec s __init__))).
Proof.
  split.
  - intros body c.
    repeat split; try apply exec_balanced; apply exec_floor.
  - intro s. split.
    + apply (exec_balanced s __init__).
    + apply (exec_floor s __init__).
Qed.

End CounterContextFacts.

(** ** Properties of [Popup] *)

Module PopupFacts.
Import Popup.

Section Calls.
Variables (W Args : Type).
Variable func : Args -> string -> W -> result (value * value) * W.

Lemma call_when_closed (self : t) (args : Args) (u : ui W Args) :
  open self = false -> __call__ func self args u = (closed_answer, self, u).
Proof. intro H. unfold __call__. rewrite H. reflexivity. Qed.

Lemma calls_when_closed (argss : list Args) :
  forall (self : t) (u : ui W Args),
    open self = false ->
    calls func self argss u = (map (fun _ => closed_answer) argss, self, u).
Proof.
  induction argss as [ | args rest IH]; intros self u H; cbn [calls map].
  - reflexivity.
  - rewrite (call_when_closed self args u H), (IH self u H). reflexivity.
Qed.

Lemma call_reports_closed (self self' : t) (args : Args) (u u' : ui W Args)
      (opened closed : value) :
  __call__ func self args u = (Ok (opened, closed), self', u') ->
  truthy closed = true ->
  open self' = false.
Proof.
  unfold __call__. destruct (open self) eqn:Ho; cbn [negb].
  - destruct (super_call func self args u) as [[[o c] | e] u1].
    + intros [= -> -> <- <-] Ht. rewrite Ht. reflexivity.
    + discriminate.
  - intros [= <- <- <- <-] _. exact Ho.
Qed.

(** C4.  Once a call of a popup has reported [closed] true, its [open]
    flag is false, and every later call, whatever its arguments and
    whatever state the interface is in by then, returns [(0, True)] and
    leaves the popup and the interface as they were: the flag stays
    false and the render step is not run again. *)
Theorem C4_closed_popup_never_renders
      (self self' : t) (args : Args) (u u' : ui W Args)
      (opened closed : value) :
  __call__ func self args u = (Ok (opened, closed), self', u') ->
  truthy closed = true ->
  open self' = false /\
  forall (later : list Args) (u'' : ui W Args),
    calls func self' later u''
    = (map (fun _ => Ok (VInt 0, VBool true)) later, self', u'').
Proof.
  intros Hcall Hclosed.
  pose proof (call_reports_closed _ _ _ _ _ _ _ Hcall Hclosed) as Ho.
  split; [exact Ho|].
  intros later u''. apply calls_when_closed. exact Ho.
Qed.

End Calls.

Example popup_dismissed_then_polled :
  calls dismissable {| open := true; uuid := "0_5_7" |} [false; true; false; true]
        (mkui 0%nat [])
  = ([Ok (VBool true, VBool false); Ok (VBool true, VBool true);
      Ok (VInt 0, VBool true); Ok (VInt 0, VBool true)],
     {| open := false; uuid := "0_5_7" |},
     mkui 2%nat [("0_5_7", false); ("0_5_7", true)]).
Proof. reflexivity. Qed.

Lemma C4_witness :
  open {| open := false; uuid := "0_5_7" |} = false /\
  forall (later : list bool) (u'' : ui nat bool),
    calls dismissable {| open := false; uuid := "0_5_7" |} later u''
    = (map (fun _ => Ok (VInt 0, VBool true)) later,
       {| open := false; uuid := "0_5_7" |}, u'').
Proof.
  exact (C4_closed_popup_never_renders nat bool dismissable
           {| open := true; uuid := "0_5_7" |} {| open := false; uuid := "0_5_7" |}
           true (mkui 0%nat []) (mkui 1%nat [("0_5_7", true)])
           (VBool true) (VBool true) eq_refl eq_refl).
Defined.

End PopupFacts.

(** ** Correlation ids *)

Module UuidFacts.
Import Popup.

Lemma uint_digits_only (d : Decimal.uint) :
  has_char "_" (NilEmpty.string_of_uint d) = false.
Proof. induction d; cbn; auto. Qed.

Lemma str_int_digits_only (z : Z) : has_char "_" (str_int z) = false.
Proof.
  unfold str_int.
  destruct (Z.to_int z) as [d | d]; cbn [NilZero.string_of_int];
    destruct d; cbn; auto using uint_digits_only.
Qed.

Lemma to_int_parses (z : Z) :
  NilZero.int_of_string (str_int z) = Some (Z.to_int z).
Proof.
  unfold str_int. apply NilZero.isi.
  - destruct z; cbn; try discriminate.
    intros [= H]. now apply DecimalPos.Unsigned.to_uint_nonnil in H.
  - destruct z; cbn; try discriminate.
    intros [= H]. now apply DecimalPos.Unsigned.to_uint_nonnil in H.
Qed.

Lemma str_int_inj (a b : Z) : str_int a = str_int b -> a = b.
Proof.
  intro H. apply DecimalZ.to_int_inj.
  pose proof (to_int_parses a) as Ha. rewrite H, to_int_parses in Ha.
  congruence.
Qed.

(** Two texts that agree and whose first fields, up to the separator,
    do not contain it, have the same first field. *)
Lemma first_field_unique (c : ascii) (s1 : string) :
  forall (s2 a b : string),
    has_char c s1 = false -> has_char c s2 = false ->
    (s1 ++ String c a)%string = (s2 ++ String c b)%string -> s1 = s2.
Proof.
  induction s1 as [ | x s1 IH]; intros [ | y s2] a b H1 H2 E; cbn in *.
  - reflexivity.
  - injection E as Ey _. subst y. rewrite Ascii.eqb_refl in H2. discriminate.
  - injection E as Ex _. subst x. rewrite Ascii.eqb_refl in H1. discriminate.
  - injection E as Exy E. subst y.
    destruct (Ascii.eqb x c); [discriminate|].
    f_equal. eapply IH; eassumption.
Qed.

Lemma uuid_counter (k1 k2 : Z) (r1 r2 : string) :
  (str_int k1 ++ "_" ++ r1)%string = (str_int k2 ++ "_" ++ r2)%string -> k1 = k2.
Proof.
  intro E. apply str_int_inj.
  apply (first_field_unique "_"%char _ _ r1 r2);
    auto using str_int_digits_only.
Qed.

Lemma construct_counters (inputs : list (string * string)) :
  forall (c : cls) (p : t),
    In p (fst (construct c inputs)) ->
    exists k rest,
      next_uuid c <= k /\ uuid p = (str_int k ++ "_" ++ rest)%string.
Proof.
  induction inputs as [ | [now rnd] rest IH]; intros c p; cbn [construct].
  - intros [].
  - cbn [__init__].
    destruct (construct {| next_uuid := next_uuid c + 1 |} rest)
      as [ps c2] eqn:E.
    cbn [fst In]. intros [<- | Hin].
    + eexists _, _. split; [apply Z.le_refl | reflexivity].
    + specialize (IH {| next_uuid := next_uuid c + 1 |} p).
      rewrite E in IH. destruct (IH Hin) as (k & r & Hk & Hu).
      exists k, r. cbn [next_uuid] in Hk. split; [lia | exact Hu].
Qed.

Example two_in_the_same_instant :
  map uuid (fst (construct cls0 [("1700000000.25", "417"); ("1700000000.25", "417")]))
  = ["0_25_417"; "1_25_417"].
Proof. reflexivity. Qed.

(** C5.  The popups constructed in one run have pairwise distinct
    correlation ids, whatever the clock and the random digits give: in
    particular two constructed one right after the other, even with the
    same clock reading and the same random digits, because the id
    starts with the class counter, which every construction
    increments. *)
Theorem C5_uuids_distinct :
  (forall (c : cls) (inputs : list (string * string)),
      NoDup (map uuid (fst (construct c inputs)))) /\
  (forall (c : cls) (now rnd now' rnd' : string),
      next_uuid (snd (__init__ c now rnd)) = next_uuid c + 1 /\
      uuid (fst (__init__ c now rnd))
      <> uuid (fst (__init__ (snd (__init__ c now rnd)) now' rnd'))).
Proof.
  split.
  - intros c inputs. revert c.
    induction inputs as [ | [now rnd] rest IH]; intro c; cbn [construct].
    + constructor.
    + cbn [__init__].
      pose proof (construct_counters rest {| next_uuid := next_uuid c + 1 |})
        as Hc.
      specialize (IH {| next_uuid := next_uuid c + 1 |}).
      destruct (construct {| next_uuid := next_uuid c + 1 |} rest)
        as [ps c2].
      cbn [fst map uuid] in *. constructor; [|exact IH].
      intro Hin. apply in_map_iff in Hin. destruct Hin as (p & Hu & Hp).
      destruct (Hc p Hp) as (k & r & Hk & Hk').
      rewrite Hk' in Hu. apply uuid_counter in Hu.
      cbn [next_uuid] in Hk. lia.
  - intros c now rnd now' rnd'. cbn [__init__ fst snd next_uuid uuid].
    split; [reflexivity|].
    intro E. apply uuid_counter in E. lia.
Qed.

End UuidFacts.

(** ** Properties of [DaemonProcess] *)

Module DaemonProcessFacts.
Import DaemonProcess.

Lemma kill_never_raises (p : proc) : fst (kill p) = Ok tt.
Proof. unfold kill. destruct (kill_body p) as [[[] | e] p']; reflexivity. Qed.

Lemma proc_kill_effect (p : proc) :
  snd (proc_kill p) = p \/ signals (snd (proc_kill p)) = S (signals p).
Proof. unfold proc_kill. destruct (kill_raises p); cbn; auto. Qed.

Lemma getattr_None (a : attr value) (d : value) (v : value) :
  getattr a d = Ok v -> is_None v = true -> is_None d = false ->
  a = Present VNone.
Proof.
  destruct a as [ | w | e]; cbn.
  - intros [= ->] H1 H2. congruence.
  - intros [= ->] H1 _. destruct v; try discriminate. reflexivity.
  - destruct e; try discriminate. intros [= ->] H1 H2. congruence.
Qed.

Lemma call_poll_None (p : proc) (v : value) :
  call_poll p = Ok v -> is_None v = true -> poll p = Present (Ok VNone).
Proof.
  unfold call_poll. destruct (poll p) as [ | r | e].
  - intros [= <-]. discriminate.
  - intros -> H. destruct v; try discriminate. reflexivity.
  - destruct e; try discriminate. intros [= <-]. discriminate.
Qed.

Lemma kill_body_guarded (p : proc) :
  snd (kill_body p) = p \/
  (says_running p /\ signals (snd (kill_body p)) = S (signals p)).
Proof.
  unfold kill_body, says_running.
  destruct (getattr (exitcode p) (VBool false)) as [v1 | e1] eqn:E1;
    [ | now left].
  destruct (is_None v1) eqn:N1.
  { destruct (proc_kill_effect p) as [H | H]; [now left | right].
    split; [left; eapply getattr_None; eauto | exact H]. }
  destruct (getattr (returncode p) (VBool false)) as [v2 | e2] eqn:E2;
    [ | now left].
  destruct (is_None v2) eqn:N2.
  { destruct (proc_kill_effect p) as [H | H]; [now left | right].
    split; [right; left; eapply getattr_None; eauto | exact H]. }
  destruct (call_poll p) as [v3 | e3] eqn:E3; [ | now left].
  destruct (is_None v3) eqn:N3; [ | now left].
  destruct (proc_kill_effect p) as [H | H]; [now left | right].
  split; [right; right; eapply call_poll_None; eauto | exact H].
Qed.

Lemma kill_state (p : proc) : snd (kill p) = snd (kill_body p).
Proof. unfold kill. destruct (kill_body p) as [[[] | e] p']; reflexivity. Qed.

Lemma call_finalize_dead (self : t) (p : proc) :
  alive (finalize self) = false -> call_finalize self p = (Ok tt, self, p).
Proof. intro H. unfold call_finalize. rewrite H. reflexivity. Qed.

Lemma call_finalize_kills_guard (self : t) (p : proc) :
  alive (finalize (snd (fst (call_finalize self p)))) = false.
Proof.
  unfold call_finalize. destruct (alive (finalize self)) eqn:E.
  - destruct (kill p). reflexivity.
  - exact E.
Qed.

Lemma call_finalize_never_raises (self : t) (p : proc) :
  fst (fst (call_finalize self p)) = Ok tt.
Proof.
  unfold call_finalize. destruct (alive (finalize self)).
  - pose proof (kill_never_raises p) as H. destruct (kill p). exact H.
  - reflexivity.
Qed.

Lemma release_once_is_finalize (how : release) (self : t) (p : proc) :
  release_once how self p = call_finalize self p.
Proof. destruct how; reflexivity. Qed.

Lemma release_all_dead (hows : list release) :
  forall (self : t) (p : proc),
    alive (finalize self) = false ->
    release_all hows self p = (map (fun _ => Ok tt) hows, self, p).
Proof.
  induction hows as [ | how rest IH]; intros self p H; cbn [release_all map].
  - reflexivity.
  - rewrite release_once_is_finalize, (call_finalize_dead self p H).
    rewrite (IH self p H). reflexivity.
Qed.

(** A running asyncio subprocess, released at scope exit and then again
    by the backstop: one signal. *)
Example released_twice :
  let p := {| exitcode := Absent; returncode := Present VNone; poll := Absent;
              kill_raises := None; signals := 0 |} in
  release_all [ScopeExit; Backstop] (__init__ p) p
  = ([Ok tt; Ok tt], {| finalize := {| alive := false |} |},
     {| exitcode := Absent; returncode := Present VNone; poll := Absent;
        kill_raises := None; signals := 1 |}).
Proof. reflexivity. Qed.

(** A handle whose [exitcode] getter raises and whose [kill] would
    raise: nothing gets out of [kill]. *)
Example failures_swallowed :
  let p := {| exitcode := Failing ValueError; returncode := Absent;
              poll := Absent; kill_raises := Some OSError; signals := 0 |} in
  kill p = (Ok tt, p).
Proof. reflexivity. Qed.

(** C3.  [kill] never raises; it sends a kill signal only to a handle
    that says the process is still running (unset [exitcode], unset
    [returncode], or a [poll] returning [None]) and otherwise leaves the
    process as it is; and releasing a guard through scope exit and
    backstop, in any order and any number of times, never raises and
    leaves the process in the state the first release alone leaves it
    in. *)
Theorem C3_kill_swallows_and_is_idempotent :
  (forall p : proc, fst (kill p) = Ok tt) /\
  (forall p : proc,
      snd (kill p) = p \/
      (says_running p /\ signals (snd (kill p)) = S (signals p))) /\
  (forall (first : release) (more : list release) (self : t) (p : proc),
      snd (release_all (first :: more) self p) = snd (release_once first self p)
      /\ fst (fst (release_all (first :: more) self p))
         = map (fun _ => Ok tt) (first :: more)) /\
  (forall (self : t) (p : proc),
      release_once ScopeExit self p = release_once Backstop self p).
Proof.
  split; [exact kill_never_raises|].
  split; [intro p; rewrite kill_state; apply kill_body_guarded|].
  split; [|reflexivity].
  intros first more self p. cbn [release_all].
  rewrite release_once_is_finalize.
  pose proof (call_finalize_kills_guard self p) as Hdead.
  pose proof (call_finalize_never_raises self p) as Hok.
  destruct (call_finalize self p) as [[r self1] p1].
  cbn [fst snd] in *. subst r.
  rewrite (release_all_dead more self1 p1 Hdead). cbn [fst snd map].
  split; reflexivity.
Qed.

End DaemonProcessFacts.

(** ** Properties of [Timestamp] *)

Module TimestampFacts.
Import Timestamp.

Lemma update_some (self : t) (x : number) (v : Z) :
  int x = Ok v -> update self (Some x) = Ok {| value := v; _display := None |}.
Proof. intro H. unfold update. rewrite H. reflexivity. Qed.

Lemma update_none (self : t) :
  update self None = Ok {| value := value self; _display := None |}.
Proof. reflexivity. Qed.

Lemma update_is_init (self : t) (x : number) : update self (Some x) = __init__ x.
Proof.
  reflexivity.
Qed.

Lemma update_clears (self self' : t) (x : option number) :
  update self x = Ok self' -> _display self' = None.
Proof.
  destruct x as [x | ]; cbn.
  - destruct (int x); cbn; [|discriminate].
    intros [= <-]. reflexivity.
  - intros [= <-]. reflexivity.
Qed.

Section Display.
Variable datetime : Type.
Variable fromtimestamp : Z -> result datetime.
Variable strftime : datetime -> string -> result string.

Lemma display_total (self : t) (format : result string) :
  exists s, fst (display datetime fromtimestamp strftime self format) = Ok s.
Proof.
  unfold display. destruct (_display self) as [s | ].
  - now exists s.
  - destruct (value self =? 0).
    + now eexists.
    + destruct (d <- fromtimestamp (value self);; fmt <- format;; strftime d fmt);
        cbn; now eexists.
Qed.

Lemma display_keeps_value (self : t) (format : result string) :
  value (snd (display datetime fromtimestamp strftime self format)) = value self.
Proof.
  unfold display. destruct (_display self); [reflexivity|].
  destruct (value self =? 0); [reflexivity|].
  destruct (d <- fromtimestamp (value self);; fmt <- format;; strftime d fmt);
    reflexivity.
Qed.

Lemma display_uncached_zero (self : t) (format : result string) :
  _display self = None -> value self = 0 ->
  display datetime fromtimestamp strftime self format = (Ok EmptyString, {| value := 0; _display := Some EmptyString |}).
Proof. intros Hc Hv. unfold display. rewrite Hc, Hv. reflexivity. Qed.

Lemma reachable_zero_cache (self : t) : reachable datetime fromtimestamp strftime self -> zero_cache_sound self.
Proof.
  induction 1 as [x self Hi | self x self' _ _ Hu | self format _ IH];
    unfold zero_cache_sound.
  - intros _. left. rewrite <- update_is_init with (self := self) in Hi.
    eapply update_clears; eassumption.
  - intros _. left. eapply update_clears; eassumption.
  - rewrite display_keeps_value. intro Hv. right.
    destruct (IH Hv) as [Hc | Hc].
    + rewrite (display_uncached_zero self format Hc Hv). reflexivity.
    + unfold display. rewrite Hc. exact Hc.
Qed.

(** C7.  Reading [display] never raises.  On a timestamp whose epoch
    is zero it returns the empty string; and when the display is
    computed for a non-zero epoch and the conversion of the epoch, the
    lookup of the format or the formatting raises, it returns the
    string "Bad format!". *)
Theorem C7_display_never_raises :
  (forall (self : t) (format : result string),
      exists s, fst (display datetime fromtimestamp strftime self format) = Ok s) /\
  (forall (self : t) (format : result string),
      reachable datetime fromtimestamp strftime self -> value self = 0 ->
      fst (display datetime fromtimestamp strftime self format) = Ok EmptyString) /\
  (forall (self : t) (format : result string) (e : exn),
      _display self = None -> value self <> 0 ->
      (d <- fromtimestamp (value self) ;; fmt <- format ;; strftime d fmt)
      = Raise e ->
      display datetime fromtimestamp strftime self format
      = (Ok "Bad format!", {| value := value self; _display := Some "Bad format!" |})).
Proof.
  split; [exact display_total|]. split.
  - intros self format Hr Hv.
    destruct (reachable_zero_cache self Hr Hv) as [Hc | Hc].
    + rewrite (display_uncached_zero self format Hc Hv). reflexivity.
    + unfold display. rewrite Hc. reflexivity.
  - intros self format e Hc Hv Hf. unfold display. rewrite Hc.
    apply Z.eqb_neq in Hv. rewrite Hv, Hf. reflexivity.
Qed.

(** C8.  [update] with a value stores [int] of it as the epoch and
    empties the cached display, leaving the object as a freshly built
    one, so that the next read of [display] is computed from the new
    epoch; [update] without a value empties the cached display and
    keeps the epoch. *)
Theorem C8_update_replaces_and_clears :
  (forall (self : t) (x : number) (v : Z),
      int x = Ok v ->
      update self (Some x) = Ok {| value := v; _display := None |}) /\
  (forall (self : t) (z : Z),
      update self (Some (PyInt z)) = Ok {| value := z; _display := None |}) /\
  (forall (self : t),
      update self None = Ok {| value := value self; _display := None |}) /\
  (forall (self self' : t) (x : number) (format : result string),
      update self (Some x) = Ok self' ->
      __init__ x = Ok self' /\
      display datetime fromtimestamp strftime self' format
      = display datetime fromtimestamp strftime {| value := value self'; _display := None |} format).
Proof.
  split; [exact update_some|].
  split; [intros; now apply update_some|].
  split; [exact update_none|].
  intros self self' x format Hu. split.
  - rewrite <- (update_is_init self). exact Hu.
  - pose proof (update_clears _ _ _ Hu) as Hc.
    destruct self' as [v c]. cbn in Hc. subst c. reflexivity.
Qed.

End Display.

Example unset_timestamp :
  fst (display Z sample_fromtimestamp sample_strftime
         {| value := 0; _display := None |} (Ok "%s"))
  = Ok EmptyString.
Proof. reflexivity. Qed.

Example update_then_read :
  (self <- update {| value := 1700000000; _display := Some "1700000000" |}
                  (Some (PyFloat 7 (-1))) ;;
   fst (display Z sample_fromtimestamp sample_strftime self (Ok "%s")))
  = Ok "3".
Proof. reflexivity. Qed.

Lemma C7_witness :
  fst (display Z sample_fromtimestamp sample_strftime
         {| value := 0; _display := None |} (Ok "%Y"))
  = Ok EmptyString /\
  display Z sample_fromtimestamp sample_strftime
    {| value := 1700000000; _display := None |} (Ok "%Y")
  = (Ok "Bad format!", {| value := 1700000000; _display := Some "Bad format!" |}).
Proof.
  destruct (C7_display_never_raises Z sample_fromtimestamp sample_strftime)
    as (_ & Hzero & Hbad).
  split.
  - apply Hzero; [ | reflexivity].
    apply (reach_init _ _ _ (PyInt 0)). reflexivity.
  - apply (Hbad {| value := 1700000000; _display := None |} (Ok "%Y") ValueError);
      [reflexivity | discriminate | reflexivity].
Defined.

Lemma C8_witness :
  update {| value := 1700000000; _display := Some "1700000000" |}
         (Some (PyFloat 7 (-1)))
  = Ok {| value := 3; _display := None |} /\
  display Z sample_fromtimestamp sample_strftime
    {| value := 3; _display := None |} (Ok "%s")
  = display Z sample_fromtimestamp sample_strftime
      {| value := 3; _display := None |} (Ok "%s").
Proof.
  destruct (C8_update_replaces_and_clears Z sample_fromtimestamp sample_strftime)
    as (Hset & _ & _ & Hread).
  split.
  - apply Hset. reflexivity.
  - apply (Hread {| value := 1700000000; _display := Some "1700000000" |}
                 {| value := 3; _display := None |} (PyFloat 7 (-1)) (Ok "%s")).
    reflexivity.
Defined.

End TimestampFacts.

(** ** Properties of [DaemonPipe] *)

Module DaemonPipeFacts.
Import DaemonPipe.

(** *** The terminal condition *)

Lemma feed_at_eof (e : event) (r : StreamReader) :
  at_eof r = true -> at_eof (feed e r) = true.
Proof.
  unfold at_eof. intro H. apply andb_true_iff in H. destruct H as [He Hb].
  destruct e; cbn; rewrite ?He; cbn; auto.
Qed.

Lemma occur_terminal (p : Process) (e : event) :
  terminal p -> terminal (occur p e).
Proof.
  intros (r & Hr & H). exists (feed e r). unfold occur; cbn. rewrite Hr.
  split; [reflexivity|]. destruct H as [H | H].
  - left. destruct (returncode p); [|congruence]. destruct e; discriminate.
  - right. now apply feed_at_eof.
Qed.

Lemma occur_all_terminal (evs : list event) :
  forall p : Process, terminal p -> terminal (occur_all p evs).
Proof.
  induction evs as [ | e evs IH]; intros p H; cbn.
  - exact H.
  - apply IH, occur_terminal, H.
Qed.

Lemma sleep0_terminal (w : world) (self : t) :
  terminal (proc self) -> terminal (proc (snd (sleep0 w self))).
Proof.
  intro H. destruct w as [ | evs w]; cbn; [exact H|].
  now apply occur_all_terminal.
Qed.

Section WithJson.
Context {J : JsonModule}.

Lemma loop_terminal (fuel : nat) (w : world) (self : t) :
  terminal (proc self) ->
  fst (fst (get_async_loop (S fuel) w self)) = Raised DaemonPipeExit.
Proof.
  intro H. cbn [get_async_loop]. unfold is_alive.
  pose proof (sleep0_terminal w self H) as (r & Hr & Ht).
  destruct (sleep0 w self) as [w1 self1]. cbn [snd] in *.
  destruct (returncode (proc self1)) as [code | ]; [reflexivity|].
  rewrite Hr. destruct Ht as [Ht | Ht]; [congruence|].
  rewrite Ht. reflexivity.
Qed.

(** C1.  On a controller-side pipe whose process has exited
    ([returncode] is set) or whose output stream is at its end,
    [get_async] raises [DaemonPipeExit], whatever happens while it is
    suspended: it neither waits nor runs on.  On a pipe whose process
    has exited, [put] raises [DaemonPipeExit] and writes nothing. *)
Theorem C1_terminal_condition :
  (forall (fuel : nat) (w : world) (self : t) (r : StreamReader),
      stdout (proc self) = Some r ->
      returncode (proc self) <> None \/ at_eof r = true ->
      fst (fst (get_async (S fuel) w self)) = Raised DaemonPipeExit) /\
  (forall (self : t) (data : json) (code : Z) (written : list string),
      stdin (proc self) = Some written ->
      returncode (proc self) = Some code ->
      put self data = (Raise DaemonPipeExit, self)).
Proof.
  split.
  - intros fuel w self r Hr H. unfold get_async. rewrite Hr.
    apply loop_terminal. now exists r.
  - intros self data code written Hw Hc. unfold put. rewrite Hw, Hc.
    reflexivity.
Qed.

End WithJson.

(** The worker exits while the controller waits for a line. *)
Example killed_while_reading :
  fst (fst (get_async 5 [[]; [FeedEof; Exit (-9)]]
              {| proc := {| returncode := None;
                            stdout := Some {| buffer := []; eof := false |};
                            stdin := Some [] |};
                 daemon := {| DaemonProcess.finalize := {| DaemonProcess.alive := true |} |} |}))
  = Raised DaemonPipeExit.
Proof. reflexivity. Qed.

Lemma C1_witness :
  fst (fst (get_async 1 [[FeedLine ("null" ++ newline)%string]]
              {| proc := {| returncode := Some 0;
                            stdout := Some {| buffer := [("true" ++ newline)%string];
                                              eof := false |};
                            stdin := Some [] |};
                 daemon := {| DaemonProcess.finalize := {| DaemonProcess.alive := true |} |} |}))
  = Raised DaemonPipeExit /\
  put {| proc := {| returncode := Some 0;
                    stdout := Some {| buffer := []; eof := true |};
                    stdin := Some [] |};
         daemon := {| DaemonProcess.finalize := {| DaemonProcess.alive := true |} |} |}
      JNull
  = (Raise DaemonPipeExit,
     {| proc := {| returncode := Some 0;
                   stdout := Some {| buffer := []; eof := true |};
                   stdin := Some [] |};
        daemon := {| DaemonProcess.finalize := {| DaemonProcess.alive := true |} |} |}).
Proof.
  destruct (@C1_terminal_condition literal_json) as [Hget Hput].
  split.
  - eapply Hget; [reflexivity | left; discriminate].
  - eapply Hput; reflexivity.
Defined.

End DaemonPipeFacts.

(** ** Order of the messages on the controller side *)

Module DaemonPipeOrder.
Import DaemonPipe.

Lemma occur_feed_line (p : Process) (l : string) :
  healthy p ->
  healthy (occur p (FeedLine l)) /\
  forall w, pending w (occur p (FeedLine l)) = pending ([FeedLine l] :: w) p.
Proof.
  intros (Hc & r & Hr & He). unfold occur, healthy, pending; cbn.
  rewrite Hc, Hr; cbn. rewrite He; cbn. split.
  - split; [reflexivity|]. eexists. split; reflexivity.
  - intro w. rewrite <- app_assoc. reflexivity.
Qed.

Lemma pending_batch (p : Process) (l : string) (evs : list event) (w : world) :
  pending ([FeedLine l] :: evs :: w) p = pending ((FeedLine l :: evs) :: w) p.
Proof. unfold pending, arrivals. destruct (stdout p); reflexivity. Qed.

Lemma occur_all_quiet (evs : list event) :
  forall p : Process,
    healthy p -> quiet evs ->
    healthy (occur_all p evs) /\
    forall w, pending w (occur_all p evs) = pending (evs :: w) p.
Proof.
  induction evs as [ | e evs IH]; intros p Hp Hq; cbn [occur_all fold_left].
  - split; [exact Hp|]. intro w. unfold pending, arrivals.
    destruct (stdout p); reflexivity.
  - inversion Hq as [ | e' evs' (l & ->) Hq']; subst.
    destruct (occur_feed_line p l Hp) as [Hp1 Hpend1].
    destruct (IH (occur p (FeedLine l)) Hp1 Hq') as [Hp2 Hpend2].
    split; [exact Hp2|]. intro w.
    change (fold_left occur evs (occur p (FeedLine l)))
      with (occur_all (occur p (FeedLine l)) evs).
    rewrite Hpend2, Hpend1. apply pending_batch.
Qed.

Lemma occur_all_stdin (evs : list event) :
  forall p : Process, stdin (occur_all p evs) = stdin p.
Proof.
  unfold occur_all.
  induction evs as [ | e evs IH]; intro p; cbn [fold_left].
  - reflexivity.
  - rewrite IH. reflexivity.
Qed.

Lemma sleep0_calm (w : world) (self : t) :
  healthy (proc self) -> calm w ->
  healthy (proc (snd (sleep0 w self))) /\ calm (fst (sleep0 w self)) /\
  pending (fst (sleep0 w self)) (proc (snd (sleep0 w self)))
  = pending w (proc self).
Proof.
  intros Hp Hw. destruct w as [ | evs w]; cbn [sleep0 fst snd].
  - auto.
  - inversion Hw as [ | evs' w' Hq Hw']; subst. cbn [set_proc proc].
    destruct (occur_all_quiet evs (proc self) Hp Hq) as [Hp' Hpend].
    auto.
Qed.

Lemma readline_calm (w : world) :
  forall p : Process,
    healthy p -> calm w ->
    match pending w p with
    | [] => exists p', readline w p = (None, [], p')
    | l :: rest =>
        exists w' p',
          readline w p = (Some l, w', p') /\
          healthy p' /\ calm w' /\ pending w' p' = rest /\
          stdin p' = stdin p
    end.
Proof.
  induction w as [ | evs w IH]; intros p Hp Hw.
  - destruct Hp as (Hc & r & Hr & He).
    unfold pending. cbn [readline]. rewrite Hr.
    unfold arrivals; cbn [flat_map]. rewrite app_nil_r.
    destruct (buffer r) as [ | l rest] eqn:Hb.
    + rewrite He. eexists. reflexivity.
    + eexists _, _. split; [reflexivity|].
      split; [|split; [constructor|split]].
      * split; [exact Hc|]. eexists. split; [reflexivity | exact He].
      * cbn. now rewrite app_nil_r.
      * reflexivity.
  - inversion Hw as [ | evs' w' Hq Hw']; subst.
    pose proof Hp as (Hc & r & Hr & He).
    destruct (buffer r) as [ | l rest] eqn:Hb.
    + destruct (occur_all_quiet evs p Hp Hq) as [Hp1 Hpend1].
      specialize (IH (occur_all p evs) Hp1 Hw').
      rewrite Hpend1 in IH.
      assert (Hstep : readline (evs :: w) p = readline w (occur_all p evs)).
      { cbn [readline]. rewrite Hr, Hb, He. reflexivity. }
      rewrite Hstep.
      destruct (pending (evs :: w) p) as [ | l rest]; [exact IH|].
      destruct IH as (w2 & p2 & H1 & H2 & H3 & H4 & H5).
      exists w2, p2. repeat split; try assumption.
      * apply H2.
      * apply H2.
      * rewrite H5. apply occur_all_stdin.
    + unfold pending. rewrite Hr, Hb. cbn [app readline]. rewrite Hr, Hb.
      eexists _, _. split; [reflexivity|].
      split; [|split; [exact Hw|split]].
      * split; [exact Hc|]. eexists. split; [reflexivity | exact He].
      * reflexivity.
      * reflexivity.
Qed.

Section WithJson.
Context {J : JsonModule}.

Lemma loop_serves (fuel : nat) :
  forall (w : world) (self : t),
    healthy (proc self) -> calm w ->
    Forall message_or_noise (pending w (proc self)) ->
    (List.length (pending w (proc self)) < fuel)%nat ->
    match decoded (pending w (proc self)) with
    | [] => exists w' self', get_async_loop fuel w self = (Suspended, w', self')
    | m :: ms =>
        exists w' self',
          get_async_loop fuel w self = (Returned m, w', self') /\
          healthy (proc self') /\ calm w' /\
          Forall message_or_noise (pending w' (proc self')) /\
          decoded (pending w' (proc self')) = ms /\
          (List.length (pending w' (proc self'))
           <= List.length (pending w (proc self)))%nat
    end.
Proof.
  induction fuel as [ | fuel IH]; intros w self Hp Hw Hclean Hlen; [lia|].
  cbn [get_async_loop]. unfold is_alive.
  destruct (sleep0_calm w self Hp Hw) as (Hp1 & Hw1 & Hpend1).
  destruct (sleep0 w self) as [w1 self1]. cbn [fst snd] in Hp1, Hw1, Hpend1.
  rewrite <- Hpend1 in Hclean, Hlen. rewrite <- Hpend1. clear Hpend1.
  pose proof Hp1 as (Hc & r & Hr & He).
  rewrite Hc, Hr. unfold at_eof. rewrite He. cbn [andb negb].
  pose proof (readline_calm w1 (proc self1) Hp1 Hw1) as Hrl.
  destruct (pending w1 (proc self1)) as [ | l rest].
  - destruct Hrl as [p' ->]. cbn [decoded]. eexists _, _. reflexivity.
  - destruct Hrl as (w2 & p2 & Hrl & Hp2 & Hw2 & Hpend2 & _). rewrite Hrl.
    inversion Hclean as [ | l' rest' Hnoise Hrest]; subst l' rest'.
    cbn [decoded]. destruct (json_loads l) as [m | e] eqn:El.
    + eexists _, _. split; [reflexivity|]. cbn [set_proc proc].
      rewrite Hpend2. repeat split; try assumption; try apply Hp2.
      cbn [List.length]. lia.
    + rewrite (Hnoise e El).
      specialize (IH w2 (set_proc self1 p2)). cbn [set_proc proc] in IH.
      rewrite Hpend2 in IH. cbn [List.length] in Hlen.
      specialize (IH Hp2 Hw2 Hrest ltac:(lia)).
      destruct (decoded rest) as [ | m ms]; [exact IH|].
      destruct IH as (w' & self' & Heq & H1 & H2 & H3 & H4 & H5).
      exists w', self'. repeat split; try assumption; try apply H1.
      cbn [List.length]. lia.
Qed.

Lemma get_async_serves (fuel : nat) (w : world) (self : t) :
  healthy (proc self) -> calm w ->
  Forall message_or_noise (pending w (proc self)) ->
  (List.length (pending w (proc self)) < fuel)%nat ->
  serves fuel w self.
Proof.
  intros Hp Hw Hclean Hlen. unfold serves, get_async.
  pose proof Hp as (_ & r & Hr & _). rewrite Hr.
  now apply loop_serves.
Qed.

Lemma drain_in_order (n : nat) :
  forall (fuel : nat) (w : world) (self : t),
    healthy (proc self) -> calm w ->
    Forall message_or_noise (pending w (proc self)) ->
    (List.length (pending w (proc self)) < fuel)%nat ->
    drain n fuel w self
    = map Returned (firstn n (decoded (pending w (proc self))))
      ++ (if (List.length (decoded (pending w (proc self))) <? n)%nat
          then [Suspended] else []).
Proof.
  induction n as [ | n IH]; intros fuel w self Hp Hw Hclean Hlen.
  - reflexivity.
  - pose proof (get_async_serves fuel w self Hp Hw Hclean Hlen) as Hs.
    unfold serves in Hs. cbn [drain].
    destruct (decoded (pending w (proc self))) as [ | m ms].
    + destruct Hs as (w' & self' & ->). reflexivity.
    + destruct Hs as (w' & self' & -> & H1 & H2 & H3 & H4 & H5).
      rewrite (IH fuel w' self' H1 H2 H3 ltac:(lia)), H4. reflexivity.
Qed.

End WithJson.

Section AnyLines.
Context {J : JsonModule}.



Lemma served_skips_noise (noise : list string) :
  forall rest : list string,
    Forall (fun l => json_loads l = Raise JSONDecodeError) noise ->
    served (noise ++ rest) = served rest.
Proof.
  induction noise as [ | l noise IH]; intros rest Hn; cbn [app served].
  - reflexivity.
  - inversion Hn as [ | l' noise' Hl Hn']; subst. rewrite Hl. now apply IH.
Qed.

Lemma served_other_error (l : string) (rest : list string) (e : exn) :
  json_loads l = Raise e -> e <> JSONDecodeError ->
  served (l :: rest) = [Raised e].
Proof.
  intros Hl He. cbn [served]. rewrite Hl.
  destruct e; try reflexivity. congruence.
Qed.



End AnyLines.

(** What the [except] clause does not name is not dropped: a line on
    which [json.loads] raises another exception ends the call with it. *)
Lemma other_errors_propagate {J : JsonModule}
      (fuel : nat) (self : t) (r : StreamReader) (l : string)
      (rest : list string) (e : exn) :
  returncode (proc self) = None ->
  stdout (proc self) = Some r -> buffer r = l :: rest ->
  json_loads l = Raise e -> e <> JSONDecodeError ->
  fst (fst (get_async (S fuel) [] self)) = Raised e.
Proof.
  intros Hc Hr Hb Hl He. unfold get_async. rewrite Hr.
  cbn [get_async_loop is_alive sleep0]. rewrite Hc, Hr.
  unfold at_eof. rewrite Hb, andb_false_r. cbn [negb readline].
  rewrite Hr, Hb, Hl. destruct e; try reflexivity. congruence.
Qed.

(** Noise between two messages, and a third message that arrives
    while the controller waits. *)
Example noise_is_skipped :
  drain 4 9 [[]; []; []; [FeedLine ("[]" ++ newline)%string]]
        {| proc := {| returncode := None;
                      stdout := Some {| buffer := [("true" ++ newline)%string;
                                                   "Traceback (most recent call last):";
                                                   ("{}" ++ newline)%string];
                                        eof := false |};
                      stdin := Some [] |};
           daemon := {| DaemonProcess.finalize := {| DaemonProcess.alive := true |} |} |}
  = [Returned (JBool true); Returned (JDict []); Returned (JList []); Suspended].
Proof. reflexivity. Qed.

End DaemonPipeOrder.

(** ** Properties of [ChildPipe] *)

Module ChildPipeFacts.
Import ChildPipe.

Lemma upcoming_S (f : TextIO) (k : nat) :
  upcoming f (S k) = fst (readline f) :: upcoming (snd (readline f)) k.
Proof. reflexivity. Qed.

Section WithJson.
Context {J : JsonModule}.

(** *** The synchronous read *)

Lemma get_loop_spins (fuel : nat) :
  forall f : TextIO,
    (forall k, (pos f <= k)%nat -> json_loads (lines f k) = Raise JSONDecodeError) ->
    get_loop fuel f
    = (OutOfFuel, {| lines := lines f; pos := pos f + fuel |}, repeat ReadInline fuel).
Proof.
  induction fuel as [ | fuel IH]; intros f H; cbn [get_loop repeat].
  - rewrite Nat.add_0_r. destruct f; reflexivity.
  - unfold readline. rewrite (H (pos f) (Nat.le_refl _)).
    rewrite IH; cbn [lines pos].
    + rewrite Nat.add_succ_r. reflexivity.
    + intros k Hk. apply H. lia.
Qed.

(** C10.  The synchronous worker-side read has no terminal
    condition.  On a standard input whose lines all fail to decode,
    for ever, and so on an exhausted one, which yields the empty
    string for ever, however many rounds the loop of [get] is given
    it is still running after them, having read once per round: it
    neither returns nor raises. *)
Theorem C10_sync_get_never_ends :
  (forall (fuel : nat) (self : t) (f : TextIO),
      (forall k, (pos f <= k)%nat ->
                 json_loads (lines f k) = Raise JSONDecodeError) ->
      get fuel self (Some f)
      = (OutOfFuel, Some {| lines := lines f; pos := pos f + fuel |},
         repeat ReadInline fuel)) /\
  (forall (fuel : nat) (self : t) (f : TextIO),
      json_loads EmptyString = Raise JSONDecodeError ->
      (forall k, (pos f <= k)%nat -> lines f k = EmptyString) ->
      get fuel self (Some f)
      = (OutOfFuel, Some {| lines := lines f; pos := pos f + fuel |},
         repeat ReadInline fuel)).
Proof.
  assert (Hspin : forall (fuel : nat) (self : t) (f : TextIO),
             (forall k, (pos f <= k)%nat ->
                        json_loads (lines f k) = Raise JSONDecodeError) ->
             get fuel self (Some f)
             = (OutOfFuel, Some {| lines := lines f; pos := pos f + fuel |},
                repeat ReadInline fuel)).
  { intros fuel self f H. unfold get. rewrite (get_loop_spins fuel f H).
    reflexivity. }
  split; [exact Hspin|].
  intros fuel self f Hempty Hf. apply Hspin.
  intros k Hk. rewrite (Hf k Hk). exact Hempty.
Qed.

(** *** The lines under [get_async] *)











(** *** The order of the messages *)



End WithJson.

Lemma C10_witness :
  get (J := literal_json) 7 {| loop := None; stdin_event := None |}
      (Some (of_list ["Segmentation fault"]))
  = (OutOfFuel,
     Some {| lines := lines (of_list ["Segmentation fault"]); pos := 0 + 7 |},
     repeat ReadInline 7) /\
  get (J := literal_json) 7 {| loop := None; stdin_event := None |}
      (Some (of_list []))
  = (OutOfFuel, Some {| lines := lines (of_list []); pos := 0 + 7 |},
     repeat ReadInline 7).
Proof.
  destruct (@C10_sync_get_never_ends literal_json)
    as [Hnoise Hempty].
  split.
  - apply (Hnoise 7%nat {| loop := None; stdin_event := None |}
                  (of_list ["Segmentation fault"])).
    intros k _. destruct k as [ | [ | k]]; reflexivity.
  - apply (Hempty 7%nat {| loop := None; stdin_event := None |} (of_list []));
      [reflexivity|].
    intros k _. destruct k; reflexivity.
Defined.

End ChildPipeFacts.

(** ** How the worker side reads *)

Module ChildPipeStrategy.
Import ChildPipe.

Lemma init_built_under (l : Loop) (s : Stdin) :
  built_under l (fst (__init__ (Some l) (Some s))) /\
  snd (__init__ (Some l) (Some s))
  = (if add_reader_supported l then [AddReader] else []) /\
  stdin_event (fst (__init__ (Some l) (Some s)))
  = Some (if add_reader_supported l then Some {| is_set := false |} else None).
Proof.
  unfold built_under, __init__.
  destruct (add_reader_supported l) eqn:E; cbn; rewrite ?E;
    (split; [split; [reflexivity|]; eexists; split; [reflexivity|] | auto]);
    congruence.
Qed.

Lemma occurrences_app (a : action) (x y : list action) :
  occurrences a (x ++ y) = (occurrences a x + occurrences a y)%nat.
Proof. unfold occurrences. now rewrite filter_app, length_app. Qed.

Lemma left_waiting_after (pre tr : list action) :
  left_waiting (pre ++ Sleep0 :: tr) = left_waiting tr.
Proof.
  unfold left_waiting. f_equal.
  induction pre as [ | x pre IH]; cbn [app].
  - revert tr. assert (H : forall (tr : list action) (x d d' : action),
                         last (x :: tr) d = last (x :: tr) d').
    { induction tr as [ | y tr IH]; intros x d d'; [reflexivity|].
      change (last (x :: y :: tr) d) with (last (y :: tr) d).
      change (last (x :: y :: tr) d') with (last (y :: tr) d'). apply IH. }
    intros [ | y tr]; [reflexivity|].
    change (last (Sleep0 :: y :: tr) RunInExecutor)
      with (last (y :: tr) RunInExecutor). reflexivity.
  - destruct (pre ++ Sleep0 :: tr) eqn:E; [now destruct pre | exact IH].
Qed.

Lemma run_in_executor_kind (w : world) (s : Stdin) (ev : option Event) :
  snd (run_in_executor w s ev) = None <-> ev = None.
Proof.
  unfold run_in_executor.
  destruct (buffered s); [destruct (block w s) as [[[] w1] s1] | ]; cbn;
    try destruct (stdin_readline _);
    try match goal with |- context [match ?w with [] => _ | _ :: _ => _ end] =>
          destruct w end;
    cbn; repeat match goal with
                | |- context [selector_first ?i] => destruct (selector_first i)
                end;
    cbn; destruct ev; cbn; split; congruence.
Qed.

Lemma sleep0_kind (w : world) (s : Stdin) (ev : option Event) :
  snd (sleep0 w s ev) = None <-> ev = None.
Proof. destruct w; cbn; destruct ev; cbn; split; congruence. Qed.

Section WithJson.
Context {J : JsonModule}.

Lemma loop_trace (l : Loop) (fuel : nat) :
  forall (w : world) (self : t) (s : Stdin),
    built_under l self ->
    let tr := snd (get_async_loop fuel w self s) in
    occurrences ReadInline tr = 0%nat /\
    occurrences AddReader tr = 0%nat /\
    occurrences EventClear tr
    = (if add_reader_supported l then occurrences RunInExecutor tr else 0%nat) /\
    occurrences EventWait tr
    = (occurrences EventClear tr + left_waiting tr)%nat.
Proof.
  induction fuel as [ | fuel IH]; intros w self s (Hl & ev & Hev & Hkind).
  - cbn. destruct (add_reader_supported l); auto.
  - cbn [get_async_loop]. rewrite Hev.
    set (ev1 := match ev with
                | Some _ => Some {| is_set := false |}
                | None => None
                end).
    set (tr1 := match ev with
                | Some _ => [EventWait; EventClear]
                | None => []
                end).
    assert (Hev1 : ev1 = None <-> ev = None)
      by (subst ev1; destruct ev; split; congruence).
    assert (Htr1 : occurrences ReadInline tr1 = 0%nat /\
                   occurrences AddReader tr1 = 0%nat /\
                   occurrences RunInExecutor tr1 = 0%nat /\
                   occurrences EventWait tr1 = occurrences EventClear tr1 /\
                   occurrences EventClear tr1
                   = (if add_reader_supported l then 1%nat else 0%nat)).
    { subst tr1. destruct (add_reader_supported l), ev; cbn; auto; congruence. }
    destruct Htr1 as (T1 & T2 & T3 & T4 & T5).
    destruct (match ev with
              | Some e => if is_set e then (true, w, s) else wait w s
              | None => (true, w, s)
              end) as [[go w1] s1] eqn:Hgo.
    destruct go.
    2:{ assert (Hsome : add_reader_supported l = true).
        { destruct ev as [e | ]; [|discriminate].
          destruct (add_reader_supported l); [reflexivity | congruence]. }
        cbn. rewrite Hsome. auto. }
    pose proof (run_in_executor_kind w1 s1 ev1) as Hk2.
    destruct (run_in_executor w1 s1 ev1) as [[[line w2] s2] ev2].
    cbn [snd] in Hk2.
    assert (Hdone : let tr := tr1 ++ [RunInExecutor] in
              occurrences ReadInline tr = 0%nat /\
              occurrences AddReader tr = 0%nat /\
              occurrences EventClear tr
              = (if add_reader_supported l
                 then occurrences RunInExecutor tr else 0%nat) /\
              occurrences EventWait tr
              = (occurrences EventClear tr + left_waiting tr)%nat).
    { cbv zeta. rewrite !occurrences_app, T1, T2, T3, T4, T5.
      unfold left_waiting. rewrite last_last. cbn.
      destruct (add_reader_supported l); auto. }
    destruct line as [line | ]; [|exact Hdone].
    destruct (json_loads line) as [m | e]; [exact Hdone|].
    destruct e; try exact Hdone.
    pose proof (sleep0_kind w2 s2 ev2) as Hk3.
    destruct (sleep0 w2 s2 ev2) as [[w3 s3] ev3]. cbn [snd] in Hk3.
    assert (Hb : built_under l (set_event self ev3)).
    { split; [exact Hl|]. exists ev3. split; [reflexivity|].
      destruct (add_reader_supported l).
      - intro E. apply Hkind. tauto.
      - tauto. }
    specialize (IH w3 (set_event self ev3) s3 Hb).
    destruct (get_async_loop fuel w3 (set_event self ev3) s3)
      as [[[[o w4] self4] s4] tr].
    cbn [snd] in IH |- *. destruct IH as (I1 & I2 & I3 & I4).
    change (tr1 ++ [RunInExecutor; Sleep0] ++ tr)
      with (tr1 ++ [RunInExecutor] ++ Sleep0 :: tr).
    rewrite app_assoc, left_waiting_after, <- app_assoc.
    change ([RunInExecutor] ++ Sleep0 :: tr) with ([RunInExecutor; Sleep0] ++ tr).
    rewrite !occurrences_app, T1, T2, T3, T4, T5, I1, I2, I3, I4.
    cbn. destruct (add_reader_supported l); repeat split; lia.
Qed.

(** The first round of a pipe as [__init__] leaves it. *)
Lemma first_round (l : Loop) (fuel : nat) (w : world) (s : Stdin) :
  let self := fst (__init__ (Some l) (Some s)) in
  let tr := snd (get_async_loop (S fuel) w self s) in
  if add_reader_supported l && negb (signalled w s)
  then tr = [EventWait]
  else exists rest, tr = round l ++ rest.
Proof.
  cbv zeta. destruct (init_built_under l s) as (_ & _ & Hev).
  cbn [get_async_loop]. rewrite Hev. unfold round, signalled.
  destruct (add_reader_supported l); cbn [andb is_set].
  - destruct (wait w s) as [[go w1] s1]. cbn [fst]. destruct go; cbn [negb].
    + destruct (run_in_executor w1 s1 _) as [[[line w2] s2] ev2].
      destruct line as [line | ]; [|eexists; reflexivity].
      destruct (json_loads line) as [m | e]; [eexists; reflexivity|].
      destruct e; try (eexists; reflexivity).
      destruct (sleep0 w2 s2 ev2) as [[w3 s3] ev3].
      destruct (get_async_loop fuel w3 _ s3) as [[[[o w4] self4] s4] tr].
      cbn [snd]. eexists. rewrite <- app_assoc. reflexivity.
    + reflexivity.
  - destruct (run_in_executor w s None) as [[[line w2] s2] ev2].
    destruct line as [line | ]; [|eexists; reflexivity].
    destruct (json_loads line) as [m | e]; [eexists; reflexivity|].
    destruct e; try (eexists; reflexivity).
    destruct (sleep0 w2 s2 ev2) as [[w3 s3] ev3].
    destruct (get_async_loop fuel w3 _ s3) as [[[[o w4] self4] s4] tr].
    cbn [snd]. eexists. reflexivity.
Qed.

(** C6, as the code has it.  Where the running loop can register a
    readiness callback for the standard input, [__init__] registers
    one, and every round of [get_async] waits for the signal, clears
    it and then hands [readline] to an executor thread, whose result
    it awaits; where the loop cannot, no callback is registered and
    every round hands [readline] to an executor thread without
    waiting.  Either way the read is never made on the calling
    thread and [get_async] registers nothing itself.  A round whose
    signal never comes is left in its wait: that wait is the last
    step the call takes, and the only one without its clear and its
    read. *)
Theorem C6_read_always_on_executor
  (fuel : nat) (l : Loop) (w : world) (s : Stdin) :
  let self := fst (__init__ (Some l) (Some s)) in
  let tr := snd (get_async (S fuel) w self (Some s)) in
  snd (__init__ (Some l) (Some s))
  = (if add_reader_supported l then [AddReader] else []) /\
  (if add_reader_supported l && negb (signalled w s)
   then tr = [EventWait]
   else exists rest,
       tr = (if add_reader_supported l then [EventWait; EventClear] else [])
            ++ [RunInExecutor] ++ rest) /\
  occurrences ReadInline tr = 0%nat /\
  occurrences AddReader tr = 0%nat /\
  occurrences EventClear tr
  = (if add_reader_supported l then occurrences RunInExecutor tr else 0%nat) /\
  occurrences EventWait tr
  = (occurrences EventClear tr + left_waiting tr)%nat.
Proof.
  intros self tr.
  destruct (init_built_under l s) as (Hb & Hreg & _).
  split; [exact Hreg|].
  assert (Htr : tr = snd (get_async_loop (S fuel) w self s)).
  { subst tr. unfold get_async. destruct Hb as [Hl _].
    change (loop self = Some l) in Hl. rewrite Hl.
    destruct (get_async_loop (S fuel) w self s) as [[[[o w'] s'] f'] tr'].
    reflexivity. }
  rewrite Htr.
  pose proof (loop_trace l (S fuel) w self s Hb) as H.
  pose proof (first_round l fuel w s) as H5.
  cbv zeta in H, H5. destruct H as (H1 & H2 & H3 & H4).
  split; [|auto].
  fold self in H5.
  destruct (add_reader_supported l && negb (signalled w s)); [exact H5|].
  destruct H5 as [rest Hrest]. exists rest. rewrite Hrest. unfold round.
  now rewrite <- app_assoc.
Qed.

End WithJson.

(** A loop that can signal readiness, one message in the descriptor of
    the standard input: the line is read on an executor thread all the
    same. *)
Lemma C6_counterexample :
  ~ defers_only_without_readiness
      {| add_reader_supported := true |}
      (snd (get_async (J := literal_json) 1 []
              (fst (__init__ (Some {| add_reader_supported := true |})
                      (Some {| buffered := [];
                               in_pipe := [("null" ++ newline)%string];
                               closed := false |})))
              (Some {| buffered := [];
                       in_pipe := [("null" ++ newline)%string];
                       closed := false |}))).
Proof.
  unfold defers_only_without_readiness. intro H.
  assert (Hin : In RunInExecutor [EventWait; EventClear; RunInExecutor])
    by (cbn; auto).
  specialize (H Hin). discriminate H.
Qed.

End ChildPipeStrategy.

(** ** Order of the messages on a transport *)

Module TransportFacts.

Section WithJson.
Context {J : JsonModule}.


End WithJson.


Example worker_reads_commands :
  ChildPipe.drain (J := literal_json) 3 4
    [ChildPipe.mkiter false [ChildPipe.Write ("false" ++ newline)%string]]
    {| ChildPipe.loop := Some {| ChildPipe.add_reader_supported := false |};
       ChildPipe.stdin_event := Some None |}
    {| ChildPipe.buffered := [];
       ChildPipe.in_pipe := [("true" ++ newline)%string; "\o/"];
       ChildPipe.closed := false |}
  = [Returned (JBool true); Returned (JBool false); Suspended].
Proof. reflexivity. Qed.

(** Three messages written at once to a worker whose loop signals
    readiness: the first read takes all three lines out of the
    descriptor, the descriptor is not readable any more, and the
    second call waits for a signal that does not come while two
    messages sit in the buffer of [sys.stdin]. *)
Example worker_left_waiting :
  ChildPipe.drain (J := literal_json) 3 4 []
    (fst (ChildPipe.__init__
            (Some {| ChildPipe.add_reader_supported := true |})
            (Some tt)))
    {| ChildPipe.buffered := [];
       ChildPipe.in_pipe := [("true" ++ newline)%string;
                             ("false" ++ newline)%string;
                             ("null" ++ newline)%string];
       ChildPipe.closed := false |}
  = [Returned (JBool true); Suspended].
Proof. reflexivity. Qed.


End TransportFacts.

(** ** Scope exit of a controller-side pipe *)

Module DaemonPipeScopeFacts.
Import DaemonPipeScope.

Lemma daemon_exit_released (s : scope) :
  DaemonProcess.alive (DaemonProcess.finalize (DaemonPipe.daemon (pipe (daemon_exit s))))
  = false.
Proof.
  unfold daemon_exit, DaemonProcess.__exit__.
  pose proof (DaemonProcessFacts.call_finalize_kills_guard
                (DaemonPipe.daemon (pipe s))
                (handle (DaemonPipe.proc (pipe s)) (fault s) (signals s))) as H.
  destruct (DaemonProcess.call_finalize _ _) as [[r d'] h']. exact H.
Qed.

Lemma daemon_exit_proc (s : scope) :
  DaemonPipe.proc (pipe (daemon_exit s)) = DaemonPipe.proc (pipe s) /\
  fault (daemon_exit s) = fault s.
Proof.
  unfold daemon_exit. destruct (DaemonProcess.__exit__ _ _) as [[r d'] h'].
  split; reflexivity.
Qed.

(** The signals sent by one release: one to a running process behind a
    live guard whose [kill] goes through, none in every other case. *)
Lemma daemon_exit_signals (s : scope) :
  signals (daemon_exit s)
  = if DaemonProcess.alive (DaemonProcess.finalize (DaemonPipe.daemon (pipe s)))
    then match DaemonPipe.returncode (DaemonPipe.proc (pipe s)), fault s with
         | None, None => S (signals s)
         | _, _ => signals s
         end
    else signals s.
Proof.
  unfold daemon_exit, DaemonProcess.__exit__, DaemonProcess.call_finalize.
  destruct (DaemonProcess.alive _); [|reflexivity].
  unfold DaemonProcess.kill, DaemonProcess.kill_body, handle; cbn.
  destruct (DaemonPipe.returncode (DaemonPipe.proc (pipe s))); cbn;
    unfold DaemonProcess.proc_kill; cbn; destruct (fault s); reflexivity.
Qed.

(** X1.  Leaving a [with pipe:] block releases the guard whatever the
    body did; the block swallows [DaemonPipeExit] raised by its body
    and lets every other exception through; and the release sends one
    kill signal to a process that still runs, none to one that has
    exited or whose guard was released before. *)
Theorem X1_with_block_releases_and_filters {A : Type}
      (body : scope -> outcome A * scope) (s : scope) :
  let entered := __enter__ s in
  let after_body := snd (body entered) in
  let after_block := snd (with_pipe body s) in
  (forall a, fst (body entered) = Returned a ->
             fst (with_pipe body s) = Returned (Some a)) /\
  (fst (body entered) = Raised DaemonPipeExit ->
   fst (with_pipe body s) = Returned None) /\
  (forall e, fst (body entered) = Raised e -> e <> DaemonPipeExit ->
             fst (with_pipe body s) = Raised e) /\
  ((exists a, fst (body entered) = Returned a) \/
   (exists e, fst (body entered) = Raised e) ->
   DaemonProcess.alive
     (DaemonProcess.finalize (DaemonPipe.daemon (pipe after_block))) = false /\
   DaemonPipe.proc (pipe after_block) = DaemonPipe.proc (pipe after_body) /\
   signals after_block
   = if DaemonProcess.alive
          (DaemonProcess.finalize (DaemonPipe.daemon (pipe after_body)))
     then match DaemonPipe.returncode (DaemonPipe.proc (pipe after_body)),
                fault after_body with
          | None, None => S (signals after_body)
          | _, _ => signals after_body
          end
     else signals after_body).
Proof.
  cbv zeta. unfold with_pipe.
  destruct (body (__enter__ s)) as [o s2]. cbn [fst snd].
  repeat split.
  - intros a ->. reflexivity.
  - intros ->. reflexivity.
  - intros e -> He. unfold __exit__.
    destruct e; try reflexivity. congruence.
  - destruct H as [[a ->] | [e ->]]; cbn [snd __exit__].
    + apply daemon_exit_released.
    + unfold __exit__. destruct e; apply daemon_exit_released.
  - destruct H as [[a ->] | [e ->]]; cbn [snd __exit__].
    + apply daemon_exit_proc.
    + unfold __exit__. destruct e; apply daemon_exit_proc.
  - destruct H as [[a ->] | [e ->]]; cbn [snd __exit__].
    + apply daemon_exit_signals.
    + unfold __exit__. destruct e; apply daemon_exit_signals.
Qed.

End DaemonPipeScopeFacts.

(** ** A closed stream never leaves the controller waiting *)

Module DaemonPipeLiveness.
Import DaemonPipe DaemonPipeScope.

Lemma feed_eof_stays (e : event) (r : StreamReader) :
  eof r = true -> eof (feed e r) = true.
Proof. intro H. destruct e; cbn; rewrite ?H; auto. Qed.

Lemma feed_buffer_bound (e : event) (r : StreamReader) :
  (List.length (buffer (feed e r)) <= List.length (buffer r) + List.length (fed [e]))%nat.
Proof.
  destruct e; cbn; try lia.
  destruct (eof r); cbn; [lia|]. rewrite length_app. cbn. lia.
Qed.

Lemma occur_all_reader (evs : list event) :
  forall (p : Process) (r : StreamReader),
    stdout p = Some r ->
    exists r',
      stdout (occur_all p evs) = Some r' /\
      (eof r = true -> eof r' = true) /\
      (In FeedEof evs -> eof r' = true) /\
      (List.length (buffer r') <= List.length (buffer r) + List.length (fed evs))%nat.
Proof.
  unfold occur_all.
  induction evs as [ | e evs IH]; intros p r Hr; cbn [fold_left].
  - exists r. split; [exact Hr|]. split; [auto|]. split; [intros []|]. cbn. lia.
  - destruct (IH (occur p e) (feed e r)) as (r' & Hr' & He & Hin & Hlen).
    { unfold occur; cbn. rewrite Hr. reflexivity. }
    exists r'. split; [exact Hr'|]. repeat split.
    + intro H. apply He. now apply feed_eof_stays.
    + intros [-> | H]; [apply He; reflexivity | now apply Hin].
    + pose proof (feed_buffer_bound e r) as Hb.
      unfold fed in *. cbn [flat_map] in *. rewrite app_nil_r in Hb.
      rewrite length_app. lia.
Qed.

Lemma closing_step (evs : list event) (w : world) (p : Process) :
  closing (evs :: w) p ->
  closing w (occur_all p evs) /\
  (backlog w (occur_all p evs) <= backlog (evs :: w) p)%nat.
Proof.
  intros (r & Hr & H).
  destruct (occur_all_reader evs p r Hr) as (r' & Hr' & He & Hin & Hlen).
  split.
  - exists r'. split; [exact Hr'|]. destruct H as [H | H]; [left; auto|].
    cbn [List.concat] in H. apply in_app_or in H.
    destruct H as [H | H]; [left; auto | right; exact H].
  - unfold backlog, pending. rewrite Hr, Hr'. unfold arrivals.
    cbn [flat_map]. rewrite !length_app. lia.
Qed.

Lemma readline_closing (w : world) :
  forall p : Process,
    closing w p ->
    exists line w2 p2,
      readline w p = (Some line, w2, p2) /\
      closing w2 p2 /\
      ((backlog w2 p2 < backlog w p)%nat \/ terminal p2).
Proof.
  induction w as [ | evs w IH]; intros p Hc.
  - destruct Hc as (r & Hr & H). cbn [readline]. rewrite Hr.
    destruct (buffer r) as [ | l rest] eqn:Hb.
    + destruct H as [H | []]. rewrite H.
      eexists _, _, _. split; [reflexivity|]. split.
      * exists r. auto.
      * right. exists r. split; [exact Hr|]. right.
        unfold at_eof. rewrite H, Hb. reflexivity.
    + eexists _, _, _. split; [reflexivity|]. split.
      * eexists. split; [reflexivity|]. cbn [eof]. exact H.
      * left. unfold backlog, pending. cbn [stdout buffer]. rewrite Hr, Hb.
        cbn. lia.
  - pose proof Hc as (r & Hr & H). cbn [readline]. rewrite Hr.
    destruct (buffer r) as [ | l rest] eqn:Hb.
    + destruct (eof r) eqn:He.
      * eexists _, _, _. split; [reflexivity|]. split; [exact Hc|].
        right. exists r. split; [exact Hr|]. right.
        unfold at_eof. rewrite He, Hb. reflexivity.
      * destruct (closing_step evs w p Hc) as [Hc1 Hlen].
        destruct (IH (occur_all p evs) Hc1) as (line & w2 & p2 & Hrl & Hc2 & Hm).
        exists line, w2, p2. split; [exact Hrl|]. split; [exact Hc2|].
        destruct Hm as [Hm | Hm]; [left; lia | right; exact Hm].
    + eexists _, _, _. split; [reflexivity|]. split.
      * eexists. split; [reflexivity|]. cbn [eof]. exact H.
      * left. unfold backlog, pending. cbn [stdout buffer]. rewrite Hr, Hb.
        cbn. lia.
Qed.

Section WithJson.
Context {J : JsonModule}.

Lemma loop_never_waits (fuel : nat) :
  forall (w : world) (self : t),
    closing w (proc self) ->
    (backlog w (proc self) + 1 < fuel)%nat ->
    (exists m, fst (fst (get_async_loop fuel w self)) = Returned m) \/
    (exists e, fst (fst (get_async_loop fuel w self)) = Raised e).
Proof.
  induction fuel as [ | fuel IH]; intros w self Hc Hlen; [lia|].
  cbn [get_async_loop]. unfold is_alive.
  assert (Hs : closing (fst (sleep0 w self)) (proc (snd (sleep0 w self))) /\
               (backlog (fst (sleep0 w self)) (proc (snd (sleep0 w self)))
                <= backlog w (proc self))%nat).
  { destruct w as [ | evs w]; cbn [sleep0 fst snd set_proc proc].
    - split; [exact Hc | lia].
    - now apply closing_step. }
  destruct (sleep0 w self) as [w1 self1]. cbn [fst snd] in Hs.
  destruct Hs as [Hc1 Hlen1].
  destruct (returncode (proc self1)); [right; eexists; reflexivity|].
  pose proof Hc1 as (r & Hr & _). rewrite Hr.
  destruct (at_eof r); cbn [negb]; [right; eexists; reflexivity|].
  destruct (readline_closing w1 (proc self1) Hc1)
    as (line & w2 & p2 & -> & Hc2 & Hm).
  destruct (json_loads line) as [m | e]; [left; eexists; reflexivity|].
  destruct e; try (right; eexists; reflexivity).
  destruct Hm as [Hm | Hm].
  - apply IH; cbn [set_proc proc]; [exact Hc2 | lia].
  - destruct fuel as [ | fuel]; [lia|]. right. eexists.
    apply DaemonPipeFacts.loop_terminal. exact Hm.
Qed.

(** X2.  Once the worker's output is closed, or when it gets closed
    while the controller waits, [get_async] does not hang: given one
    round per line still to be read and two more, it returns a message
    or raises. *)
Theorem X2_closed_stream_never_hangs
      (fuel : nat) (w : world) (self : t) :
  closing w (proc self) ->
  (backlog w (proc self) + 1 < fuel)%nat ->
  (exists m, fst (fst (get_async fuel w self)) = Returned m) \/
  (exists e, fst (fst (get_async fuel w self)) = Raised e).
Proof.
  intros Hc Hlen. unfold get_async.
  pose proof Hc as (r & Hr & _). rewrite Hr.
  now apply loop_never_waits.
Qed.

End WithJson.

Lemma X2_witness :
  (exists m,
      fst (fst (get_async (J := literal_json) 3
                  [[FeedLine "Killed"]; [FeedEof]]
                  {| proc := {| returncode := None;
                                stdout := Some {| buffer := []; eof := false |};
                                stdin := Some [] |};
                     daemon := {| DaemonProcess.finalize :=
                                    {| DaemonProcess.alive := true |} |} |}))
      = Returned m) \/
  (exists e,
      fst (fst (get_async (J := literal_json) 3
                  [[FeedLine "Killed"]; [FeedEof]]
                  {| proc := {| returncode := None;
                                stdout := Some {| buffer := []; eof := false |};
                                stdin := Some [] |};
                     daemon := {| DaemonProcess.finalize :=
                                    {| DaemonProcess.alive := true |} |} |}))
      = Raised e).
Proof.
  apply (@X2_closed_stream_never_hangs literal_json).
  - eexists. split; [reflexivity|]. right. cbn. auto.
  - cbn. lia.
Defined.

End DaemonPipeLiveness.

(** ** What one side puts, the other side gets *)

Module WireFacts.
Import Wire.

Section WithJson.
Context {J : JsonModule}.

Lemma decoded_on_wire (msgs : list json) :
  Forall survives msgs -> decoded (map on_wire msgs) = msgs.
Proof.
  induction 1 as [ | m msgs Hm _ IH]; cbn [map decoded]; [reflexivity|].
  unfold survives in Hm. rewrite Hm, IH. reflexivity.
Qed.

Lemma on_wire_well_formed (msgs : list json) :
  Forall survives msgs -> Forall message_or_noise (map on_wire msgs).
Proof.
  induction 1 as [ | m msgs Hm _ IH]; cbn [map]; constructor; [|exact IH].
  intros e He. unfold survives in Hm. congruence.
Qed.


Lemma worker_puts_appends (msgs : list json) :
  forall ls : list string,
    worker_puts msgs (Some ls)
    = (map (fun _ => Ok tt) msgs, Some (ls ++ map on_wire msgs)).
Proof.
  induction msgs as [ | m msgs IH]; intro ls; cbn [worker_puts map].
  - rewrite app_nil_r. reflexivity.
  - cbn [ChildPipe.put]. rewrite IH, <- app_assoc. reflexivity.
Qed.


(** *** A worker that waits for readiness, and lines that came at once *)











(** X4.  Messages the worker puts on its standard output are written
    one line each, and when these lines reach a healthy controller, in
    whatever batches, its successive reads return exactly these
    messages in the order they were put, and then wait. *)
Theorem X4_worker_to_controller
      (msgs : list json) (n fuel : nat)
      (w : DaemonPipe.world) (self : DaemonPipe.t) :
  DaemonPipe.healthy (DaemonPipe.proc self) ->
  DaemonPipe.calm w ->
  Some (DaemonPipe.pending w (DaemonPipe.proc self))
  = snd (worker_puts msgs (Some [])) ->
  Forall survives msgs ->
  (List.length msgs < fuel)%nat ->
  fst (worker_puts msgs (Some [])) = map (fun _ => Ok tt) msgs /\
  DaemonPipe.drain n fuel w self
  = map Returned (firstn n msgs)
    ++ (if (List.length msgs <? n)%nat then [Suspended] else []).
Proof.
  intros Hp Hw Hlines Hmsgs Hfuel.
  rewrite worker_puts_appends in *. cbn [fst snd app] in *.
  injection Hlines as Hlines. split; [reflexivity|].
  rewrite (DaemonPipeOrder.drain_in_order n fuel w self Hp Hw).
  - rewrite Hlines, decoded_on_wire by exact Hmsgs. reflexivity.
  - rewrite Hlines. now apply on_wire_well_formed.
  - rewrite Hlines, length_map. exact Hfuel.
Qed.

End WithJson.


Lemma X4_witness :
  DaemonPipe.drain (J := literal_json) 3 4
    [[DaemonPipe.FeedLine ("false" ++ newline)%string];
     [DaemonPipe.FeedLine ("{}" ++ newline)%string]]
    {| DaemonPipe.proc :=
         {| DaemonPipe.returncode := None;
            DaemonPipe.stdout := Some {| DaemonPipe.buffer := [];
                                         DaemonPipe.eof := false |};
            DaemonPipe.stdin := Some [] |};
       DaemonPipe.daemon :=
         {| DaemonProcess.finalize := {| DaemonProcess.alive := true |} |} |}
  = [Returned (JBool false); Returned (JDict []); Suspended].
Proof.
  apply (@X4_worker_to_controller literal_json [JBool false; JDict []] 3%nat 4%nat
           [[DaemonPipe.FeedLine ("false" ++ newline)%string];
            [DaemonPipe.FeedLine ("{}" ++ newline)%string]]).
  - split; [reflexivity|]. eexists. split; reflexivity.
  - repeat constructor; eexists; reflexivity.
  - reflexivity.
  - repeat constructor.
  - cbn. lia.
Defined.

End WireFacts.

Module DaemonPipeScopeExamples.
Import DaemonPipeScope.

(** The worker has exited: the read inside the block raises the
    terminal condition, the block ends quietly and nothing is sent to
    the dead process. *)
Lemma X1_witness :
  fst (with_pipe (receive (J := literal_json) 1 [])
         {| pipe := {| DaemonPipe.proc :=
                         {| DaemonPipe.returncode := Some 0;
                            DaemonPipe.stdout :=
                              Some {| DaemonPipe.buffer := []; DaemonPipe.eof := true |};
                            DaemonPipe.stdin := Some [] |};
                       DaemonPipe.daemon :=
                         {| DaemonProcess.finalize := {| DaemonProcess.alive := true |} |} |};
            fault := None; signals := 0 |})
  = Returned None /\
  signals
    (snd (with_pipe (receive (J := literal_json) 1 [])
            {| pipe := {| DaemonPipe.proc :=
                            {| DaemonPipe.returncode := Some 0;
                               DaemonPipe.stdout :=
                                 Some {| DaemonPipe.buffer := []; DaemonPipe.eof := true |};
                               DaemonPipe.stdin := Some [] |};
                          DaemonPipe.daemon :=
                            {| DaemonProcess.finalize := {| DaemonProcess.alive := true |} |} |};
               fault := None; signals := 0 |}))
  = 0%nat.
Proof.
  destruct (DaemonPipeScopeFacts.X1_with_block_releases_and_filters
              (receive (J := literal_json) 1 [])
              {| pipe := {| DaemonPipe.proc :=
                              {| DaemonPipe.returncode := Some 0;
                                 DaemonPipe.stdout :=
                                   Some {| DaemonPipe.buffer := []; DaemonPipe.eof := true |};
                                 DaemonPipe.stdin := Some [] |};
                            DaemonPipe.daemon :=
                              {| DaemonProcess.finalize := {| DaemonProcess.alive := true |} |} |};
                 fault := None; signals := 0 |})
    as (_ & Hquiet & _ & Hrelease).
  split.
  - apply Hquiet. reflexivity.
  - destruct Hrelease as (_ & _ & Hsig).
    + right. eexists. reflexivity.
    + exact Hsig.
Defined.

End DaemonPipeScopeExamples.

(** ** The synchronous read of the worker *)

Module ChildPipeGetFacts.
Import ChildPipe.

Section WithJson.
Context {J : JsonModule}.

Lemma get_loop_skips (k : nat) :
  forall (fuel : nat) (f : TextIO) (r : result json),
    (forall i, (i < k)%nat ->
               json_loads (lines f (pos f + i)) = Raise JSONDecodeError) ->
    json_loads (lines f (pos f + k)) = r ->
    r <> Raise JSONDecodeError ->
    (k < fuel)%nat ->
    get_loop fuel f
    = (match r with Ok m => Returned m | Raise e => Raised e end,
       {| lines := lines f; pos := pos f + S k |},
       repeat ReadInline (S k)).
Proof.
  induction k as [ | k IH]; intros fuel f r Hnoise Hr Hne Hfuel;
    (destruct fuel as [ | fuel]; [lia|]); cbn [get_loop]; unfold readline.
  - rewrite Nat.add_0_r in Hr. rewrite Hr, Nat.add_1_r.
    destruct r as [m | e]; [reflexivity|].
    destruct e; try reflexivity. congruence.
  - pose proof (Hnoise 0%nat ltac:(lia)) as H0. rewrite Nat.add_0_r in H0.
    rewrite H0.
    rewrite (IH fuel {| lines := lines f; pos := S (pos f) |} r).
    + cbn [lines pos repeat].
      replace (S (pos f) + S k)%nat with (pos f + S (S k))%nat by lia.
      reflexivity.
    + intros i Hi. cbn [lines pos].
      replace (S (pos f) + i)%nat with (pos f + S i)%nat by lia.
      apply Hnoise. lia.
    + cbn [lines pos]. replace (S (pos f) + k)%nat with (pos f + S k)%nat by lia.
      exact Hr.
    + exact Hne.
    + lia.
Qed.

(** X5.  The synchronous [get] reads line after line on the calling
    thread, drops the lines that raise [JSONDecodeError], and stops at
    the first line that does not: it returns the message decoded from
    it, or lets the exception [loads] raised on it through.  It has then
    read exactly the dropped lines and that one. *)
Theorem X5_sync_get_first_message
      (k fuel : nat) (self : t) (f : TextIO) :
  (forall i, (i < k)%nat ->
             json_loads (lines f (pos f + i)) = Raise JSONDecodeError) ->
  (k < fuel)%nat ->
  (forall m, json_loads (lines f (pos f + k)) = Ok m ->
             get fuel self (Some f)
             = (Returned m, Some {| lines := lines f; pos := pos f + S k |},
                repeat ReadInline (S k))) /\
  (forall e, json_loads (lines f (pos f + k)) = Raise e ->
             e <> JSONDecodeError ->
             get fuel self (Some f)
             = (Raised e, Some {| lines := lines f; pos := pos f + S k |},
                repeat ReadInline (S k))).
Proof.
  intros Hnoise Hfuel. split.
  - intros m Hm. unfold get.
    rewrite (get_loop_skips k fuel f (Ok m) Hnoise Hm ltac:(discriminate) Hfuel).
    reflexivity.
  - intros e He Hne. unfold get.
    rewrite (get_loop_skips k fuel f (Raise e) Hnoise He ltac:(congruence) Hfuel).
    reflexivity.
Qed.

End WithJson.

Lemma X5_witness :
  get (J := literal_json) 5 {| loop := None; stdin_event := None |}
      (Some (of_list ["DEBUG starting"; ""; ("[]" ++ newline)%string;
                      ("null" ++ newline)%string]))
  = (Returned (JList []),
     Some {| lines := lines (of_list ["DEBUG starting"; "";
                                      ("[]" ++ newline)%string;
                                      ("null" ++ newline)%string]);
             pos := 0 + 3 |},
     repeat ReadInline 3).
Proof.
  destruct (@X5_sync_get_first_message literal_json 2%nat 5%nat
              {| loop := None; stdin_event := None |}
              (of_list ["DEBUG starting"; ""; ("[]" ++ newline)%string;
                        ("null" ++ newline)%string]))
    as [Hmsg _].
  - intros i Hi. destruct i as [ | [ | i]]; [reflexivity | reflexivity | lia].
  - lia.
  - apply Hmsg. reflexivity.
Defined.

End ChildPipeGetFacts.

(** ** The cached display of a timestamp *)

Module TimestampCacheFacts.
Import Timestamp.

Section Display.
Variable datetime : Type.
Variable fromtimestamp : Z -> result datetime.
Variable strftime : datetime -> string -> result string.

Lemma display_caches (self : t) (format : result string) :
  exists s,
    display datetime fromtimestamp strftime self format
    = (Ok s, {| value := value self; _display := Some s |}).
Proof.
  unfold display. destruct self as [v [s | ]]; cbn [_display value].
  - now exists s.
  - destruct (v =? 0); [now eexists|].
    destruct (d <- fromtimestamp v;; fmt <- format;; strftime d fmt);
      cbn; now eexists.
Qed.

(** X6.  A display once read is kept: later reads return the same
    string and leave the object alone, whatever the format has become,
    until [update] is called; [update()] without a value empties the
    cache, so that the next read formats the same epoch afresh. *)
Theorem X6_display_is_cached_until_update
      (self : t) (format later : result string) :
  let first := display datetime fromtimestamp strftime self format in
  display datetime fromtimestamp strftime (snd first) later
  = (fst first, snd first) /\
  update (snd first) None = Ok {| value := value self; _display := None |}.
Proof.
  cbv zeta. destruct (display_caches self format) as [s ->]. cbn [fst snd].
  split; reflexivity.
Qed.

End Display.

Example stale_until_update :
  let t0 := {| value := 86400; _display := None |} in
  let t1 := snd (display Z sample_fromtimestamp sample_strftime t0 (Ok "%d/%m")) in
  (fst (display Z sample_fromtimestamp sample_strftime t1 (Ok "%s")),
   t2 <- update t1 None ;;
   fst (display Z sample_fromtimestamp sample_strftime t2 (Ok "%s")))
  = (Ok "Bad format!", Ok "86400").
Proof. reflexivity. Qed.

End TimestampCacheFacts.

(** ** Facts about the text helpers *)

Module TextFacts.

Lemma has_char_app (c : ascii) (a b : string) :
  has_char c (a ++ b) = has_char c a || has_char c b.
Proof.
  induction a as [ | x a IH]; cbn; [reflexivity|].
  destruct (Ascii.eqb x c); [reflexivity | exact IH].
Qed.

Lemma replace_char_removes (c : ascii) (by_ : string) (s : string) :
  has_char c by_ = false -> has_char c (replace_char c by_ s) = false.
Proof.
  intro Hby. induction s as [ | x s IH]; cbn; [reflexivity|].
  destruct (Ascii.eqb x c) eqn:E.
  - rewrite has_char_app, Hby, IH. reflexivity.
  - cbn. rewrite E. exact IH.
Qed.

Lemma replace_char_keeps_out (c d : ascii) (by_ : string) (s : string) :
  has_char c by_ = false -> has_char c s = false ->
  has_char c (replace_char d by_ s) = false.
Proof.
  intro Hby. induction s as [ | x s IH]; cbn; [reflexivity|].
  destruct (Ascii.eqb x c) eqn:E; [discriminate|]. intro Hs.
  destruct (Ascii.eqb x d).
  - rewrite has_char_app, Hby, (IH Hs). reflexivity.
  - cbn. rewrite E. exact (IH Hs).
Qed.

Lemma replace_char_absent (c : ascii) (by_ : string) (s : string) :
  has_char c s = false -> replace_char c by_ s = s.
Proof.
  induction s as [ | x s IH]; cbn; [reflexivity|].
  destruct (Ascii.eqb x c); [discriminate|]. intro H. now rewrite IH.
Qed.

Lemma replace_char_present (c : ascii) (by_ : string) (s : string) :
  has_char c by_ = false -> replace_char c by_ s = s -> has_char c s = false.
Proof.
  intros Hby E. rewrite <- E. now apply replace_char_removes.
Qed.

Lemma split_on_nonempty (c : ascii) (s : string) : split_on c s <> [].
Proof.
  induction s as [ | x s IH]; cbn; [discriminate|].
  destruct (Ascii.eqb x c); [discriminate|].
  destruct (split_on c s); discriminate.
Qed.

Lemma split_on_app (c : ascii) (a b : string) :
  split_on c (a ++ String c b) = split_on c a ++ split_on c b.
Proof.
  induction a as [ | x a IH]; cbn.
  - rewrite Ascii.eqb_refl. reflexivity.
  - destruct (Ascii.eqb x c); [now rewrite IH|].
    rewrite IH. pose proof (split_on_nonempty c a) as Hne.
    destruct (split_on c a); [congruence | reflexivity].
Qed.

Lemma split_on_fields (c : ascii) (s : string) :
  Forall (fun w => has_char c w = false) (split_on c s).
Proof.
  induction s as [ | x s IH]; cbn.
  - repeat constructor.
  - destruct (Ascii.eqb x c) eqn:E; [constructor; [reflexivity | exact IH]|].
    destruct (split_on c s) as [ | w ws]; [repeat constructor; cbn; now rewrite E|].
    inversion IH; subst. constructor; [cbn; now rewrite E | assumption].
Qed.

Lemma split_on_absent (c : ascii) (s : string) :
  has_char c s = false -> split_on c s = [s].
Proof.
  induction s as [ | x s IH]; cbn; [reflexivity|].
  destruct (Ascii.eqb x c); [discriminate|]. intro H. now rewrite IH.
Qed.

Lemma join_app (a b : list string) : join (a ++ b) = (join a ++ join b)%string.
Proof.
  induction a as [ | w a IH]; cbn; [reflexivity|].
  rewrite IH. clear. induction w as [ | x w IH]; cbn; [reflexivity | now rewrite IH].
Qed.

Lemma string_app_assoc (a b c : string) :
  ((a ++ b) ++ c)%string = (a ++ (b ++ c))%string.
Proof. induction a as [ | x a IH]; cbn; [reflexivity | now rewrite IH]. Qed.

Lemma string_app_nil_r (a : string) : (a ++ "")%string = a.
Proof. induction a as [ | x a IH]; cbn; [reflexivity | now rewrite IH]. Qed.

Lemma string_length_app (a b : string) :
  String.length (a ++ b) = (String.length a + String.length b)%nat.
Proof. induction a as [ | x a IH]; cbn; [reflexivity | now rewrite IH]. Qed.

Lemma drop_last_app (a d : string) : drop_last (String.length d) (a ++ d) = a.
Proof.
  unfold drop_last. rewrite string_length_app.
  replace (String.length a + String.length d - String.length d)%nat
    with (String.length a) by lia.
  induction a as [ | x a IH]; cbn.
  - destruct d; reflexivity.
  - now rewrite IH.
Qed.

End TextFacts.

(** ** [FileDownload.delete] *)

Module FileDownloadFacts.
Import FileDownload.

Lemma delete_body_own_files (E : env) (self : t) :
  forall o, In o (snd (delete_body E self)) ->
            (exists dir, extracted self = Some dir /\ o = Rmtree dir) \/
            (exists file, path self = Some file /\ o = Unlink file).
Proof.
  unfold delete_body. intros o.
  destruct (get_event_loop E); [|intros []].
  destruct (extracted self) as [dir | ].
  - destruct (rmtree E dir); cbn [snd].
    + destruct (path self) as [file | ]; cbn [snd app In].
      * intros [<- | [<- | []]]; [left | right]; eauto.
      * intros [<- | []]. left; eauto.
    + intros [<- | []]. left; eauto.
  - destruct (path self) as [file | ]; cbn [snd app In].
    + intros [<- | []]. right; eauto.
    + intros [].
Qed.

(** X7.  [delete] on a stopped download always ends in the state
    [Removed] and never raises, also when there is no event loop or
    when removing the extracted tree or the file fails; what it starts
    removing is the download's own extracted tree and file only.  On a
    download in any other state it raises [AssertionError] and touches
    nothing. *)
Theorem X7_delete_ends_removed (E : env) (self : t) :
  (state self = Stopped ->
   fst (fst (delete E self)) = Ok tt /\
   snd (fst (delete E self))
   = {| path := path self; extracted := extracted self; state := Removed |} /\
   forall o, In o (snd (delete E self)) ->
             (exists dir, extracted self = Some dir /\ o = Rmtree dir) \/
             (exists file, path self = Some file /\ o = Unlink file)) /\
  (state self <> Stopped ->
   delete E self = (Raise AssertionError, self, [])).
Proof.
  split.
  - intro H. unfold delete. rewrite H. cbn [State_eqb].
    pose proof (delete_body_own_files E self) as Hops.
    destruct (delete_body E self) as [r ops]. cbn [fst snd] in *.
    repeat split. exact Hops.
  - intro H. unfold delete.
    destruct (state self); try reflexivity. congruence.
Qed.

Lemma X7_witness :
  fst (delete {| get_event_loop := Ok tt;
                 rmtree := fun _ => Ok tt;
                 unlink := fun _ => Raise OSError |}
              {| path := Some "game.zip"; extracted := Some "game";
                 state := Stopped |})
  = (Ok tt, {| path := Some "game.zip"; extracted := Some "game";
               state := Removed |}) /\
  delete {| get_event_loop := Ok tt;
            rmtree := fun _ => Ok tt;
            unlink := fun _ => Raise OSError |}
         {| path := Some "game.zip"; extracted := None; state := Downloading |}
  = (Raise AssertionError,
     {| path := Some "game.zip"; extracted := None; state := Downloading |}, []).
Proof.
  split.
  - destruct (X7_delete_ends_removed
                {| get_event_loop := Ok tt;
                   rmtree := fun _ => Ok tt;
                   unlink := fun _ => Raise OSError |}
                {| path := Some "game.zip"; extracted := Some "game";
                   state := Stopped |}) as [H _].
    destruct (H eq_refl) as (H1 & H2 & _).
    destruct (delete _ _) as [[r s] ops]. cbn [fst snd] in *.
    rewrite H1, H2. reflexivity.
  - apply X7_delete_ends_removed. discriminate.
Defined.

End FileDownloadFacts.

(** ** The attribute names of [IntEnumHack] *)

Module IntEnumHackFacts.
Import IntEnumHack TextFacts.

Lemma cleaned_first (c : ascii) (r : string) :
  is_digit c = false ->
  starts_with_digit (replace_char "-" "__" (replace_char " " "_" (String c r)))
  = false.
Proof.
  intro Hc. cbn [replace_char].
  destruct (Ascii.eqb c " ") eqn:E1; [reflexivity|].
  cbn [replace_char]. destruct (Ascii.eqb c "-") eqn:E2; [reflexivity|].
  exact Hc.
Qed.

(** X8.  The attribute name [IntEnumHack] derives from a member name has
    no space and no hyphen and does not start with a digit; it is the
    member name itself exactly when that already has none of these, so
    that an alias is added exactly for the names that need one.  Only
    the empty name has no derived name. *)
Theorem X8_alias_is_usable (name n : string) :
  new_name name = Some n ->
  has_char " " n = false /\
  has_char "-" n = false /\
  starts_with_digit n = false /\
  (n = name <->
   has_char " " name = false /\ has_char "-" name = false /\
   starts_with_digit name = false) /\
  (alias name = None <-> n = name).
Proof.
  destruct name as [ | c r]; [discriminate|].
  unfold new_name. intros [= <-].
  set (body := replace_char "-" "__" (replace_char " " "_" (String c r))).
  assert (Hsp : has_char " " body = false).
  { apply replace_char_keeps_out; [reflexivity|].
    apply replace_char_removes. reflexivity. }
  assert (Hhy : has_char "-" body = false).
  { apply replace_char_removes. reflexivity. }
  assert (H1 : has_char " " ((if is_digit c then "_" else "") ++ body) = false).
  { rewrite has_char_app, Hsp. destruct (is_digit c); reflexivity. }
  assert (H2 : has_char "-" ((if is_digit c then "_" else "") ++ body) = false).
  { rewrite has_char_app, Hhy. destruct (is_digit c); reflexivity. }
  assert (H3 : starts_with_digit ((if is_digit c then "_" else "") ++ body) = false).
  { destruct (is_digit c) eqn:Hc; [reflexivity|]. now apply cleaned_first. }
  split; [exact H1|]. split; [exact H2|]. split; [exact H3|]. split.
  - split.
    + intro E. rewrite <- E. auto.
    + intros (Ha & Hb & Hc). cbn [starts_with_digit] in Hc. rewrite Hc.
      subst body.
      change (("" ++ replace_char "-" "__" (replace_char " " "_" (String c r)))%string
              = String c r).
      rewrite (replace_char_absent " " "_" _ Ha).
      rewrite (replace_char_absent "-" "__" _ Hb). reflexivity.
  - unfold alias, new_name. fold body.
    destruct (String.eqb_spec ((if is_digit c then "_" else "") ++ body)
                              (String c r)) as [E | E].
    + split; auto.
    + split; [discriminate|]. intro E'. exfalso. apply E. exact E'.
Qed.

Example tag_2d_game : alias "2d-game" = Some "_2d__game".
Proof. reflexivity. Qed.

Example filter_exe_state : alias "Exe State" = Some "Exe_State".
Proof. reflexivity. Qed.

Example status_normal : alias "Normal" = None.
Proof. reflexivity. Qed.

Lemma X8_witness :
  has_char " " "_1_special__name" = false /\
  has_char "-" "_1_special__name" = false /\
  starts_with_digit "_1_special__name" = false.
Proof.
  destruct (X8_alias_is_usable "1 special-name" "_1_special__name" eq_refl)
    as (H1 & H2 & H3 & _).
  auto.
Defined.

End IntEnumHackFacts.

(** ** The short name of a label *)

Module LabelNameFacts.
Import LabelName.

Lemma split_nonempty (sep : codepoint) (s : text) : split sep s <> [].
Proof.
  induction s as [ | x s IH]; cbn; [discriminate|].
  destruct (N.eqb x sep); [discriminate|].
  destruct (split sep s); discriminate.
Qed.

Lemma split_app (sep : codepoint) (a b : text) :
  split sep (a ++ sep :: b) = split sep a ++ split sep b.
Proof.
  induction a as [ | x a IH]; cbn.
  - now rewrite N.eqb_refl.
  - destruct (N.eqb x sep); [now rewrite IH|].
    rewrite IH. destruct (split sep a) as [ | w ws] eqn:E; [|reflexivity].
    now apply split_nonempty in E.
Qed.

Lemma split_fields (sep : codepoint) (s : text) :
  Forall (fun w => ~ In sep w) (split sep s).
Proof.
  induction s as [ | x s IH]; cbn.
  - constructor; [intros [] | constructor].
  - destruct (N.eqb_spec x sep) as [-> | Hne].
    + constructor; [intros [] | exact IH].
    + destruct (split sep s) as [ | w ws]; [repeat constructor; intros [H | []]; auto|].
      inversion IH as [ | ? ? Hw Hws]; subst.
      constructor; [|exact Hws]. intros [H | H]; auto.
Qed.

Lemma split_absent (sep : codepoint) (s : text) :
  ~ In sep s -> split sep s = [s].
Proof.
  induction s as [ | x s IH]; cbn; [reflexivity|].
  intro H. destruct (N.eqb_spec x sep) as [-> | Hne]; [exfalso; auto|].
  rewrite IH by auto. reflexivity.
Qed.

Lemma initials_no_space (ws : list text) :
  Forall (fun w => ~ In space w) ws ->
  ~ In space (List.concat (map first_char ws)).
Proof.
  induction 1 as [ | w ws Hw _ IH]; cbn; [auto|].
  intro H. apply in_app_or in H. destruct H as [H | H]; [|auto].
  apply Hw. destruct w as [ | x w]; [destruct H|].
  cbn in H. destruct H as [<- | []]. now left.
Qed.

(** X9.  The short name of a label is made of the first characters of
    the words of its name, a character being a code point of the text:
    it never contains a space and has at most one character per word,
    the short name of two names put together with a space is the two
    short names put together, and a name of one word gives its first
    character, whatever that character is. *)
Theorem X9_short_name_initials :
  (forall name, ~ In space (short_name name)) /\
  (forall name,
      (List.length (short_name name) <= List.length (split space name))%nat) /\
  (forall a b, short_name (a ++ space :: b) = short_name a ++ short_name b) /\
  (forall c word, ~ In space (c :: word) -> short_name (c :: word) = [c]) /\
  short_name [] = [].
Proof.
  split; [|split; [|split; [|split]]].
  - intro name. apply initials_no_space, split_fields.
  - intro name. unfold short_name.
    induction (split space name) as [ | w ws IH]; cbn; [lia|].
    rewrite length_app. destruct w; cbn; lia.
  - intros a b. unfold short_name.
    rewrite split_app, map_app, concat_app. reflexivity.
  - intros c word H. unfold short_name. rewrite (split_absent _ _ H).
    reflexivity.
  - reflexivity.
Qed.

Example short_name_of_two_words :
  short_name (of_ascii "Must play") = of_ascii "Mp".
Proof. reflexivity. Qed.

Example short_name_double_space :
  short_name (of_ascii "a  b ") = of_ascii "ab".
Proof. reflexivity. Qed.

(** A name that starts with a character outside ASCII, the capital E
    with acute accent of "Ete" (code point 201): the short name is
    that character. *)
Lemma X9_witness : short_name [201; 116; 233]%N = [201%N].
Proof.
  destruct X9_short_name_initials as (_ & _ & _ & H & _).
  apply (H 201%N [116; 233]%N). cbn. intuition discriminate.
Defined.

End LabelNameFacts.

(** ** Printing a search expression *)

Module SearchLogicFacts.
Import SearchLogic TextFacts.

Lemma each_appends (delim : string) (rest : list t) :
  forall output : string,
    (fix each (output : string) (rest : list t) : string :=
       match rest with
       | [] => output
       | node :: rest' => each (output ++ (__str__ node ++ delim))%string rest'
       end) output rest
    = (output ++ join (map (fun node => (__str__ node ++ delim)%string) rest))%string.
Proof.
  induction rest as [ | node rest IH]; intro output; cbn [map join].
  - now rewrite string_app_nil_r.
  - rewrite IH, string_app_assoc. reflexivity.
Qed.

Lemma join_delimited (delim : string) (ws : list string) :
  ws <> [] ->
  join (map (fun w => (w ++ delim)%string) ws)
  = (join_with delim ws ++ delim)%string.
Proof.
  induction ws as [ | w ws IH]; [congruence|]. intros _.
  destruct ws as [ | w' ws]; cbn [map join join_with].
  - now rewrite string_app_nil_r.
  - cbn [map join] in IH. rewrite IH by discriminate.
    rewrite !string_app_assoc. reflexivity.
Qed.

(** X10.  A search node without children prints as its head: "not "
    when inverted, the token, the comparison sign.  A node with
    children prints its head and then its children, each printed in
    turn, with " or " between them when its logic is "|" and " and "
    otherwise, with no separator after the last; more than one child
    are put in parentheses, a single one is not. *)
Theorem X10_str_joins_children (n : t) :
  __str__ n
  = match nodes n with
    | [] => head n
    | [only] => (head n ++ __str__ only)%string
    | children =>
        (head n ++ "("
         ++ join_with (node_delim (logic n)) (map __str__ children) ++ ")")%string
    end.
Proof.
  destruct n as [ns tk lg ty inv]. cbn [nodes logic].
  destruct ns as [ | first ns]; [reflexivity|].
  cbn [__str__]. rewrite each_appends.
  destruct ns as [ | second ns].
  - cbn [List.length Nat.ltb Nat.leb map join].
    rewrite string_app_nil_r, <- string_app_assoc, drop_last_app. reflexivity.
  - rewrite <- (map_map __str__ (fun w => (w ++ node_delim lg)%string)).
    rewrite join_delimited by (cbn [map]; discriminate).
    cbn [List.length Nat.ltb Nat.leb].
    rewrite <- string_app_assoc, drop_last_app.
    cbn [map join_with]. rewrite !string_app_assoc. reflexivity.
Qed.

Example printed_query :
  __str__ (mk [mk [] (Some "rating") "&" ">=" false;
               mk [mk [] (Some "unity") "&" "&" false;
                   mk [] (Some "renpy") "&" "&" false]
                  None "|" "&" true]
              None "&" "&" false)
  = "(rating>= and not (unity or renpy))".
Proof. reflexivity. Qed.

End SearchLogicFacts.

(** ** The registry of labels *)

Module LabelFacts.
Import Label.

Section WithColor.
Variable color : Type.
Variable color_eqb : color -> color -> bool.
Hypothesis color_eqb_eq : forall a b, color_eqb a b = true <-> a = b.

Lemma eqb_eq (a b : t color) : eqb color_eqb a b = true <-> a = b.
Proof.
  unfold eqb. rewrite !andb_true_iff, Z.eqb_eq, String.eqb_eq, color_eqb_eq.
  destruct a, b; cbn. split.
  - intros [[-> ->] ->]. reflexivity.
  - intros [= -> -> ->]. auto.
Qed.

Lemma mem_In (self : t color) (l : list (t color)) :
  mem color_eqb self l = true <-> In self l.
Proof.
  unfold mem. rewrite existsb_exists. split.
  - intros (x & Hin & Hx). apply eqb_eq in Hx. now subst.
  - intro H. exists self. split; [exact H|]. now apply eqb_eq.
Qed.

Lemma mem_false (self : t color) (l : list (t color)) :
  mem color_eqb self l = false <-> ~ In self l.
Proof.
  rewrite <- mem_In. destruct (mem color_eqb self l); split; congruence.
Qed.

Lemma get_some (l : list (t color)) (i : Z) (x : t color) :
  get l i = Some x -> In x l /\ id x = i.
Proof.
  unfold get. intro H. apply find_some in H. now rewrite Z.eqb_eq in H.
Qed.

Lemma get_app_first (l l' : list (t color)) (i : Z) (x : t color) :
  get l i = Some x -> get (l ++ l') i = Some x.
Proof.
  unfold get. induction l as [ | y l IH]; cbn; [discriminate|].
  destruct (id y =? i); auto.
Qed.

Lemma get_app_miss (l l' : list (t color)) (i : Z) :
  get l i = None -> get (l ++ l') i = get l' i.
Proof.
  unfold get. induction l as [ | y l IH]; cbn; [reflexivity|].
  destruct (id y =? i); [discriminate | auto].
Qed.

(** X11.  [add] never drops or moves a label: it leaves the registry as
    it is when an equal label is there already and puts the label at
    the end otherwise, so the label is in the registry afterwards,
    adding it twice is adding it once, and a registry without repeated
    labels stays so.  [get] by the id of an added label then finds a
    label with that id: the one added, unless a label with the same id
    stood before it.  [get] finds nothing exactly when no label has the
    id. *)
Theorem X11_add_then_get (l : list (t color)) (self : t color) :
  (add color_eqb l self = l \/ add color_eqb l self = l ++ [self]) /\
  In self (add color_eqb l self) /\
  add color_eqb (add color_eqb l self) self = add color_eqb l self /\
  (NoDup l -> NoDup (add color_eqb l self)) /\
  (exists x, get (add color_eqb l self) (id self) = Some x /\ id x = id self) /\
  (get l (id self) = None -> get (add color_eqb l self) (id self) = Some self) /\
  (forall i, get l i = None <-> forall x, In x l -> id x <> i).
Proof.
  assert (Hin : In self (add color_eqb l self)).
  { unfold add. destruct (mem color_eqb self l) eqn:E.
    - now apply mem_In.
    - apply in_or_app. right. now left. }
  split; [|split; [exact Hin|split; [|split; [|split; [|split]]]]].
  - unfold add. destruct (mem color_eqb self l); auto.
  - unfold add at 1. apply mem_In in Hin. rewrite Hin. reflexivity.
  - intro Hnd. unfold add. destruct (mem color_eqb self l) eqn:E; [exact Hnd|].
    apply mem_false in E. apply NoDup_app; [exact Hnd | repeat constructor; auto|].
    intros x Hx [<- | []]. contradiction.
  - destruct (get (add color_eqb l self) (id self)) as [x | ] eqn:E.
    + exists x. split; [reflexivity|]. now apply get_some in E.
    + exfalso. unfold get in E.
      apply (find_none _ _ E) in Hin. now rewrite Z.eqb_refl in Hin.
  - intro Hmiss. unfold add. destruct (mem color_eqb self l) eqn:E.
    + apply mem_In in E. unfold get in Hmiss.
      apply (find_none _ _ Hmiss) in E. now rewrite Z.eqb_refl in E.
    + rewrite (get_app_miss _ _ _ Hmiss). unfold get; cbn.
      now rewrite Z.eqb_refl.
  - intro i. unfold get. split.
    + intros H x Hx. apply (find_none _ _ H) in Hx. now apply Z.eqb_neq.
    + intro H. destruct (find (fun x => id x =? i) l) as [x | ] eqn:E;
        [|reflexivity].
      apply find_some in E. destruct E as [Hx Hi]. apply Z.eqb_eq in Hi.
      now apply H in Hx.
Qed.

Lemma list_remove_filter (self : t color) (l : list (t color)) :
  filter (fun x => negb (eqb color_eqb x self)) (list_remove color_eqb self l)
  = filter (fun x => negb (eqb color_eqb x self)) l.
Proof.
  induction l as [ | x l IH]; cbn; [reflexivity|].
  destruct (eqb color_eqb x self) eqn:E; cbn; [reflexivity|].
  rewrite E. cbn. now rewrite IH.
Qed.

Lemma list_remove_shorter (self : t color) (l : list (t color)) :
  mem color_eqb self l = true ->
  S (List.length (list_remove color_eqb self l)) = List.length l.
Proof.
  unfold mem. induction l as [ | x l IH]; cbn; [discriminate|].
  destruct (eqb color_eqb x self); cbn; [reflexivity|].
  intro H. now rewrite IH.
Qed.

Lemma filter_absent (self : t color) (l : list (t color)) :
  mem color_eqb self l = false ->
  filter (fun x => negb (eqb color_eqb x self)) l = l.
Proof.
  unfold mem. induction l as [ | x l IH]; cbn; [reflexivity|].
  destruct (eqb color_eqb x self); cbn; [discriminate|].
  intro H. now rewrite IH.
Qed.

Lemma remove_loop_filter (fuel : nat) :
  forall (l : list (t color)) (self : t color),
    (List.length l <= fuel)%nat ->
    remove_loop color_eqb fuel l self
    = Some (filter (fun x => negb (eqb color_eqb x self)) l).
Proof.
  induction fuel as [ | fuel IH]; intros l self Hlen.
  - destruct l; [reflexivity | cbn in Hlen; lia].
  - cbn [remove_loop]. destruct (mem color_eqb self l) eqn:E.
    + pose proof (list_remove_shorter self l E) as Hs.
      rewrite IH by lia. now rewrite list_remove_filter.
    + now rewrite filter_absent.
Qed.

(** X12.  The loop of [remove] ends, after at most as many rounds as
    the registry has labels, and leaves the registry without any label
    equal to the removed one, the others staying, in their order. *)
Theorem X12_remove_removes_all (l : list (t color)) (self : t color) :
  exists l',
    remove_loop color_eqb (List.length l) l self = Some l' /\
    l' = filter (fun x => negb (eqb color_eqb x self)) l /\
    ~ In self l' /\
    (forall x, x <> self -> (In x l' <-> In x l)) /\
    add color_eqb l' self = l' ++ [self].
Proof.
  eexists. split; [apply remove_loop_filter; lia|]. split; [reflexivity|].
  assert (Hout : ~ In self (filter (fun x => negb (eqb color_eqb x self)) l)).
  { intro H. apply filter_In in H. destruct H as [_ H].
    assert (E : eqb color_eqb self self = true) by now apply eqb_eq.
    now rewrite E in H. }
  split; [exact Hout|]. split.
  - intros x Hx. rewrite filter_In. split; [tauto|]. intro H. split; [exact H|].
    destruct (eqb color_eqb x self) eqn:E; [|reflexivity].
    apply eqb_eq in E. contradiction.
  - unfold add. apply mem_false in Hout. now rewrite Hout.
Qed.

End WithColor.

Lemma string_eqb_leibniz (a b : string) : hex_eqb a b = true <-> a = b.
Proof. apply String.eqb_eq. Qed.

Lemma X11_witness :
  get (add hex_eqb [mk 1 "Must play" "#d4202e"] (mk 2 "Later" "#808080")) 2
  = Some (mk 2 "Later" "#808080").
Proof.
  destruct (X11_add_then_get string hex_eqb string_eqb_leibniz
              [mk 1 "Must play" "#d4202e"] (mk 2 "Later" "#808080"))
    as (_ & _ & _ & _ & _ & H & _).
  apply H. reflexivity.
Defined.

Lemma X12_witness :
  exists l',
    remove_loop hex_eqb 3
      [mk 1 "Must play" "#d4202e"; mk 2 "Later" "#808080";
       mk 1 "Must play" "#d4202e"]
      (mk 1 "Must play" "#d4202e")
    = Some l' /\ l' = [mk 2 "Later" "#808080"].
Proof.
  destruct (X12_remove_removes_all string hex_eqb string_eqb_leibniz
              [mk 1 "Must play" "#d4202e"; mk 2 "Later" "#808080";
               mk 1 "Must play" "#d4202e"]
              (mk 1 "Must play" "#d4202e"))
    as (l' & H1 & H2 & _).
  exists l'. split; [exact H1 | exact H2].
Defined.

End LabelFacts.

(** ** The positions of the tabs *)

Module TabFacts.
Import Tab.

Section WithColor.
Variable color : Type.

Lemma indices_S (i : Z) (n : nat) : indices i (S n) = i :: indices (i + 1) n.
Proof.
  unfold indices. cbn [seq map]. f_equal; [lia|].
  rewrite <- seq_shift, map_map. apply map_ext. intro k. lia.
Qed.

Lemma update_positions_indices (l : list (t color)) :
  forall i, map position (update_positions_from i l) = indices i (List.length l).
Proof.
  induction l as [ | x l IH]; intro i; [reflexivity|].
  cbn [update_positions_from map List.length]. rewrite indices_S, IH. reflexivity.
Qed.

Lemma update_positions_unplaced (l : list (t color)) :
  forall i, map unplaced (update_positions_from i l) = map unplaced l.
Proof.
  induction l as [ | x l IH]; intro i; [reflexivity|].
  cbn [update_positions_from map]. now rewrite IH.
Qed.

Lemma update_positions_fixed (l : list (t color)) :
  forall i, map position l = indices i (List.length l) ->
            update_positions_from i l = l.
Proof.
  induction l as [ | x l IH]; intro i; [reflexivity|].
  cbn [List.length map update_positions_from]. rewrite indices_S.
  intros [= Hx Hl]. rewrite (IH _ Hl). f_equal.
  destruct x; cbn in *. now subst.
Qed.

Lemma insert_perm (x : t color) (l : list (t color)) :
  Permutation (insert_by_position x l) (x :: l).
Proof.
  induction l as [ | y l IH]; cbn; [reflexivity|].
  destruct (position x <=? position y); [reflexivity|].
  rewrite IH. apply perm_swap.
Qed.

Lemma sort_perm (l : list (t color)) : Permutation (sort_by_position l) l.
Proof.
  induction l as [ | x l IH]; cbn; [reflexivity|].
  rewrite insert_perm. now constructor.
Qed.

Lemma ascending_cons (p : Z) (ps : list Z) :
  ascending (p :: ps) <-> (forall q, hd_error ps = Some q -> p <= q) /\ ascending ps.
Proof.
  destruct ps as [ | q ps]; cbn.
  - split; [intros _; split; [discriminate | exact I] | auto].
  - split.
    + intros [H1 H2]. split; [intros ? [= <-]; exact H1 | exact H2].
    + intros [H1 H2]. split; [now apply H1 | exact H2].
Qed.

Lemma insert_ascending (x : t color) (l : list (t color)) :
  ascending (map position l) ->
  ascending (map position (insert_by_position x l)).
Proof.
  induction l as [ | y l IH]; [intros _; exact I|].
  intro Hl. cbn [insert_by_position].
  destruct (position x <=? position y) eqn:E.
  - apply Z.leb_le in E. cbn [map]. split; [exact E | exact Hl].
  - apply Z.leb_gt in E. cbn [map]. apply ascending_cons.
    cbn [map] in Hl. apply ascending_cons in Hl. destruct Hl as [Hy Hl].
    split; [|now apply IH].
    intros q Hq. destruct l as [ | z l]; cbn in Hq.
    + injection Hq as <-. lia.
    + destruct (position x <=? position z) eqn:E'; cbn in Hq;
        injection Hq as <-; [lia|]. apply Hy. reflexivity.
Qed.

Lemma sort_ascending (l : list (t color)) :
  ascending (map position (sort_by_position l)).
Proof.
  induction l as [ | x l IH]; [exact I|]. cbn. now apply insert_ascending.
Qed.

Lemma sort_fixed (l : list (t color)) :
  ascending (map position l) -> sort_by_position l = l.
Proof.
  induction l as [ | x l IH]; [reflexivity|].
  intro H. cbn [map] in H. apply ascending_cons in H. destruct H as [Hx Hl].
  cbn [sort_by_position fold_right].
  change (fold_right insert_by_position [] l) with (sort_by_position l).
  rewrite (IH Hl). destruct l as [ | y l]; [reflexivity|].
  cbn [insert_by_position].
  assert (E : position x <= position y) by (apply Hx; reflexivity).
  apply Z.leb_le in E. now rewrite E.
Qed.

Lemma indices_ascending (n : nat) : forall i, ascending (indices i n).
Proof.
  induction n as [ | n IH]; intro i; [exact I|].
  rewrite indices_S. apply ascending_cons. split; [|apply IH].
  destruct n as [ | n]; [discriminate|].
  rewrite indices_S. cbn. intros q [= <-]. lia.
Qed.

(** X13.  After [sort_instances] the position of every tab is its
    index in the list, counted from zero; the tabs are the same as
    before, in the order of the positions they had (tabs of one
    position keep their order); a list that was in order keeps its
    order; and sorting again changes nothing. *)
Theorem X13_sort_instances_renumbers (l : list (t color)) :
  map position (sort_instances l) = map Z.of_nat (seq 0 (List.length l)) /\
  map unplaced (sort_instances l) = map unplaced (sort_by_position l) /\
  Permutation (sort_by_position l) l /\
  ascending (map position (sort_by_position l)) /\
  (ascending (map position l) -> map unplaced (sort_instances l) = map unplaced l) /\
  sort_instances (sort_instances l) = sort_instances l.
Proof.
  assert (Hpos : map position (sort_instances l) = indices 0 (List.length l)).
  { unfold sort_instances, update_positions.
    rewrite update_positions_indices. f_equal.
    apply Permutation_length, sort_perm. }
  split; [exact Hpos|].
  split; [apply update_positions_unplaced|].
  split; [apply sort_perm|].
  split; [apply sort_ascending|].
  split.
  - intro H. unfold sort_instances, update_positions.
    now rewrite update_positions_unplaced, sort_fixed.
  - unfold sort_instances at 1.
    assert (Hlen : List.length (sort_instances l) = List.length l).
    { rewrite <- (length_map position), Hpos. unfold indices.
      now rewrite length_map, length_seq. }
    rewrite sort_fixed.
    + unfold update_positions. apply update_positions_fixed.
      now rewrite Hlen.
    + rewrite Hpos. apply indices_ascending.
Qed.

End WithColor.

Example tabs_sorted :
  sort_instances
    [mk 7 "Playing" "play" (Some "#00ff00") 2;
     mk 3 "Backlog" "box" None 0;
     mk 9 "Dropped" "close" None 2]
  = [mk 3 "Backlog" "box" None 0;
     mk 7 "Playing" "play" (Some "#00ff00") 1;
     mk 9 "Dropped" "close" None 2].
Proof. reflexivity. Qed.

Lemma X13_witness :
  map unplaced
    (sort_instances [mk 3 "Backlog" "box" (@None string) 4;
                     mk 7 "Playing" "play" None 9])
  = map unplaced [mk 3 "Backlog" "box" (@None string) 4;
                  mk 7 "Playing" "play" None 9].
Proof.
  destruct (X13_sort_instances_renumbers string
              [mk 3 "Backlog" "box" None 4; mk 7 "Playing" "play" None 9])
    as (_ & _ & _ & _ & H & _).
  apply H. cbn. lia.
Defined.

End TabFacts.

(** ** Browsers *)

Module BrowserFacts.
Import Browser.

Lemma count_char_app (c : ascii) (a b : string) :
  count_char c (a ++ b) = (count_char c a + count_char c b)%nat.
Proof. induction a as [ | x a IH]; cbn; [reflexivity | rewrite IH; lia]. Qed.

Lemma count_char_absent (c : ascii) (s : string) :
  has_char c s = false -> count_char c s = 0%nat.
Proof.
  induction s as [ | x s IH]; cbn; [reflexivity|].
  destruct (Ascii.eqb x c); [discriminate | exact IH].
Qed.

Lemma uint_no_hash (d : Decimal.uint) :
  has_char "#" (NilEmpty.string_of_uint d) = false.
Proof. induction d; cbn; auto. Qed.

Lemma str_int_no_hash (z : Z) : has_char "#" (str_int z) = false.
Proof.
  unfold str_int.
  destruct (Z.to_int z) as [d | d]; cbn [NilZero.string_of_int];
    destruct d; cbn; auto using uint_no_hash.
Qed.

Lemma too_few_hashes (b d1 d2 : string) :
  has_char "#" d1 = false -> has_char "#" d2 = false ->
  ("##" ++ d1)%string <> (b ++ "###" ++ d2)%string.
Proof.
  intros H1 H2 E. apply (f_equal (count_char "#")) in E.
  rewrite !count_char_app in E. cbn in E.
  rewrite (count_char_absent _ _ H1), (count_char_absent _ _ H2) in E. lia.
Qed.

Lemma hashed_split (a : string) :
  forall b d1 d2 : string,
    has_char "#" d1 = false -> has_char "#" d2 = false ->
    (a ++ "###" ++ d1)%string = (b ++ "###" ++ d2)%string ->
    a = b /\ d1 = d2.
Proof.
  induction a as [ | x a IH]; intros [ | y b] d1 d2 H1 H2 E.
  - cbn in E. injection E as E. auto.
  - exfalso. cbn in E. injection E as _ E.
    now apply (too_few_hashes b d1 d2 H1 H2).
  - exfalso. cbn in E. injection E as _ E. symmetry in E.
    now apply (too_few_hashes a d2 d1 H2 H1).
  - cbn in E. injection E as -> E.
    destruct (IH b d1 d2 H1 H2 E) as [-> ->]. auto.
Qed.

Lemma first_private_arg_short (table : list (string * string)) (name : string) :
  first_private_arg table name = [] \/
  exists search arg,
    In (search, arg) table /\ contains search name = true /\
    first_private_arg table name = [arg].
Proof.
  induction table as [ | [search arg] table IH]; cbn; [now left|].
  destruct (contains search name) eqn:E.
  - right. exists search, arg. auto.
  - destruct IH as [IH | (s & a & Hin & Hc & Ha)]; [now left|].
    right. exists s, a. auto.
Qed.

(** X14.  The hashed name of a browser tells its name and its hash:
    two browsers with one hashed name have the same name and the same
    hash, so that the keys of the registry never confuse two browsers.
    A browser is not both the integrated and the custom one, and it
    gets at most one private-mode argument, that of an entry of the
    table whose text occurs in its name. *)
Theorem X14_hashed_name_identifies
      (make_hash : string -> Z)
      (name1 name2 : string) (hash1 hash2 : option Z)
      (args1 args2 : option (list string)) :
  let b1 := new make_hash name1 hash1 args1 in
  let b2 := new make_hash name2 hash2 args2 in
  (hashed_name b1 = hashed_name b2 -> name b1 = name b2 /\ hash b1 = hash b2) /\
  (integrated b1 && custom b1 = false) /\
  (private_arg b1 = [] \/
   exists search arg,
     In (search, arg) private_args /\ contains search name1 = true /\
     private_arg b1 = [arg]).
Proof.
  cbv zeta. unfold new; cbn [hashed_name name hash integrated custom private_arg].
  split; [|split].
  - unfold make_hashed_name. intro E.
    apply hashed_split in E; try apply str_int_no_hash.
    destruct E as [-> E]. apply UuidFacts.str_int_inj in E. auto.
  - destruct (_ =? 0) eqn:E0; [|reflexivity].
    apply Z.eqb_eq in E0. rewrite E0. reflexivity.
  - apply first_private_arg_short.
Qed.

Example chromium_private :
  private_arg (new (fun _ => 42) "Chromium Web Browser" None None) = ["-incognito"].
Proof. reflexivity. Qed.

Example firefox_private :
  private_arg (new (fun _ => 42) "Firefox" None None) = ["-private-window"].
Proof. reflexivity. Qed.

Lemma X14_witness :
  name (new (fun _ => 0) "Integrated" (Some 0) None)
  = name (new (fun _ => 0) "Integrated" None None) /\
  hash (new (fun _ => 0) "Integrated" (Some 0) None)
  = hash (new (fun _ => 0) "Integrated" None None).
Proof.
  destruct (X14_hashed_name_identifies (fun _ => 0)
              "Integrated" "Integrated" (Some 0) None None None) as [H _].
  apply H. reflexivity.
Defined.

(** *** The registry *)

Lemma list_index_found (pre : list string) (x : string) (post : list string) :
  ~ In x pre ->
  list_index x (pre ++ x :: post) = Some (Z.of_nat (List.length pre)).
Proof.
  induction pre as [ | y pre IH]; intro H.
  - cbn. now rewrite String.eqb_refl.
  - cbn [app list_index List.length].
    destruct (String.eqb_spec y x) as [-> | _]; [exfalso; apply H; now left|].
    rewrite IH by (intro; apply H; now right). f_equal. lia.
Qed.

Lemma reindex_places (l : list (string * t)) :
  forall pre : list string,
    NoDup (pre ++ map fst l) ->
    Forall (fun kv => hashed_name (snd kv) = fst kv) l ->
    exists l',
      reindex (pre ++ map fst l) l = Ok l' /\
      map fst l' = map fst l /\
      Forall (fun kv => hashed_name (snd kv) = fst kv) l' /\
      map (fun kv => index (snd kv)) l'
      = map (fun i => Some (Z.of_nat (List.length pre + i))) (seq 0 (List.length l)).
Proof.
  induction l as [ | [k b] l IH]; intros pre Hnd Hkeys.
  - exists []. repeat split; constructor.
  - inversion Hkeys as [ | kv l0 Hk Hkeys']; subst. cbn [fst snd] in Hk.
    cbn [map fst reindex]. rewrite Hk.
    rewrite list_index_found
      by (apply NoDup_remove_2 in Hnd; intro Hin; apply Hnd, in_or_app; now left).
    destruct (IH (pre ++ [k])) as (l' & Hl' & Hf & Hc & Hi).
    { now rewrite <- app_assoc. }
    { exact Hkeys'. }
    rewrite <- app_assoc in Hl'. cbn [app] in Hl'. rewrite Hl'. cbn [bind].
    eexists. split; [reflexivity|]. cbn [map fst snd set_index hashed_name index].
    split; [now rewrite Hf|]. split; [constructor; [exact Hk | exact Hc]|].
    cbn [List.length seq map]. rewrite Nat.add_0_r. f_equal.
    rewrite Hi, <- seq_shift, map_map. apply map_ext. intro i.
    rewrite length_app. cbn. do 2 f_equal. lia.
Qed.

Lemma has_key_In (k : string) (l : list (string * t)) :
  has_key k l = true <-> In k (map fst l).
Proof.
  unfold has_key. rewrite existsb_exists, in_map_iff. split.
  - intros (kv & Hin & E). apply String.eqb_eq in E. exists kv. auto.
  - intros (kv & E & Hin). exists kv. split; [exact Hin|]. now apply String.eqb_eq.
Qed.

Lemma add_keeps_order (R : registry) (self : t) :
  well_indexed R ->
  exists R',
    add R self = Ok R' /\ well_indexed R' /\
    In (hashed_name self) (avail_list R') /\
    (has_key (hashed_name self) (instances R) = true -> R' = R) /\
    (has_key (hashed_name self) (instances R) = false ->
     avail_list R' = avail_list R ++ [hashed_name self]).
Proof.
  intros (Hkeys & Hnd & Hcons & Hidx). unfold add.
  destruct (has_key (hashed_name self) (instances R)) eqn:E.
  - exists R. split; [reflexivity|]. split; [repeat split; assumption|].
    split; [|split; [reflexivity | discriminate]].
    rewrite <- Hkeys. now apply has_key_In.
  - assert (Hfresh : ~ In (hashed_name self) (avail_list R)).
    { rewrite <- Hkeys, <- has_key_In, E. discriminate. }
    assert (Hnd' : NoDup (avail_list R ++ [hashed_name self])).
    { apply NoDup_app; [exact Hnd | repeat constructor; auto|].
      intros x Hx [<- | []]. contradiction. }
    destruct (reindex_places (instances R ++ [(hashed_name self, self)]) [])
      as (l' & Hl' & Hf & Hc & Hi).
    { cbn [app]. rewrite map_app, Hkeys. exact Hnd'. }
    { apply Forall_app. split; [exact Hcons | repeat constructor]. }
    cbn [app] in Hl'. rewrite map_app, Hkeys in Hl'. cbn [map fst] in Hl'.
    rewrite Hl'. cbn [bind]. eexists. split; [reflexivity|].
    split; [|split; [|split; [discriminate | reflexivity]]].
    + unfold well_indexed; cbn [instances avail_list].
      split; [now rewrite Hf, map_app, Hkeys|]. split; [exact Hnd'|].
      split; [exact Hc|]. rewrite Hi.
      assert (Hlen : List.length l'
                     = List.length (instances R ++ [(hashed_name self, self)])).
      { now rewrite <- (length_map fst l'), Hf, length_map. }
      rewrite Hlen. reflexivity.
    + cbn [avail_list]. apply in_or_app. right. now left.
Qed.

(** X15.  Browsers added one after the other to the empty registry are
    all taken: [add] never fails on the look-up of an index.  Whatever
    was added, the registry holds every hashed name once, [avail_list]
    lists the keys in the order they came, and the index of every
    browser is its place in that list.  Adding a browser whose hashed
    name is there already changes nothing. *)
Theorem X15_registry_well_indexed (bs : list t) :
  exists R,
    add_all empty bs = Ok R /\
    well_indexed R /\
    (forall b, In b bs -> In (hashed_name b) (avail_list R)) /\
    (forall b, In b bs -> add R b = Ok R).
Proof.
  assert (Hgen : forall R0, well_indexed R0 ->
             exists R, add_all R0 bs = Ok R /\ well_indexed R /\
                       (forall k, In k (avail_list R0) -> In k (avail_list R)) /\
                       (forall b, In b bs -> In (hashed_name b) (avail_list R))).
  { induction bs as [ | b bs IH]; intros R0 HR0.
    - exists R0. split; [reflexivity|]. split; [exact HR0|]. split; [auto|].
      intros b [].
    - destruct (add_keeps_order R0 b HR0) as (R1 & Hadd & HR1 & Hin & Hsame & Hnewk).
      destruct (IH R1 HR1) as (R & Hall & HR & Hmono & Hbs).
      exists R. cbn [add_all]. rewrite Hadd. cbn [bind].
      split; [exact Hall|]. split; [exact HR|]. split.
      + intros k Hk. apply Hmono.
        destruct (has_key (hashed_name b) (instances R0)) eqn:E.
        * now rewrite (Hsame eq_refl).
        * rewrite (Hnewk eq_refl). apply in_or_app. now left.
      + intros b' [<- | Hb']; [now apply Hmono | now apply Hbs]. }
  destruct (Hgen empty) as (R & Hall & HR & _ & Hbs).
  { unfold well_indexed, empty; cbn. repeat split; constructor. }
  exists R. split; [exact Hall|]. split; [exact HR|]. split; [exact Hbs|].
  intros b Hb. unfold add.
  assert (E : has_key (hashed_name b) (instances R) = true).
  { apply has_key_In. destruct HR as (Hkeys & _). rewrite Hkeys. now apply Hbs. }
  now rewrite E.
Qed.

Example registry_at_import :
  add_all empty [new (fun _ => 7) "Integrated" (Some 0) None;
                 new (fun _ => 7) "Custom" (Some (-1)) None;
                 new (fun _ => 7) "Firefox" None (Some ["firefox"; "%u"])]
  = Ok {| instances :=
            [("Integrated###0",
              set_index (new (fun _ => 7) "Integrated" (Some 0) None) 0);
             ("Custom###-1",
              set_index (new (fun _ => 7) "Custom" (Some (-1)) None) 1);
             ("Firefox###7",
              set_index (new (fun _ => 7) "Firefox" None (Some ["firefox"; "%u"])) 2)];
          avail_list := ["Integrated###0"; "Custom###-1"; "Firefox###7"] |}.
Proof. reflexivity. Qed.

(** *** Looking a browser up *)

Lemma get_fallback (frames : nat) (R : registry) (k : key) (b0 : t) :
  find (matches (ByHash 0)) (map snd (instances R)) = Some b0 ->
  get (S frames) R k
  = Ok (match find (matches k) (map snd (instances R)) with
        | Some b => b
        | None => b0
        end).
Proof.
  intro H0. cbn [get].
  destruct (find (matches k) (map snd (instances R))); [reflexivity|].
  destruct frames; cbn [get]; now rewrite H0.
Qed.

Lemma get_overflows (frames : nat) (R : registry) (k : key) :
  find (matches (ByHash 0)) (map snd (instances R)) = None ->
  find (matches k) (map snd (instances R)) = None ->
  get frames R k = Raise RecursionError.
Proof.
  intros H0. revert k. induction frames as [ | frames IH]; intros k Hk;
    cbn [get]; rewrite Hk; [reflexivity|]. now apply IH.
Qed.

(** X16.  With a browser of hash 0 in the registry, as the integrated
    one put there at import, [get] always returns a browser: the first
    one whose hash or hashed name is the key, and the first of hash 0
    when none is; one call of itself is all it needs.  In a registry
    without a browser of hash 0, a key that no browser has makes [get]
    call itself until the interpreter stops it: whatever depth the
    stack is allowed, the caller gets [RecursionError]. *)
Theorem X16_get_falls_back_to_integrated (R : registry) (k : key) :
  (forall b0 frames,
      find (matches (ByHash 0)) (map snd (instances R)) = Some b0 ->
      get (S frames) R k
      = Ok (match find (matches k) (map snd (instances R)) with
            | Some b => b
            | None => b0
            end)) /\
  (find (matches (ByHash 0)) (map snd (instances R)) = None ->
   find (matches k) (map snd (instances R)) = None ->
   forall frames, get frames R k = Raise RecursionError).
Proof.
  split.
  - intros b0 frames H0. now apply get_fallback.
  - intros H0 Hk frames. now apply get_overflows.
Qed.

Lemma X16_witness :
  get 1 {| instances := [("Integrated###0", new (fun _ => 7) "Integrated" (Some 0) None);
                         ("Firefox###7", new (fun _ => 7) "Firefox" None None)];
           avail_list := ["Integrated###0"; "Firefox###7"] |}
      (ByName "Chrome###99")
  = Ok (new (fun _ => 7) "Integrated" (Some 0) None) /\
  forall frames,
    get frames {| instances := [("Firefox###7", new (fun _ => 7) "Firefox" None None)];
                  avail_list := ["Firefox###7"] |}
        (ByHash 99)
    = Raise RecursionError.
Proof.
  split.
  - apply (proj1 (X16_get_falls_back_to_integrated
                    {| instances := [("Integrated###0",
                                      new (fun _ => 7) "Integrated" (Some 0) None);
                                     ("Firefox###7",
                                      new (fun _ => 7) "Firefox" None None)];
                       avail_list := ["Integrated###0"; "Firefox###7"] |}
                    (ByName "Chrome###99"))
                 (new (fun _ => 7) "Integrated" (Some 0) None) 0%nat).
    reflexivity.
  - apply (proj2 (X16_get_falls_back_to_integrated
                    {| instances := [("Firefox###7",
                                      new (fun _ => 7) "Firefox" None None)];
                       avail_list := ["Firefox###7"] |}
                    (ByHash 99))); reflexivity.
Defined.

End BrowserFacts.

(** ** The executable directories of the settings *)

Module SettingsFacts.
Import Settings.

Lemma key_eqb_eq (a b : exe_dir_key) : key_eqb a b = true <-> a = b.
Proof.
  destruct a as [[]|], b as [[]|]; cbn; split; congruence.
Qed.

Lemma key_eqb_refl (a : exe_dir_key) : key_eqb a a = true.
Proof. now apply key_eqb_eq. Qed.

Lemma key_eqb_neq (a b : exe_dir_key) : key_eqb a b = false <-> a <> b.
Proof.
  rewrite <- key_eqb_eq. destruct (key_eqb a b); split; congruence.
Qed.

Lemma lookup_none (k : exe_dir_key) (d : dict) :
  lookup k d = None <-> ~ In k (map fst d).
Proof.
  induction d as [ | [k' v] d IH]; cbn; [tauto|].
  destruct (key_eqb k' k) eqn:E.
  - apply key_eqb_eq in E. split; [discriminate | intro H; exfalso; auto].
  - apply key_eqb_neq in E. rewrite IH. tauto.
Qed.

Lemma lookup_store_same (k : exe_dir_key) (v : string) (d : dict) :
  lookup k (store k v d) = Some v.
Proof.
  induction d as [ | [k' v'] d IH]; cbn.
  - now rewrite key_eqb_refl.
  - destruct (key_eqb k' k) eqn:E; cbn; rewrite E; auto.
Qed.

Lemma lookup_store_other (k k' : exe_dir_key) (v : string) (d : dict) :
  k' <> k -> lookup k' (store k v d) = lookup k' d.
Proof.
  intro Hne. induction d as [ | [k0 v0] d IH]; cbn.
  - apply not_eq_sym, key_eqb_neq in Hne. now rewrite Hne.
  - destruct (key_eqb k0 k) eqn:E; cbn; [|now rewrite IH].
    apply key_eqb_eq in E. subst k0.
    apply not_eq_sym, key_eqb_neq in Hne. now rewrite Hne.
Qed.

Lemma lookup_delete_other (k k' : exe_dir_key) (d : dict) :
  k' <> k -> lookup k' (delete k d) = lookup k' d.
Proof.
  intro Hne. induction d as [ | [k0 v0] d IH]; cbn; [reflexivity|].
  destruct (key_eqb k0 k) eqn:E; cbn.
  - apply key_eqb_eq in E. subst k0.
    apply not_eq_sym, key_eqb_neq in Hne. now rewrite Hne.
  - now rewrite IH.
Qed.

Lemma store_keys (k : exe_dir_key) (v : string) (d : dict) :
  map fst (store k v d)
  = if existsb (fun kv => key_eqb (fst kv) k) d then map fst d
    else map fst d ++ [k].
Proof.
  induction d as [ | [k0 v0] d IH]; cbn; [reflexivity|].
  destruct (key_eqb k0 k) eqn:E; cbn; [reflexivity|].
  rewrite IH. destruct (existsb _ d); reflexivity.
Qed.

Lemma store_proper (k : exe_dir_key) (v : string) (d : dict) :
  proper d -> proper (store k v d).
Proof.
  unfold proper. intro H. rewrite store_keys.
  destruct (existsb (fun kv => key_eqb (fst kv) k) d) eqn:E; [exact H|].
  apply NoDup_app; [exact H | repeat constructor; auto|].
  intros x Hx [<- | []].
  assert (Hex : existsb (fun kv => key_eqb (fst kv) k) d = true); [|congruence].
  apply in_map_iff in Hx. destruct Hx as (kv & Hk & Hin).
  apply existsb_exists. exists kv. split; [exact Hin|]. now apply key_eqb_eq.
Qed.

Lemma delete_keys_in (k x : exe_dir_key) (d : dict) :
  In x (map fst (delete k d)) -> In x (map fst d).
Proof.
  induction d as [ | [k0 v0] d IH]; cbn; [auto|].
  destruct (key_eqb k0 k); cbn; [auto|]. intros [H | H]; auto.
Qed.

Lemma delete_proper (k : exe_dir_key) (d : dict) :
  proper d -> proper (delete k d) /\ lookup k (delete k d) = None.
Proof.
  unfold proper. induction d as [ | [k0 v0] d IH]; cbn; [auto|].
  intro H. inversion H as [ | ? ? Hk0 Hd]; subst.
  destruct (key_eqb k0 k) eqn:E.
  - apply key_eqb_eq in E. subst k0. split; [exact Hd|]. now apply lookup_none.
  - destruct (IH Hd) as [IH1 IH2]. cbn. rewrite E. split; [|exact IH2].
    constructor; [|exact IH1]. intro Hin. now apply delete_keys_in in Hin.
Qed.

(** X17.  [__post_init__] moves the directory stored under the empty
    key of old settings to the key of the running system: afterwards
    the empty key is gone, the running system has the directory that
    was under it, the directories of the other systems are as before,
    and a dict without the empty key is left as it is.  Doing it again
    changes nothing. *)
Theorem X17_empty_key_migrated (os : Os) (d : dict) :
  proper d ->
  let d' := __post_init__ os d in
  lookup None d' = None /\
  (forall v, lookup None d = Some v -> lookup (Some os) d' = Some v) /\
  (forall o, o <> os -> lookup (Some o) d' = lookup (Some o) d) /\
  (lookup None d = None -> d' = d) /\
  proper d' /\
  __post_init__ os d' = d'.
Proof.
  intro Hd. cbv zeta.
  assert (Hnone : lookup None (__post_init__ os d) = None).
  { unfold __post_init__. destruct (lookup None d) as [v | ] eqn:E; [|exact E].
    apply delete_proper, store_proper, Hd. }
  split; [exact Hnone|]. split; [|split; [|split; [|split]]].
  - intros v Hv. unfold __post_init__. rewrite Hv.
    rewrite lookup_delete_other by discriminate. apply lookup_store_same.
  - intros o Ho. unfold __post_init__.
    destruct (lookup None d) as [v | ]; [|reflexivity].
    rewrite lookup_delete_other by discriminate.
    apply lookup_store_other. congruence.
  - intro H. unfold __post_init__. now rewrite H.
  - unfold __post_init__. destruct (lookup None d) as [v | ]; [|exact Hd].
    apply delete_proper, store_proper, Hd.
  - unfold __post_init__ at 1. now rewrite Hnone.
Qed.

Lemma X17_witness :
  lookup (Some Linux)
    (__post_init__ Linux [(None, "/home/me/games"); (Some Windows, "C:\Games")])
  = Some "/home/me/games" /\
  lookup (Some Windows)
    (__post_init__ Linux [(None, "/home/me/games"); (Some Windows, "C:\Games")])
  = Some "C:\Games".
Proof.
  destruct (X17_empty_key_migrated Linux
              [(None, "/home/me/games"); (Some Windows, "C:\Games")])
    as (_ & Hos & Hother & _).
  - repeat constructor; cbn; intuition discriminate.
  - split.
    + apply Hos. reflexivity.
    + rewrite Hother by discriminate. reflexivity.
Defined.

End SettingsFacts.

(** ** The fields of a game after [__post_init__] *)

Module GameFacts.
Import Game.

Lemma finished_settles (fin inst ver : string) :
  let once :=
    if String.eqb fin "True" && negb (String.eqb inst "True")
       && negb (String.eqb ver "True")
    then (if nonempty inst then inst else ver)
    else if String.eqb fin "False" && negb (String.eqb inst "False")
            && negb (String.eqb ver "False")
    then EmptyString
    else fin in
  (if String.eqb once "True" && negb (String.eqb inst "True")
      && negb (String.eqb ver "True")
   then (if nonempty inst then inst else ver)
   else if String.eqb once "False" && negb (String.eqb inst "False")
           && negb (String.eqb ver "False")
   then EmptyString
   else once) = once /\
  (once = "True" -> inst = "True" \/ ver = "True") /\
  (once = "False" -> inst = "False" \/ ver = "False").
Proof.
  cbv zeta. unfold nonempty.
  destruct (String.eqb_spec fin "True") as [-> | HfT];
    destruct (String.eqb_spec inst "True") as [-> | HiT];
    destruct (String.eqb_spec ver "True") as [-> | HvT];
    cbn [andb negb];
    try (destruct (String.eqb_spec inst "False") as [-> | HiF]);
    try (destruct (String.eqb_spec ver "False") as [-> | HvF]);
    try (destruct (String.eqb_spec fin "False") as [-> | HfF]);
    try (destruct (String.eqb_spec inst "") as [-> | HiE]);
    cbn [andb negb String.eqb Ascii.eqb Bool.eqb];
    repeat match goal with
           | |- context [String.eqb ?a ?b] =>
               destruct (String.eqb_spec a b); try subst;
               cbn [andb negb String.eqb Ascii.eqb Bool.eqb]
           end;
    repeat split; try tauto; try congruence; auto.
Qed.

(** X18.  After [__post_init__] a game has its [custom] and [updated]
    flags set, a game with a negative id is custom, no image address is
    the dash of old records, and the [finished] field holds the text
    "True" or "False" only when that text is the installed or the
    current version; running the same assignments on the result
    changes nothing. *)
Theorem X18_post_init_normalises (self : t) :
  let g := __post_init__ self in
  custom g <> None /\
  updated g <> None /\
  (id self < 0 -> custom g = Some true) /\
  (custom self = None -> 0 <= id self ->
   custom g = Some (is_Custom (status self))) /\
  image_url g <> "-" /\
  (finished g = "True" -> installed g = "True" \/ version g = "True") /\
  (finished g = "False" -> installed g = "False" \/ version g = "False") /\
  __post_init__ g = g.
Proof.
  cbv zeta.
  destruct (finished_settles (finished self) (installed self) (version self))
    as (Hfix & HT & HF).
  unfold __post_init__ at 1 2 3 4 5 6 7 8 9.
  cbn [custom updated id image_url finished installed version status].
  split; [|split; [|split; [|split; [|split; [|split; [|split]]]]]].
  - destruct (id self <? 0); [discriminate|]. destruct (custom self); discriminate.
  - destruct (updated self); discriminate.
  - intro H. apply Z.ltb_lt in H. now rewrite H.
  - intros Hc Hid. apply Z.ltb_ge in Hid. now rewrite Hid, Hc.
  - destruct (String.eqb_spec (image_url self) "-"); [discriminate | assumption].
  - exact HT.
  - exact HF.
  - unfold __post_init__.
    cbn [custom updated id image_url finished installed version status].
    rewrite Hfix. f_equal.
    + destruct (id self <? 0); [reflexivity|]. destruct (custom self); reflexivity.
    + destruct (updated self); reflexivity.
    + destruct (String.eqb_spec (image_url self) "-") as [E | E]; [reflexivity|].
      apply String.eqb_neq in E. now rewrite E.
Qed.

Example old_record :
  __post_init__ {| id := -3; custom := None; version := "0.4"; status := Normal;
                   finished := "True"; installed := ""; updated := None;
                   image_url := "-" |}
  = {| id := -3; custom := Some true; version := "0.4"; status := Normal;
       finished := "0.4"; installed := ""; updated := Some false;
       image_url := "missing" |}.
Proof. reflexivity. Qed.

Lemma X18_witness :
  custom (__post_init__ {| id := -3; custom := Some false; version := "0.4";
                           status := Normal; finished := ""; installed := "0.3";
                           updated := None; image_url := "" |})
  = Some true.
Proof.
  destruct (X18_post_init_normalises
              {| id := -3; custom := Some false; version := "0.4";
                 status := Normal; finished := ""; installed := "0.3";
                 updated := None; image_url := "" |})
    as (_ & _ & H & _).
  apply H. reflexivity.
Defined.

End GameFacts.

(** ** Launching an executable *)

Module LaunchFacts.
Import Launch.

Lemma land_S_IEXEC (m : Z) :
  Z.land m S_IEXEC = if Z.testbit m 6 then S_IEXEC else 0.
Proof.
  apply Z.bits_inj'. intros n Hn. rewrite Z.land_spec.
  change S_IEXEC with (2 ^ 6). rewrite Z.pow2_bits_eqb by lia.
  destruct (Z.eqb_spec 6 n) as [<- | Hne].
  - destruct (Z.testbit m 6); [|reflexivity].
    now rewrite Z.pow2_bits_eqb by lia.
  - rewrite andb_false_r. destruct (Z.testbit m 6).
    + rewrite Z.pow2_bits_eqb by lia. symmetry. now apply Z.eqb_neq.
    + now rewrite Z.testbit_0_l.
Qed.

(** The comparison of the source tests one bit. *)
Lemma lacks_exec_bit (m : Z) : lacks_exec m = negb (Z.testbit m 6).
Proof.
  unfold lacks_exec. rewrite land_S_IEXEC.
  destruct (Z.testbit m 6); reflexivity.
Qed.

Lemma lor_S_IEXEC (m n : Z) :
  0 <= n ->
  Z.testbit (Z.lor m S_IEXEC) n = if n =? 6 then true else Z.testbit m n.
Proof.
  intro Hn. rewrite Z.lor_spec. change S_IEXEC with (2 ^ 6).
  rewrite Z.pow2_bits_eqb by lia. rewrite (Z.eqb_sym 6 n).
  destruct (n =? 6); [apply orb_true_r | apply orb_false_r].
Qed.

Lemma fix_libs_in (entries : list lib_entry) (p : string) (m' : Z) :
  In (Chmod p m') (fix_libs entries) ->
  exists file, In file entries /\ lib_path file = p
               /\ m' = Z.lor (lib_mode file) S_IEXEC
               /\ lacks_exec (lib_mode file) = true
               /\ lib_is_file file = true /\ lib_suffix file = EmptyString.
Proof.
  induction entries as [ | file rest IH]; cbn; [intros []|].
  destruct (lib_is_file file) eqn:Hf; cbn [andb].
  - destruct (String.eqb_spec (lib_suffix file) "") as [Hs | Hs].
    + destruct (lacks_exec (lib_mode file)) eqn:Hl.
      * intros [H | H].
        -- injection H as <- <-. exists file. cbn. auto 10.
        -- destruct (IH H) as (f & Hin & Hrest). exists f. cbn. auto.
      * intro H. destruct (IH H) as (f & Hin & Hrest). exists f. cbn. auto.
    + intro H. destruct (IH H) as (f & Hin & Hrest). exists f. cbn. auto.
  - intro H. destruct (IH H) as (f & Hin & Hrest). exists f. cbn. auto.
Qed.

Lemma fix_libs_chmods (entries : list lib_entry) :
  forallb is_chmod (fix_libs entries) = true.
Proof.
  induction entries as [ | file rest IH]; cbn; [reflexivity|].
  destruct (lib_is_file file && String.eqb (lib_suffix file) "");
    [|exact IH].
  destruct (lacks_exec (lib_mode file)); cbn; exact IH.
Qed.

Lemma libs_chmods (E : env) :
  forallb is_chmod (if renpy E then fix_libs (lib E) else []) = true.
Proof. destruct (renpy E); [apply fix_libs_chmods | reflexivity]. Qed.

Lemma launch_chmod_in (E : env) (p : string) (m' : Z) :
  In (Chmod p m') (snd (_launch E)) ->
  exists m, chmod_origin E p m /\ m' = Z.lor m S_IEXEC
            /\ lacks_exec m = true.
Proof.
  assert (Hlibs : In (Chmod p m') (if renpy E then fix_libs (lib E) else []) ->
                  exists m, chmod_origin E p m /\ m' = Z.lor m S_IEXEC
                            /\ lacks_exec m = true).
  { destruct (renpy E) eqn:Hr; [|intros []]. intro H.
    apply fix_libs_in in H.
    destruct H as (file & Hin & Hp & Hm & Hl & Hf & Hs).
    exists (lib_mode file). split; [|auto]. right. split; [exact Hr|].
    exists file. auto. }
  unfold _launch. destruct (exe_stat E) as [st | ] eqn:Hst; [|intros []].
  destruct (Os_eqb (os E) Windows).
  { cbn. intros [H | []]. discriminate. }
  destruct (lacks_exec (mode st)) eqn:Hl; cbn [negb].
  - destruct (head st) as [text | e] eqn:Hh; [|intros []].
    destruct (String.eqb_spec text "#!") as [-> | Hne].
    + cbn [snd app]. intros [H | H].
      * injection H as <- <-. exists (mode st). split; [|auto].
        left. split; [reflexivity|]. exists st. auto.
      * apply in_app_or in H. destruct H as [H | [H | []]]; [auto | discriminate].
    + destruct (open_util (os E)); cbn [snd app]; intro H.
      * apply in_app_or in H. destruct H as [H | [H | []]]; [auto | discriminate].
      * auto.
  - cbn [snd app]. intro H.
    apply in_app_or in H. destruct H as [H | [H | []]]; [auto | discriminate].
Qed.

(** X19.  Every change of mode that [_launch] makes adds the owner's
    execute bit, to the launched file when it starts with a shebang or
    to a file without suffix under [lib] of a Ren'Py game, and only
    where that bit was missing; every other bit of the mode stays as it
    was. *)
Theorem X19_chmod_only_adds_exec_bit (E : env) (p : string) (m' : Z) :
  In (Chmod p m') (snd (_launch E)) ->
  exists m,
    chmod_origin E p m /\
    Z.testbit m 6 = false /\
    Z.testbit m' 6 = true /\
    forall n, n <> 6 -> Z.testbit m' n = Z.testbit m n.
Proof.
  intro H. apply launch_chmod_in in H. destruct H as (m & Ho & -> & Hl).
  exists m. split; [exact Ho|].
  rewrite lacks_exec_bit in Hl. apply negb_true_iff in Hl.
  split; [exact Hl|]. split.
  - now rewrite lor_S_IEXEC by lia.
  - intros n Hn. destruct (Z.neg_nonneg_cases n) as [Hneg | Hpos].
    + now rewrite !Z.testbit_neg_r.
    + rewrite lor_S_IEXEC by exact Hpos.
      apply Z.eqb_neq in Hn. now rewrite Hn.
Qed.

Example renpy_game_launch :
  _launch renpy_game
  = (Done, [ Chmod "/games/demo/demo.sh" 33252;
             Chmod "/games/demo/lib/linux/python" 33252;
             Popen ["/games/demo/demo.sh"] "/games/demo" ]).
Proof. reflexivity. Qed.

Lemma X19_witness :
  exists m, chmod_origin renpy_game "/games/demo/lib/linux/python" m
            /\ Z.testbit m 6 = false.
Proof.
  destruct (X19_chmod_only_adds_exec_bit renpy_game
              "/games/demo/lib/linux/python" 33252) as (m & Ho & Hb & _).
  - cbn. right. left. reflexivity.
  - exists m. split; assumption.
Defined.

Lemma made_shape (E : env) (st : file_stat) (b : bool)
  (made : list action) :
  (if negb (lacks_exec (mode st)) then Ok (true, [])
   else match head st with
        | Raise e => Raise e
        | Ok text =>
            if String.eqb text "#!"
            then Ok (true, [Chmod (exe E) (Z.lor (mode st) S_IEXEC)])
            else Ok (false, [])
        end) = Ok (b, made) ->
  forallb is_chmod made = true /\
  b = negb (lacks_exec (mode st))
      || match head st with Ok text => String.eqb text "#!" | Raise _ => false end.
Proof.
  destruct (lacks_exec (mode st)); cbn [negb orb].
  - destruct (head st) as [text | e]; [|discriminate].
    destruct (String.eqb text "#!"); intro H; injection H as <- <-; auto.
  - intro H; injection H as <- <-; auto.
Qed.

(** A call of [_launch] that returns has started something. *)
Lemma launched_has_start (E : env) :
  fst (_launch E) = Done ->
  existsb (fun a => negb (is_chmod a)) (snd (_launch E)) = true.
Proof.
  unfold _launch. destruct (exe_stat E) as [st | ]; [|discriminate].
  destruct (Os_eqb (os E) Windows); [reflexivity|].
  destruct (lacks_exec (mode st)); cbn [negb].
  - destruct (head st) as [text | e]; [|discriminate].
    destruct (String.eqb text "#!").
    + intros _. cbn [fst snd]. rewrite !existsb_app. cbn. apply orb_true_r.
    + destruct (open_util (os E)); [|discriminate].
      intros _. cbn [fst snd]. rewrite !existsb_app. cbn. apply orb_true_r.
  - intros _. cbn [fst snd]. rewrite !existsb_app. cbn. apply orb_true_r.
Qed.

(** X20.  A call of [_launch] that returns has started the file
    exactly once, as its last action, after nothing but changes of
    mode: with [os.startfile] on Windows, with [Popen] in the file's
    directory and the file as last argument elsewhere.  When the file
    is missing or its first characters cannot be read, nothing has
    been changed or started.  [open_util] is bound whenever it is
    used: the call never fails for an unbound name. *)
Theorem X20_starts_once_or_not_at_all (E : env) :
  fst (_launch E) <> Failed UnboundLocalError /\
  (fst (_launch E) = Done ->
   exists chmods start,
     snd (_launch E) = chmods ++ [start] /\
     forallb is_chmod chmods = true /\
     (os E = Windows -> chmods = [] /\ start = Startfile (exe E)) /\
     (os E <> Windows ->
      exists argv, start = Popen argv (parent E) /\ last argv "" = exe E)) /\
  (fst (_launch E) <> Done -> snd (_launch E) = []).
Proof.
  unfold _launch. destruct (exe_stat E) as [st | ] eqn:Hst.
  2:{ cbn. split; [discriminate|]. split; [discriminate | reflexivity]. }
  destruct (Os_eqb (os E) Windows) eqn:Hos.
  { cbn. split; [discriminate|]. split; [|congruence].
    intros _. exists [], (Startfile (exe E)). split; [reflexivity|].
    split; [reflexivity|]. split; [auto|].
    intro H. exfalso. apply H. destruct (os E); [reflexivity | discriminate ..]. }
  assert (Hnw : os E <> Windows) by (intro H; rewrite H in Hos; discriminate).
  pose proof (libs_chmods E) as Hlibs.
  pose proof (made_shape E st) as Hmade.
  destruct (if negb (lacks_exec (mode st)) then Ok (true, [])
            else match head st with
                 | Raise e => Raise e
                 | Ok text =>
                     if String.eqb text "#!"
                     then Ok (true, [Chmod (exe E) (Z.lor (mode st) S_IEXEC)])
                     else Ok (false, [])
                 end) as [[b made] | e].
  2:{ cbn. split; [discriminate|]. split; [discriminate | reflexivity]. }
  destruct (Hmade b made eq_refl) as [Hm _].
  assert (Hall : forallb is_chmod
                   (made ++ (if renpy E then fix_libs (lib E) else [])) = true).
  { rewrite forallb_app, Hm, Hlibs. reflexivity. }
  destruct b.
  - cbn [fst snd]. split; [discriminate|]. split; [|congruence].
    intros _. exists (made ++ (if renpy E then fix_libs (lib E) else [])),
                (Popen [exe E] (parent E)).
    rewrite <- app_assoc. split; [reflexivity|]. split; [exact Hall|].
    split; [intro H; contradiction|]. intros _. eexists. split; reflexivity.
  - destruct (os E) eqn:Ho; [contradiction | |]; cbn [open_util fst snd];
      (split; [discriminate|]); (split; [|congruence]); intros _;
      exists (made ++ (if renpy E then fix_libs (lib E) else []));
      eexists; rewrite <- app_assoc;
      (split; [reflexivity|]); (split; [exact Hall|]);
      (split; [discriminate|]); intros _; eexists; split; reflexivity.
Qed.

Lemma X20_witness :
  exists chmods start,
    snd (_launch renpy_game) = chmods ++ [start]
    /\ forallb is_chmod chmods = true.
Proof.
  destruct (X20_starts_once_or_not_at_all renpy_game) as (_ & H & _).
  destruct (H eq_refl) as (chmods & start & Hs & Hc & _).
  exists chmods, start. split; assumption.
Defined.

(** X21.  Off Windows, a file that is there and can be read is run
    directly exactly when its owner's execute bit is set or it starts
    with a shebang; any other file is handed to the opener of the
    desktop, [xdg-open] on Linux and [open] on macOS. *)
Theorem X21_run_directly_or_open (E : env) (st : file_stat) (text : string) :
  os E <> Windows ->
  exe_stat E = Some st ->
  head st = Ok text ->
  fst (_launch E) = Done /\
  (Z.testbit (mode st) 6 = true \/ text = "#!" ->
   last (snd (_launch E)) (Startfile "") = Popen [exe E] (parent E)) /\
  (Z.testbit (mode st) 6 = false -> text <> "#!" ->
   snd (_launch E)
   = (if renpy E then fix_libs (lib E) else [])
       ++ [Popen [if Os_eqb (os E) Linux then "xdg-open" else "open"; exe E]
             (parent E)]).
Proof.
  intros Hnw Hst Hh. unfold _launch. rewrite Hst.
  destruct (Os_eqb (os E) Windows) eqn:Hos.
  { exfalso. apply Hnw. destruct (os E); [reflexivity | discriminate ..]. }
  rewrite lacks_exec_bit, negb_involutive, Hh.
  destruct (Z.testbit (mode st) 6) eqn:Hb.
  - cbn [fst snd app]. split; [reflexivity|]. split; [|discriminate].
    intros _. now rewrite last_last.
  - destruct (String.eqb_spec text "#!") as [-> | Hne].
    + cbn [fst snd]. split; [reflexivity|]. split; [|congruence].
      intros _. now rewrite !app_assoc, last_last.
    + destruct (os E) eqn:Ho; [contradiction | |]; cbn [open_util fst snd app Os_eqb];
        (split; [reflexivity|]); (split; [|reflexivity]);
        intros [H | H]; [discriminate | contradiction
                         | discriminate | contradiction].
Qed.

Lemma X21_witness :
  last (snd (_launch renpy_game)) (Startfile "")
  = Popen ["/games/demo/demo.sh"] "/games/demo".
Proof.
  destruct (X21_run_directly_or_open renpy_game
              {| mode := 33188; head := Ok "#!" |} "#!") as (_ & H & _).
  - discriminate.
  - reflexivity.
  - reflexivity.
  - apply H. right. reflexivity.
Defined.

End LaunchFacts.

(** ** The callbacks *)

Module CallbacksFacts.
Import Callbacks.

Lemma map_System_start (actions : list Launch.action) :
  existsb is_start (map System actions)
  = existsb (fun a => negb (Launch.is_chmod a)) actions.
Proof.
  induction actions as [ | a l IH]; cbn; [reflexivity|]. now rewrite IH.
Qed.

Lemma map_System_popup (actions : list Launch.action) :
  filter is_popup (map System actions) = [].
Proof.
  induction actions as [ | a l IH]; cbn; [reflexivity | exact IH].
Qed.

Lemma not_in_map_System (e : effect) (actions : list Launch.action) :
  (forall a, e <> System a) -> ~ In e (map System actions).
Proof.
  intros H Hin. apply in_map_iff in Hin. destruct Hin as (a & Ha & _).
  now apply (H a).
Qed.

Section LaunchGame.
Variable look : string -> Launch.env.
Variable now : Timestamp.number.

Lemma launch_game_cases (g : game) :
  executable g <> EmptyString ->
  let E := look (executable g) in
  (exists ts,
      fst (Launch._launch E) = Launch.Done /\
      Timestamp.update (last_played g) (Some now) = Ok ts /\
      _launch_game look now g
      = (set_last_played g ts,
         map System (snd (Launch._launch E)) ++ [DbUpdate "last_played"])) \/
  (exists title kind buttons,
      _launch_game look now g
      = (g, map System (snd (Launch._launch E)) ++ [Msgbox title kind buttons])
      /\ (fst (Launch._launch E) = Launch.Failed Launch.FileNotFoundError ->
          title = "File not found!" /\ kind = warn /\ buttons = true)).
Proof.
  intros Hx E. unfold _launch_game.
  apply String.eqb_neq in Hx. rewrite Hx. fold E.
  destruct (Launch._launch E) as [ending actions]. cbn [fst snd].
  destruct ending as [ | why].
  - destruct (Timestamp.update (last_played g) (Some now)) as [ts | e].
    + left. exists ts. auto.
    + right. exists "Oops!", error, false. split; [reflexivity | discriminate].
  - right. destruct why.
    + exists "File not found!", warn, true. auto.
    + exists "Oops!", error, false. split; [reflexivity | discriminate].
    + exists "Oops!", error, false. split; [reflexivity | discriminate].
Qed.

(** X22.  [launch_game_exe] keeps the executable of the game, and
    touches the time of the last play only after [_launch] has started
    the file: a changed time comes with a start among the effects, and
    the write of [last_played] to the database comes exactly with the
    time [update] computes.  A file that is not there leaves the game
    as it is and gives the one warning that offers to unset the path.
    At most one popup is pushed, and a call that pushes one leaves the
    game unchanged. *)
Theorem X22_last_played_follows_start (g : game) :
  let r := launch_game_exe look now g in
  executable (fst r) = executable g /\
  (last_played (fst r) <> last_played g ->
   existsb is_start (snd r) = true /\ In (DbUpdate "last_played") (snd r)) /\
  (In (DbUpdate "last_played") (snd r) ->
   Timestamp.update (last_played g) (Some now) = Ok (last_played (fst r))) /\
  (executable g <> EmptyString ->
   Launch.exe_stat (look (executable g)) = None ->
   r = (g, [Msgbox "File not found!" warn true])) /\
  (List.length (filter is_popup (snd r)) <= 1)%nat /\
  (existsb is_popup (snd r) = true -> fst r = g).
Proof.
  cbv zeta. unfold launch_game_exe.
  destruct (String.eqb_spec (executable g) "") as [He | He].
  { cbn. split; [reflexivity|]. split; [congruence|].
    split; [intros [H | []]; discriminate|].
    split; [congruence|]. split; [lia | reflexivity]. }
  destruct (launch_game_cases g He) as
    [(ts & Hd & Hu & ->) | (title & kind & buttons & -> & Hfnf)];
    cbn [fst snd].
  - split; [reflexivity|]. split; [|split; [|split; [|split]]].
    + intros _. rewrite existsb_app, map_System_start, LaunchFacts.launched_has_start by exact Hd.
      split; [reflexivity|]. apply in_or_app. right. now left.
    + intros _. exact Hu.
    + intros _ Hn. unfold Launch._launch in Hd. rewrite Hn in Hd. discriminate.
    + rewrite filter_app, map_System_popup. cbn. lia.
    + rewrite existsb_app. cbn. rewrite orb_false_r. intro H.
      apply existsb_exists in H. destruct H as (e & Hin & He').
      apply in_map_iff in Hin. destruct Hin as (a & <- & _). discriminate.
  - split; [reflexivity|]. split; [congruence|]. split; [|split; [|split]].
    + intro H. apply in_app_or in H. destruct H as [H | [H | []]]; [|discriminate].
      exfalso. revert H. apply not_in_map_System. discriminate.
    + intros _ Hn. destruct Hfnf as (-> & -> & ->).
      { unfold Launch._launch. now rewrite Hn. }
      unfold Launch._launch. now rewrite Hn.
    + rewrite filter_app, map_System_popup. cbn. lia.
    + reflexivity.
Qed.

(** Selecting a file in the picker stores the path and launches it;
    closing the picker without a selection changes nothing. *)
Lemma select_callback_launches (g : game) (path : string) :
  path <> EmptyString ->
  select_callback look now g (Some path)
  = (fst (launch_game_exe look now (set_executable g path)),
     DbUpdate "executable" :: snd (launch_game_exe look now (set_executable g path))).
Proof.
  intro Hp. unfold select_callback, launch_game_exe. cbn [executable set_executable].
  apply String.eqb_neq in Hp. rewrite Hp.
  destruct (_launch_game look now (set_executable g path)). reflexivity.
Qed.

End LaunchGame.

Lemma X22_witness :
  Timestamp.update (last_played demo_game) (Some (Timestamp.PyFloat 3400000001 (-1)))
  = Ok {| Timestamp.value := 1700000000; Timestamp._display := None |}.
Proof.
  destruct (X22_last_played_follows_start (fun _ => Launch.renpy_game)
              (Timestamp.PyFloat 3400000001 (-1)) demo_game)
    as (_ & _ & H & _).
  apply H. cbn. auto 10.
Defined.

(** X24.  [open_game_folder] asks the system to open the folder once,
    as the last thing it does, whether the folder is there or not: a
    missing folder only adds, before that, the warning that offers to
    unset the path. *)
Theorem X24_open_game_folder_opens_anyway (os : Os) (dir : string) (is_dir : bool) :
  exists opener,
    open_game_folder os dir is_dir
    = (Launch.Done,
       (if is_dir then [] else [Msgbox "No such folder!" warn true]) ++ [opener])
    /\ is_start opener = true
    /\ (os = Windows -> opener = Startfile dir)
    /\ (os <> Windows -> exists util, opener = Spawn [util; dir]
                                      /\ Launch.open_util os = Some util).
Proof.
  unfold open_game_folder. destruct os; cbn; eexists;
    (split; [reflexivity|]); (split; [reflexivity|]);
    (split; [intro H; try discriminate; reflexivity|]);
    intro H; try contradiction; eexists; split; reflexivity.
Qed.

Section OpenWebpage.
Variable shlex_split : string -> result (list string).
Variable popen : list string -> result unit.

Lemma command_line_shape (set : settings) (url : string) (argv : list string) :
  command_line shlex_split set url = Ok argv ->
  last argv EmptyString = url /\
  (is_Custom (browser_of set) = true ->
   exists args, shlex_split (browser_custom_arguments set) = Ok args
                /\ argv = browser_custom_executable set :: args ++ [url]) /\
  (is_Custom (browser_of set) = false ->
   argv = if browser_private set
          then [path (browser_of set); private (browser_of set); url]
          else [path (browser_of set); url]).
Proof.
  unfold command_line. destruct (is_Custom (browser_of set)).
  - destruct (shlex_split (browser_custom_arguments set)) as [args | e];
      cbn; [|discriminate].
    intros [= <-]. split; [|split; [|discriminate]].
    + change (browser_custom_executable set :: args ++ [url])
        with ((browser_custom_executable set :: args) ++ [url]).
      apply last_last.
    + intros _. exists args. auto.
  - intros [= <-]. split; [|split; [discriminate|]].
    + destruct (browser_private set); reflexivity.
    + intros _. destruct (browser_private set); reflexivity.
Qed.

(** X23.  [open_webpage] starts at most one process, with the address
    as the last argument of a command line that begins with the
    browser: the custom executable and its split arguments, or the path
    of the browser followed by its private flag when private browsing
    is set.  Without a browser it only pushes a warning.  A failure of
    [Popen] ends in a popup and is not raised; the one exception that
    leaves [open_webpage] is that of splitting the custom arguments,
    which happens before the [try]. *)
Theorem X23_open_webpage_command_line (set : settings) (url : string) :
  (forall e, open_webpage shlex_split popen set url = Raise e <->
             is_None (browser_of set) = false /\
             is_Custom (browser_of set) = true /\
             shlex_split (browser_custom_arguments set) = Raise e) /\
  (forall effects,
      open_webpage shlex_split popen set url = Ok effects ->
      exists e, effects = [e] /\
        (is_None (browser_of set) = true -> e = Msgbox "Browser" warn false) /\
        (forall argv, e = Spawn argv ->
           popen argv = Ok tt /\
           command_line shlex_split set url = Ok argv /\
           last argv EmptyString = url /\
           (is_Custom (browser_of set) = false ->
            argv = if browser_private set
                   then [path (browser_of set); private (browser_of set); url]
                   else [path (browser_of set); url])) /\
        (is_popup e = false -> exists argv, e = Spawn argv)).
Proof.
  split.
  - intro e. unfold open_webpage.
    destruct (is_None (browser_of set)).
    { split; [discriminate | intros (H & _); discriminate]. }
    unfold command_line. destruct (is_Custom (browser_of set)).
    + destruct (shlex_split (browser_custom_arguments set)) as [args | e']; cbn.
      * destruct (popen _); split; try discriminate; intros (_ & _ & H); discriminate.
      * split; [intros [= ->]; auto | intros (_ & _ & [= ->]); reflexivity].
    + cbn. destruct (popen _); split; try discriminate; intros (_ & H & _); discriminate.
  - intros effects. unfold open_webpage.
    destruct (is_None (browser_of set)).
    { intros [= <-]. eexists. split; [reflexivity|]. split; [reflexivity|].
      split; [discriminate | discriminate]. }
    destruct (command_line shlex_split set url) as [argv | e] eqn:Hc;
      cbn; [|discriminate].
    destruct (popen argv) as [[] | e] eqn:Hp; intros [= <-].
    + eexists. split; [reflexivity|]. split; [discriminate|]. split.
      * intros argv' [= <-]. destruct (command_line_shape set url argv Hc)
          as (Hl & _ & Hn). auto.
      * intros _. eexists. reflexivity.
    + eexists. split; [reflexivity|]. split; [discriminate|].
      split; [discriminate | discriminate].
Qed.

End OpenWebpage.

Lemma X23_witness :
  last ["/usr/bin/firefox"; "-private-window"; "https://f95zone.to/threads/1"]
    EmptyString
  = "https://f95zone.to/threads/1".
Proof.
  destruct (X23_open_webpage_command_line (fun _ => Raise ValueError)
              (fun _ => Ok tt) firefox_private "https://f95zone.to/threads/1")
    as (_ & H).
  destruct (H [Spawn ["/usr/bin/firefox"; "-private-window";
                      "https://f95zone.to/threads/1"]] eq_refl)
    as (e & He & _ & Hs & _).
  injection He as <-. destruct (Hs _ eq_refl) as (_ & _ & Hl & _). exact Hl.
Defined.

Lemma X24_witness :
  exists util, Launch.open_util MacOS = Some util.
Proof.
  destruct (X24_open_game_folder_opens_anyway MacOS "/games/demo" false)
    as (opener & _ & _ & _ & H).
  destruct H as (util & _ & Hu); [discriminate|].
  exists util. exact Hu.
Defined.

Lemma starts_with_app (p s : string) :
  starts_with p s = true <-> exists r, s = (p ++ r)%string.
Proof.
  revert s. induction p as [ | a p IH]; intro s; cbn.
  - split; [intros _; now exists s | reflexivity].
  - destruct s as [ | b s].
    + split; [discriminate | intros (r & H); discriminate].
    + rewrite andb_true_iff, Ascii.eqb_eq, IH. split.
      * intros (-> & r & ->). now exists r.
      * intros (r & [= -> ->]). split; [reflexivity | now exists r].
Qed.

Lemma uint_no_dot (d : Decimal.uint) :
  has_char "." (NilEmpty.string_of_uint d) = false.
Proof. induction d; cbn; auto. Qed.

Lemma str_int_no_dot (z : Z) : has_char "." (str_int z) = false.
Proof.
  unfold str_int.
  destruct (Z.to_int z) as [d | d]; cbn [NilZero.string_of_int];
    destruct d; cbn; auto using uint_no_dot.
Qed.

(** The pattern of one game matches no image of another. *)
Lemma glob_tells_games_apart (id id' : Z) (ext : string) :
  starts_with (str_int id ++ ".") (str_int id' ++ "." ++ ext) = true ->
  id' = id.
Proof.
  intro H. apply starts_with_app in H. destruct H as (r & H).
  apply UuidFacts.str_int_inj.
  apply (UuidFacts.first_field_unique "."%char _ _ ext r);
    auto using str_int_no_dot.
  etransitivity; [exact H|]. clear H.
  induction (str_int id) as [ | c s IH]; cbn.
  - reflexivity.
  - now rewrite IH.
Qed.

Section Images.
Variable unlink_raises : string -> bool.

Lemma unlink_each_spec (matched : list string) :
  forall images,
    fst (unlink_each unlink_raises matched images) = matched /\
    forall f, In f (snd (unlink_each unlink_raises matched images)) <->
              In f images /\ (~ In f matched \/ unlink_raises f = true).
Proof.
  induction matched as [ | img rest IH]; intro images; cbn [unlink_each].
  - cbn. split; [reflexivity|]. intro f. tauto.
  - set (images' := if unlink_raises img then images
                    else filter (fun f => negb (String.eqb f img)) images).
    destruct (IH images') as [Ht Hl].
    destruct (unlink_each unlink_raises rest images') as [tried left].
    cbn [fst snd] in *. split; [now rewrite Ht|].
    intro f. rewrite Hl. subst images'. cbn [In].
    destruct (unlink_raises img) eqn:Hr.
    + split.
      * intros [Hin [Hn | Hf]]; [|auto].
        split; [exact Hin|].
        destruct (String.eqb_spec img f) as [<- | Hne]; [auto|].
        left. intros [H | H]; [exact (Hne H) | exact (Hn H)].
      * intros [Hin [Hn | Hf]]; [|auto].
        split; [exact Hin|]. left. intro H. apply Hn. now right.
    + rewrite filter_In, negb_true_iff, String.eqb_neq. split.
      * intros [[Hin Hne] [Hn | Hf]]; [|auto].
        split; [exact Hin|]. left.
        intros [H | H]; [apply Hne; now symmetry | exact (Hn H)].
      * intros [Hin [Hn | Hf]].
        -- split; [split; [exact Hin|] | left].
           ++ intro H. apply Hn. left. now symmetry.
           ++ intro H. apply Hn. now right.
        -- split; [split; [exact Hin|] | now right].
           intro H. subst f. congruence.
Qed.

(** X25.  [delete_images] calls [unlink] on every image of the game,
    also after one of the calls has raised, and raises nothing itself:
    afterwards the directory holds what it held, without the images of
    the game that could be removed.  The image of another game is
    never touched. *)
Theorem X25_delete_images_spares_other_games (id : Z) (images : list string) :
  fst (delete_images unlink_raises id images) = glob_images id images /\
  (forall f, In f (snd (delete_images unlink_raises id images)) <->
             In f images /\
             (starts_with (str_int id ++ ".") f = false
              \/ unlink_raises f = true)) /\
  (forall id' ext, id' <> id ->
     In (str_int id' ++ "." ++ ext)%string images ->
     In (str_int id' ++ "." ++ ext)%string
       (snd (delete_images unlink_raises id images))).
Proof.
  unfold delete_images.
  destruct (unlink_each_spec (glob_images id images) images) as [Ht Hl].
  split; [exact Ht|].
  assert (Hiff : forall f,
             In f (snd (unlink_each unlink_raises (glob_images id images) images)) <->
             In f images /\
             (starts_with (str_int id ++ ".") f = false \/ unlink_raises f = true)).
  { intro f. rewrite Hl. unfold glob_images. rewrite filter_In. split.
    - intros [Hin [Hn | Hf]]; [|auto]. split; [exact Hin|].
      destruct (starts_with (str_int id ++ ".") f); [|auto].
      exfalso. auto.
    - intros [Hin [Hn | Hf]]; [|auto]. split; [exact Hin|].
      left. intros [_ H]. congruence. }
  split; [exact Hiff|].
  intros id' ext Hne Hin. apply Hiff. split; [exact Hin|]. left.
  destruct (starts_with (str_int id ++ ".") (str_int id' ++ "." ++ ext)) eqn:E;
    [|reflexivity].
  apply glob_tells_games_apart in E. contradiction.
Qed.

Lemma del_spec (id : Z) (games : list (Z * game)) :
  NoDup (map fst games) ->
  match del id games with
  | None => ~ In id (map fst games)
  | Some games' =>
      In id (map fst games) /\
      ~ In id (map fst games') /\
      NoDup (map fst games') /\
      forall k g, In (k, g) games' <-> k <> id /\ In (k, g) games
  end.
Proof.
  induction games as [ | [k g] rest IH]; cbn; [auto|].
  intro Hnd. inversion Hnd as [ | ? ? Hk Hrest]; subst.
  destruct (Z.eqb_spec k id) as [-> | Hne].
  - split; [auto|]. split; [exact Hk|]. split; [exact Hrest|].
    intros k' g'. split.
    + intro Hin. split; [|auto]. intros ->. apply Hk.
      apply in_map_iff. now exists (id, g').
    + intros [Hk' [[= -> ->] | Hin]]; [contradiction | exact Hin].
  - specialize (IH Hrest). destruct (del id rest) as [rest' | ].
    + destruct IH as (Hin & Hout & Hnd' & Hiff). cbn.
      split; [auto|]. split; [intros [H | H]; auto|]. split.
      * constructor; [|exact Hnd']. intro H. apply Hk.
        apply in_map_iff in H. destruct H as ([k' g'] & Hk' & Hin').
        cbn in Hk'. subst k'. apply Hiff in Hin'.
        apply in_map_iff. exists (k, g'). tauto.
      * intros k' g'. rewrite Hiff. split.
        -- intros [[= -> ->] | [H1 H2]]; auto.
        -- intros [H1 [[= -> ->] | H2]]; auto.
    + intros [H | H]; auto.
Qed.

(** X26.  With the confirmation switched on [remove_game] changes
    nothing and asks; otherwise it takes the game with this id, and no
    other, out of the games, marks the list for sorting, has the
    database remove the id and deletes the images of the game as
    [delete_images] does.  An id that is not among the games is a
    [KeyError], raised before anything is changed. *)
Theorem X26_remove_game_removes_one (set : settings) (g : game) (s : state) :
  NoDup (map fst (games s)) ->
  (confirm_on_remove set = true ->
   remove_game unlink_raises set g s = inl (s, [Msgbox "Remove game" warn true])) /\
  (confirm_on_remove set = false ->
   (~ In (id g) (map fst (games s)) ->
    remove_game unlink_raises set g s = inr KeyError) /\
   (In (id g) (map fst (games s)) ->
    exists s',
      remove_game unlink_raises set g s = inl (s', [DbRemove (id g)]) /\
      ~ In (id g) (map fst (games s')) /\
      (forall k g', In (k, g') (games s') <-> k <> id g /\ In (k, g') (games s)) /\
      NoDup (map fst (games s')) /\
      require_sort s' = true /\
      images s' = snd (delete_images unlink_raises (id g) (images s)))).
Proof.
  intro Hnd. unfold remove_game. split; [intros ->; reflexivity|].
  intros ->. unfold remove_callback, delete_images.
  pose proof (del_spec (id g) (games s) Hnd) as Hd.
  destruct (del (id g) (games s)) as [games' | ].
  - destruct Hd as (Hin & Hout & Hnd' & Hiff).
    split; [intro H; contradiction|]. intros _.
    destruct (unlink_each unlink_raises (glob_images (id g) (images s)) (images s))
      as [tried left].
    eexists. split; [reflexivity|]. cbn. auto.
  - split; [reflexivity | intro H; contradiction].
Qed.

End Images.

Example shelf_after_removal :
  remove_game (fun _ => false) (mksettings (browser_of firefox_private)
                                  false "" "" false) demo_game shelf
  = inl ({| games := [(7, set_executable demo_game "")];
            require_sort := true;
            images := ["7.jpg"; "120.png"] |}, [DbRemove 12]).
Proof. reflexivity. Qed.

Lemma X25_witness :
  In "120.png" (snd (delete_images (fun _ => false) 12 (images shelf))).
Proof.
  destruct (X25_delete_images_spares_other_games (fun _ => false) 12 (images shelf))
    as (_ & _ & H).
  apply (H 120 "png"); [discriminate|]. cbn. auto.
Defined.

Lemma X26_witness :
  remove_game (fun _ => false) firefox_private demo_game shelf
  = inl (shelf, [Msgbox "Remove game" warn true]).
Proof.
  destruct (X26_remove_game_removes_one (fun _ => false) firefox_private
              demo_game shelf) as (H & _).
  - repeat constructor; cbn; intuition discriminate.
  - apply H. reflexivity.
Defined.

End CallbacksFacts.

(** ** The labels of a game in the order of the registry *)

Module GameLabelsFacts.
Import GameLabels.

(** Generic facts on sorted lists. *)
Section Sorting.
Variable A : Type.

Lemma sorted_on_members (R R' : A -> A -> Prop) (l : list A) :
  StronglySorted R l ->
  (forall a b, In a l -> In b l -> R a b -> R' a b) ->
  StronglySorted R' l.
Proof.
  induction 1 as [ | a l Hl IH Ha]; intro Himp; constructor.
  - apply IH. intros x y Hx Hy. apply Himp; now right.
  - rewrite Forall_forall in *. intros x Hx.
    apply Himp; [now left | now right | now apply Ha].
Qed.

Lemma sorted_filter (R : A -> A -> Prop) (keep : A -> bool) (l : list A) :
  StronglySorted R l -> StronglySorted R (filter keep l).
Proof.
  induction 1 as [ | a l Hl IH Ha]; cbn; [constructor|].
  destruct (keep a); [|exact IH]. constructor; [exact IH|].
  rewrite Forall_forall in *. intros x Hx. apply filter_In in Hx. now apply Ha.
Qed.

(** There is one way to put distinct keys in order. *)
Lemma sorted_perm_unique (key : A -> nat) (l1 : list A) :
  forall l2,
    StronglySorted (fun a b => (key a <= key b)%nat) l1 ->
    StronglySorted (fun a b => (key a <= key b)%nat) l2 ->
    Permutation l1 l2 ->
    (forall a b, In a l1 -> In b l1 -> key a = key b -> a = b) ->
    l1 = l2.
Proof.
  induction l1 as [ | a l1 IH]; intros l2 H1 H2 Hp Hinj.
  - apply Permutation_nil in Hp. now subst.
  - destruct l2 as [ | b l2].
    { apply Permutation_sym, Permutation_nil in Hp. discriminate. }
    inversion H1 as [ | ? ? H1' Ha]; subst.
    inversion H2 as [ | ? ? H2' Hb]; subst.
    rewrite Forall_forall in Ha, Hb.
    assert (Hab : a = b).
    { assert (Hin_a : In a (b :: l2))
        by (eapply Permutation_in; [exact Hp | now left]).
      assert (Hin_b : In b (a :: l1))
        by (eapply Permutation_in; [apply Permutation_sym; exact Hp | now left]).
      destruct Hin_a as [-> | Hin_a]; [reflexivity|].
      destruct Hin_b as [-> | Hin_b]; [reflexivity|].
      apply Hinj; [now left | now right|].
      apply Nat.le_antisymm; [now apply Ha | now apply Hb]. }
    subst b. f_equal. apply IH; [exact H1' | exact H2' | |].
    + now apply Permutation_cons_inv in Hp.
    + intros x y Hx Hy. apply Hinj; now right.
Qed.

End Sorting.

Section WithColor.
Variable color : Type.
Variable color_eqb : color -> color -> bool.
Hypothesis color_eqb_eq : forall a b, color_eqb a b = true <-> a = b.

Lemma label_eqb_refl (x : Label.t color) : Label.eqb color_eqb x x = true.
Proof. now apply LabelFacts.eqb_eq. Qed.

Lemma label_eqb_neq (x y : Label.t color) :
  x <> y -> Label.eqb color_eqb x y = false.
Proof.
  intro H. destruct (Label.eqb color_eqb x y) eqn:E; [|reflexivity].
  apply LabelFacts.eqb_eq in E; [contradiction | assumption].
Qed.

Lemma index_found (instances : list (Label.t color)) (x : Label.t color) :
  forall n, index color_eqb instances x = Ok n -> nth_error instances n = Some x.
Proof.
  induction instances as [ | y r IH]; intro n; cbn; [discriminate|].
  destruct (Label.eqb color_eqb y x) eqn:E.
  - intros [= <-]. apply LabelFacts.eqb_eq in E; [now subst | assumption].
  - destruct (index color_eqb r x) as [m | e]; cbn; [|discriminate].
    intros [= <-]. cbn. now apply IH.
Qed.

Lemma index_in (instances : list (Label.t color)) (x : Label.t color) :
  In x instances -> exists n, index color_eqb instances x = Ok n.
Proof.
  induction instances as [ | y r IH]; cbn; [intros []|].
  intro H. destruct (Label.eqb color_eqb y x) eqn:E; [now exists O|].
  destruct H as [-> | H]; [now rewrite label_eqb_refl in E|].
  destruct (IH H) as (n & ->). now exists (S n).
Qed.

Lemma index_raises (instances : list (Label.t color)) (x : Label.t color) :
  forall e, index color_eqb instances x = Raise e ->
            e = ValueError /\ ~ In x instances.
Proof.
  induction instances as [ | y r IH]; intro e; cbn.
  - intros [= <-]. auto.
  - destruct (Label.eqb color_eqb y x) eqn:E; [discriminate|].
    destruct (index color_eqb r x) as [m | e'] eqn:Hi; cbn; [discriminate|].
    intros [= <-]. destruct (IH e' eq_refl) as [-> Hout]. split; [reflexivity|].
    intros [-> | H]; [now rewrite label_eqb_refl in E | contradiction].
Qed.

Lemma place_inj (instances : list (Label.t color)) (x y : Label.t color) :
  In x instances -> In y instances ->
  place color_eqb instances x = place color_eqb instances y -> x = y.
Proof.
  intros Hx Hy. unfold place.
  destruct (index_in _ _ Hx) as (n & Hn), (index_in _ _ Hy) as (m & Hm).
  rewrite Hn, Hm. intros ->.
  apply index_found in Hn, Hm. congruence.
Qed.

Lemma keyed_ok (instances labels : list (Label.t color)) :
  incl labels instances ->
  exists ks, keyed color_eqb instances labels = Ok ks
             /\ map snd ks = labels /\ paired color_eqb instances ks.
Proof.
  induction labels as [ | x r IH]; intro Hincl; cbn.
  - exists []. split; [reflexivity|]. split; [reflexivity | intros p []].
  - destruct (index_in instances x) as (n & Hn); [apply Hincl; now left|].
    destruct IH as (ks & Hk & Hs & Hp); [intros y Hy; apply Hincl; now right|].
    rewrite Hn, Hk. cbn. exists ((n, x) :: ks).
    split; [reflexivity|]. split; [cbn; now rewrite Hs|].
    intros p [<- | Hin]; [exact Hn | now apply Hp].
Qed.

Lemma keyed_paired (instances : list (Label.t color))
  (ks : list (nat * Label.t color)) :
  paired color_eqb instances ks -> keyed color_eqb instances (map snd ks) = Ok ks.
Proof.
  induction ks as [ | [k x] ks IH]; intro Hp; cbn; [reflexivity|].
  pose proof (Hp (k, x) (or_introl eq_refl)) as Hx. cbn in Hx. rewrite Hx. cbn.
  rewrite IH; [reflexivity|]. intros p Hin. apply Hp. now right.
Qed.

Lemma keyed_raises (instances labels : list (Label.t color)) :
  forall e, keyed color_eqb instances labels = Raise e ->
            e = ValueError /\ ~ incl labels instances.
Proof.
  induction labels as [ | x r IH]; intro e; cbn; [discriminate|].
  destruct (index color_eqb instances x) as [n | e'] eqn:Hi; cbn.
  - destruct (keyed color_eqb instances r) as [ks | e''] eqn:Hk; cbn;
      [discriminate|].
    intros [= <-]. destruct (IH e'' eq_refl) as [-> Hout].
    split; [reflexivity|]. intro H. apply Hout. intros y Hy. apply H. now right.
  - intros [= <-]. apply index_raises in Hi. destruct Hi as [-> Hout].
    split; [reflexivity|]. intro H. apply Hout, H. now left.
Qed.

Lemma labels_insert_perm (kx : nat * Label.t color) (l : list (nat * Label.t color)) :
  Permutation (insert_by_key kx l) (kx :: l).
Proof.
  induction l as [ | ky l IH]; cbn; [reflexivity|].
  destruct (fst kx <=? fst ky)%nat; [reflexivity|].
  rewrite IH. apply perm_swap.
Qed.

Lemma labels_sort_perm (ks : list (nat * Label.t color)) :
  Permutation (sort_by_key ks) ks.
Proof.
  induction ks as [ | kx ks IH]; cbn; [reflexivity|].
  rewrite labels_insert_perm. now constructor.
Qed.

Lemma labels_insert_sorted (kx : nat * Label.t color)
  (l : list (nat * Label.t color)) :
  StronglySorted by_key l -> StronglySorted by_key (insert_by_key kx l).
Proof.
  induction 1 as [ | ky l Hl IH Hy]; cbn.
  - repeat constructor.
  - destruct (fst kx <=? fst ky)%nat eqn:E.
    + apply Nat.leb_le in E. constructor; [now constructor|].
      constructor; [exact E|].
      rewrite Forall_forall in *. intros p Hp. specialize (Hy p Hp).
      unfold by_key in *. lia.
    + apply Nat.leb_gt in E. constructor; [exact IH|].
      rewrite Forall_forall in *. intros p Hp.
      apply (Permutation_in _ (labels_insert_perm kx l)) in Hp.
      destruct Hp as [<- | Hp]; [unfold by_key; lia | now apply Hy].
Qed.

Lemma labels_sort_sorted (ks : list (nat * Label.t color)) :
  StronglySorted by_key (sort_by_key ks).
Proof.
  induction ks as [ | kx ks IH]; cbn; [constructor|].
  now apply labels_insert_sorted.
Qed.

Lemma labels_sort_fixed (ks : list (nat * Label.t color)) :
  StronglySorted by_key ks -> sort_by_key ks = ks.
Proof.
  induction 1 as [ | kx ks Hs IH Hx]; [reflexivity|].
  cbn [sort_by_key fold_right]. fold (sort_by_key ks). rewrite IH.
  destruct ks as [ | ky ks]; [reflexivity|]. cbn.
  inversion Hx as [ | ? ? Hle _]; subst. unfold by_key in Hle.
  apply Nat.leb_le in Hle. now rewrite Hle.
Qed.

Lemma paired_sorted_places (instances : list (Label.t color))
  (ks : list (nat * Label.t color)) :
  paired color_eqb instances ks -> StronglySorted by_key ks ->
  StronglySorted (by_place color_eqb instances) (map snd ks).
Proof.
  intros Hp Hs. induction Hs as [ | kx ks Hs IH Hx]; cbn; [constructor|].
  constructor.
  - apply IH. intros p Hin. apply Hp. now right.
  - rewrite Forall_forall in *. intros y Hy.
    apply in_map_iff in Hy. destruct Hy as (p & <- & Hin).
    unfold by_place, place.
    rewrite (Hp kx) by now left. rewrite (Hp p) by now right.
    now apply Hx.
Qed.

Lemma registry_sorted (instances : list (Label.t color)) :
  NoDup instances -> StronglySorted (by_place color_eqb instances) instances.
Proof.
  induction 1 as [ | y r Hy Hr IH]; [constructor|].
  assert (Hplace : forall x, In x r ->
            place color_eqb (y :: r) x = S (place color_eqb r x)).
  { intros x Hx. unfold place. cbn.
    rewrite label_eqb_neq by (intros ->; contradiction).
    destruct (index_in r x Hx) as (n & ->). reflexivity. }
  constructor.
  - apply (sorted_on_members _ (by_place color_eqb r)); [exact IH|].
    intros a b Ha Hb. unfold by_place. rewrite !Hplace by assumption. lia.
  - rewrite Forall_forall. intros x Hx. unfold by_place, place at 1. cbn.
    rewrite label_eqb_refl. lia.
Qed.

Lemma add_label_runs (instances labels : list (Label.t color))
  (label : Label.t color) :
  incl labels instances -> In label instances ->
  exists ks,
    keyed color_eqb instances (Label.add color_eqb labels label) = Ok ks /\
    map snd ks = Label.add color_eqb labels label /\
    paired color_eqb instances ks /\
    add_label color_eqb instances labels label
    = (map snd (sort_by_key ks), Ok "labels").
Proof.
  intros Hincl Hin.
  destruct (keyed_ok instances (Label.add color_eqb labels label))
    as (ks & Hk & Hs & Hp).
  { unfold Label.add. destruct (Label.mem color_eqb label labels); [exact Hincl|].
    intros x Hx. apply in_app_or in Hx. destruct Hx as [Hx | [<- | []]]; auto. }
  exists ks. split; [exact Hk|]. split; [exact Hs|]. split; [exact Hp|].
  unfold add_label. unfold Label.add in Hk. now rewrite Hk.
Qed.

(** X27.  [add_label] with a label of the registry leaves the game
    with the label among its labels, the labels it had before all
    still there, and the whole list in the order of the registry;
    adding the same label again changes nothing.  When neither the
    registry nor the labels of the game hold a label twice, the list
    afterwards is the registry cut down to the labels of the game. *)
Theorem X27_add_label_keeps_registry_order
  (instances labels : list (Label.t color)) (label : Label.t color) :
  incl labels instances -> In label instances ->
  exists labels',
    add_label color_eqb instances labels label = (labels', Ok "labels") /\
    In label labels' /\
    Permutation labels' (Label.add color_eqb labels label) /\
    StronglySorted (by_place color_eqb instances) labels' /\
    add_label color_eqb instances labels' label = (labels', Ok "labels") /\
    (NoDup instances -> NoDup labels ->
     labels'
     = filter (fun x => Label.mem color_eqb x (Label.add color_eqb labels label))
         instances).
Proof.
  intros Hincl Hin.
  destruct (add_label_runs instances labels label Hincl Hin)
    as (ks & Hk & Hs & Hp & Hrun).
  exists (map snd (sort_by_key ks)). split; [exact Hrun|].
  assert (Hperm : Permutation (map snd (sort_by_key ks))
                    (Label.add color_eqb labels label)).
  { rewrite <- Hs. apply Permutation_map, labels_sort_perm. }
  assert (Hadded : In label (Label.add color_eqb labels label)).
  { unfold Label.add. destruct (Label.mem color_eqb label labels) eqn:E.
    - apply LabelFacts.mem_In in E; assumption.
    - apply in_or_app. right. now left. }
  assert (Hthere : In label (map snd (sort_by_key ks))).
  { eapply Permutation_in; [apply Permutation_sym; exact Hperm | exact Hadded]. }
  assert (Hp' : paired color_eqb instances (sort_by_key ks)).
  { intros p Hin'. apply Hp.
    eapply Permutation_in; [apply labels_sort_perm | exact Hin']. }
  assert (Hsorted : StronglySorted (by_place color_eqb instances) (map snd (sort_by_key ks))).
  { apply paired_sorted_places; [exact Hp' | apply labels_sort_sorted]. }
  split; [exact Hthere|]. split; [exact Hperm|]. split; [exact Hsorted|].
  split.
  - unfold add_label.
    apply (LabelFacts.mem_In _ _ color_eqb_eq) in Hthere. rewrite Hthere.
    rewrite (keyed_paired _ _ Hp').
    now rewrite (labels_sort_fixed _ (labels_sort_sorted ks)).
  - intros Hnd Hndl.
    assert (Hnd1 : NoDup (Label.add color_eqb labels label)).
    { unfold Label.add. destruct (Label.mem color_eqb label labels) eqn:E;
        [exact Hndl|].
      apply (LabelFacts.mem_false _ _ color_eqb_eq) in E.
      apply NoDup_app; [exact Hndl | repeat constructor; auto|].
      intros x Hx [<- | []]. contradiction. }
    assert (Hin1 : forall x, In x (Label.add color_eqb labels label) ->
                             In x instances).
    { intros x Hx. unfold Label.add in Hx.
      destruct (Label.mem color_eqb label labels); [now apply Hincl|].
      apply in_app_or in Hx. destruct Hx as [Hx | [<- | []]]; auto. }
    apply (sorted_perm_unique _ (place color_eqb instances)).
    + exact Hsorted.
    + apply sorted_filter. now apply registry_sorted.
    + rewrite Hperm. apply NoDup_Permutation.
      * exact Hnd1.
      * now apply NoDup_filter.
      * intro x. rewrite filter_In, (LabelFacts.mem_In _ _ color_eqb_eq).
        split; [intro H; split; auto | tauto].
    + intros a b Ha Hb. apply place_inj; apply Hin1.
      * eapply Permutation_in; [exact Hperm | exact Ha].
      * eapply Permutation_in; [exact Hperm | exact Hb].
Qed.

(** X28.  A label that is not in the registry makes [add_label] raise
    [ValueError] from the sort, after the label has been appended and
    before anything is handed to the database: the game keeps the
    label, at the end of its list.  [remove_label] then takes it out
    again. *)
Theorem X28_unregistered_label_is_kept
  (instances labels : list (Label.t color)) (label : Label.t color) :
  ~ In label instances ->
  add_label color_eqb instances labels label
  = (Label.add color_eqb labels label, Raise ValueError) /\
  (~ In label labels ->
   fst (add_label color_eqb instances labels label) = labels ++ [label] /\
   remove_label color_eqb (S (List.length labels))
     (fst (add_label color_eqb instances labels label)) label
   = Some (labels, "labels")).
Proof.
  intro Hout.
  assert (Hadd : add_label color_eqb instances labels label
                 = (Label.add color_eqb labels label, Raise ValueError)).
  { unfold add_label, Label.add.
    destruct (keyed color_eqb instances
                (if Label.mem color_eqb label labels then labels
                 else labels ++ [label])) as [ks | e] eqn:Hk.
    - exfalso. apply Hout.
      assert (Hin : In label (map snd ks)).
      { assert (Hs : map snd ks = if Label.mem color_eqb label labels then labels
                                  else labels ++ [label]).
        { revert ks Hk.
          induction (if Label.mem color_eqb label labels then labels
                     else labels ++ [label]) as [ | x r IH]; intros ks; cbn.
          - intros [= <-]. reflexivity.
          - destruct (index color_eqb instances x); cbn; [|discriminate].
            destruct (keyed color_eqb instances r) as [ks' | ]; cbn; [|discriminate].
            intros [= <-]. cbn. now rewrite (IH ks' eq_refl). }
        rewrite Hs. destruct (Label.mem color_eqb label labels) eqn:E.
        - apply LabelFacts.mem_In in E; assumption.
        - apply in_or_app. right. now left. }
      apply in_map_iff in Hin. destruct Hin as ([k x] & Hx & Hin). cbn in Hx. subst x.
      assert (Hidx : exists n, index color_eqb instances label = Ok n).
      { revert ks Hk Hin.
        induction (if Label.mem color_eqb label labels then labels
                   else labels ++ [label]) as [ | x r IH]; intros ks; cbn.
        - intros [= <-] [].
        - destruct (index color_eqb instances x) as [n | ] eqn:Hi; cbn; [|discriminate].
          destruct (keyed color_eqb instances r) as [ks' | ]; cbn; [|discriminate].
          intros [= <-] [[= <- <-] | Hin]; [now exists n | now apply (IH ks')]. }
      destruct Hidx as (n & Hn). apply index_found in Hn.
      now apply nth_error_In in Hn.
    - apply keyed_raises in Hk. destruct Hk as [-> _]. reflexivity. }
  split; [exact Hadd|].
  intro Hnew. rewrite Hadd. cbn [fst]. unfold Label.add.
  apply (LabelFacts.mem_false _ _ color_eqb_eq) in Hnew. rewrite Hnew.
  split; [reflexivity|].
  unfold remove_label.
  rewrite LabelFacts.remove_loop_filter by (rewrite length_app; cbn; lia).
  rewrite filter_app, LabelFacts.filter_absent by exact Hnew.
  cbn. rewrite label_eqb_refl. cbn. now rewrite app_nil_r.
Qed.

End WithColor.

Example labels_in_registry_order :
  add_label Label.hex_eqb [must_play; later; dropped] [dropped; later] must_play
  = ([must_play; later; dropped], Ok "labels").
Proof. reflexivity. Qed.

Lemma X27_witness :
  exists labels',
    add_label Label.hex_eqb [must_play; later; dropped] [dropped] must_play
    = (labels', Ok "labels")
    /\ labels' = [must_play; dropped].
Proof.
  destruct (X27_add_label_keeps_registry_order string Label.hex_eqb
              LabelFacts.string_eqb_leibniz
              [must_play; later; dropped] [dropped] must_play)
    as (labels' & Hrun & _ & _ & _ & _ & Hfilter).
  - intros x [<- | []]. cbn. auto.
  - cbn. auto.
  - exists labels'. split; [exact Hrun|]. rewrite Hfilter.
    + reflexivity.
    + repeat constructor; cbn; intuition discriminate.
    + repeat constructor; cbn; intuition discriminate.
Defined.

Lemma X28_witness :
  add_label Label.hex_eqb [must_play; later] [later] dropped
  = ([later; dropped], Raise ValueError).
Proof.
  destruct (X28_unregistered_label_is_kept string Label.hex_eqb
              LabelFacts.string_eqb_leibniz [must_play; later] [later] dropped)
    as (H & _).
  - cbn. intuition discriminate.
  - rewrite H. reflexivity.
Defined.

End GameLabelsFacts.

(** ** Removing a tab *)

Module TabRegistryFacts.
Import TabRegistry.

Section WithColor.
Variable color : Type.
Variable color_eqb : color -> color -> bool.
Hypothesis color_eqb_eq : forall a b, color_eqb a b = true <-> a = b.

Lemma color_opt_eqb_eq (a b : option color) :
  color_opt_eqb color_eqb a b = true <-> a = b.
Proof.
  destruct a as [x | ], b as [y | ]; cbn; try (split; congruence).
  rewrite color_eqb_eq. split; congruence.
Qed.

Lemma tab_eqb_eq (a b : Tab.t color) : eqb color_eqb a b = true <-> a = b.
Proof.
  unfold eqb.
  rewrite !andb_true_iff, !Z.eqb_eq, !String.eqb_eq, color_opt_eqb_eq.
  destruct a, b; cbn. split.
  - intros [[[[-> ->] ->] ->] ->]. reflexivity.
  - intros [= -> -> -> -> ->]. auto.
Qed.

Lemma tab_eqb_neq (a b : Tab.t color) : a <> b -> eqb color_eqb a b = false.
Proof.
  intro H. destruct (eqb color_eqb a b) eqn:E; [|reflexivity].
  apply tab_eqb_eq in E. contradiction.
Qed.

Lemma tab_mem_In (self : Tab.t color) (l : list (Tab.t color)) :
  mem color_eqb self l = true <-> In self l.
Proof.
  unfold mem. rewrite existsb_exists. split.
  - intros (x & Hin & Hx). apply tab_eqb_eq in Hx. now subst.
  - intro H. exists self. split; [exact H|]. now apply tab_eqb_eq.
Qed.

Lemma tab_list_remove_filter (self : Tab.t color) (l : list (Tab.t color)) :
  filter (fun x => negb (eqb color_eqb x self)) (list_remove color_eqb self l)
  = filter (fun x => negb (eqb color_eqb x self)) l.
Proof.
  induction l as [ | x l IH]; cbn; [reflexivity|].
  destruct (eqb color_eqb x self) eqn:E; cbn; [reflexivity|].
  rewrite E. cbn. now rewrite IH.
Qed.

Lemma tab_list_remove_shorter (self : Tab.t color) (l : list (Tab.t color)) :
  mem color_eqb self l = true ->
  S (List.length (list_remove color_eqb self l)) = List.length l.
Proof.
  unfold mem. induction l as [ | x l IH]; cbn; [discriminate|].
  destruct (eqb color_eqb x self); cbn; [reflexivity|].
  intro H. now rewrite IH.
Qed.

Lemma tab_filter_absent (self : Tab.t color) (l : list (Tab.t color)) :
  mem color_eqb self l = false ->
  filter (fun x => negb (eqb color_eqb x self)) l = l.
Proof.
  unfold mem. induction l as [ | x l IH]; cbn; [reflexivity|].
  destruct (eqb color_eqb x self); cbn; [discriminate|].
  intro H. now rewrite IH.
Qed.

Lemma tab_remove_loop_filter (fuel : nat) :
  forall (l : list (Tab.t color)) (self : Tab.t color),
    (List.length l <= fuel)%nat ->
    remove_loop color_eqb fuel l self
    = Some (filter (fun x => negb (eqb color_eqb x self)) l).
Proof.
  induction fuel as [ | fuel IH]; intros l self Hlen.
  - destruct l; [reflexivity | cbn in Hlen; lia].
  - cbn [remove_loop]. destruct (mem color_eqb self l) eqn:E.
    + pose proof (tab_list_remove_shorter self l E) as Hs.
      rewrite IH by lia. now rewrite tab_list_remove_filter.
    + now rewrite tab_filter_absent.
Qed.

Lemma same_id_same_tab (l : list (Tab.t color)) (a b : Tab.t color) :
  NoDup (map Tab.id l) -> In a l -> In b l -> Tab.id a = Tab.id b -> a = b.
Proof.
  induction l as [ | x l IH]; cbn; [intros _ []|].
  intro Hnd. inversion Hnd as [ | ? ? Hx Hl]; subst.
  intros [-> | Ha] [-> | Hb] E; auto.
  - exfalso. apply Hx. rewrite E. now apply in_map.
  - exfalso. apply Hx. rewrite <- E. now apply in_map.
Qed.

Lemma one_tab_removed (l : list (Tab.t color)) (self : Tab.t color) :
  NoDup (map Tab.id l) -> In self l ->
  S (List.length (filter (fun x => negb (eqb color_eqb x self)) l))
  = List.length l.
Proof.
  induction l as [ | x l IH]; cbn; [intros _ []|].
  intro Hnd. inversion Hnd as [ | ? ? Hx Hl]; subst.
  intros [-> | Hin].
  - assert (E : eqb color_eqb self self = true) by now apply tab_eqb_eq.
    rewrite E. cbn. rewrite tab_filter_absent; [reflexivity|].
    destruct (mem color_eqb self l) eqn:M; [|reflexivity].
    apply tab_mem_In in M. exfalso. apply Hx. now apply in_map.
  - rewrite tab_eqb_neq.
    + cbn. now rewrite IH.
    + intros ->. apply Hx. now apply in_map.
Qed.

Lemma find_nothing (A : Type) (f : A -> bool) (l : list A) :
  (forall x, In x l -> f x = false) -> find f l = None.
Proof.
  induction l as [ | x l IH]; cbn; [reflexivity|].
  intro H. rewrite (H x) by now left. apply IH. intros y Hy. apply H. now right.
Qed.

Lemma unplaced_ids (l l' : list (Tab.t color)) :
  map Tab.unplaced l = map Tab.unplaced l' -> map Tab.id l = map Tab.id l'.
Proof.
  intro H. apply (f_equal (map Tab.id)) in H. rewrite !map_map in H. exact H.
Qed.

(** X29.  [Tab.remove] of a tab of a registry with one tab per id ends
    after at most as many rounds as there are tabs, and leaves a
    registry that is one tab shorter, in which no tab has the id of
    the removed one and the positions count from zero; every other tab
    is still there, up to its position, in the order of the positions
    they had. *)
Theorem X29_tab_remove_renumbers (l : list (Tab.t color)) (self : Tab.t color) :
  In self l -> NoDup (map Tab.id l) ->
  exists l',
    remove color_eqb (List.length l) l self = Some l' /\
    get l' (Tab.id self) = None /\
    S (List.length l') = List.length l /\
    map Tab.position l' = Tab.indices 0 (List.length l') /\
    map Tab.unplaced l'
    = map Tab.unplaced
        (Tab.sort_by_position (filter (fun x => negb (eqb color_eqb x self)) l)) /\
    (forall x, In x l -> x <> self ->
               exists x', In x' l' /\ Tab.unplaced x' = Tab.unplaced x).
Proof.
  intros Hin Hnd.
  set (rest := filter (fun x => negb (eqb color_eqb x self)) l).
  exists (Tab.sort_instances rest).
  assert (Hun : map Tab.unplaced (Tab.sort_instances rest)
                = map Tab.unplaced (Tab.sort_by_position rest)).
  { apply TabFacts.update_positions_unplaced. }
  assert (Hlen : List.length (Tab.sort_instances rest) = List.length rest).
  { apply (f_equal (@List.length _)) in Hun. rewrite !length_map in Hun.
    rewrite Hun. apply Permutation_length, TabFacts.sort_perm. }
  split; [|split; [|split; [|split; [|split]]]].
  - unfold remove. now rewrite tab_remove_loop_filter by lia.
  - apply find_nothing. intros x Hx. apply Z.eqb_neq. intro E.
    assert (Hid : In (Tab.id x) (map Tab.id (Tab.sort_by_position rest))).
    { rewrite <- (unplaced_ids _ _ Hun). now apply in_map. }
    apply in_map_iff in Hid. destruct Hid as (y & Hy & Hiny).
    apply (Permutation_in _ (TabFacts.sort_perm _ rest)) in Hiny.
    apply filter_In in Hiny. destruct Hiny as [Hyl Hne].
    assert (y = self) by (apply (same_id_same_tab l); auto; congruence).
    subst y. assert (E' : eqb color_eqb self self = true) by now apply tab_eqb_eq.
    now rewrite E' in Hne.
  - rewrite Hlen. now apply one_tab_removed.
  - unfold Tab.sort_instances, Tab.update_positions.
    rewrite TabFacts.update_positions_indices. f_equal.
    apply (f_equal (@List.length _)) in Hun. rewrite !length_map in Hun.
    symmetry. exact Hun.
  - exact Hun.
  - intros x Hx Hne.
    assert (Hr : In x (Tab.sort_by_position rest)).
    { apply (Permutation_in _ (Permutation_sym (TabFacts.sort_perm _ rest))).
      apply filter_In. split; [exact Hx|]. now rewrite tab_eqb_neq. }
    apply (in_map Tab.unplaced) in Hr. rewrite <- Hun in Hr.
    apply in_map_iff in Hr. destruct Hr as (x' & Hx' & Hin'). now exists x'.
Qed.

End WithColor.

(** With two tabs of one id, a tab equal to the removed one can be in
    the registry after [remove]: the positions are part of the
    comparison, and [remove] renumbers them. *)
Example removed_tab_comes_back :
  remove String.eqb 2
    [Tab.mk 3 "Backlog" "box" None 0; Tab.mk 3 "Backlog" "box" None 1]
    (Tab.mk 3 "Backlog" "box" None 0)
  = Some [Tab.mk 3 "Backlog" "box" None 0].
Proof. reflexivity. Qed.

Lemma X29_witness :
  exists l',
    remove String.eqb 2
      [Tab.mk 3 "Backlog" "box" None 0; Tab.mk 7 "Playing" "play" (Some "#00ff00") 1]
      (Tab.mk 3 "Backlog" "box" None 0)
    = Some l' /\ get l' 3 = None.
Proof.
  destruct (X29_tab_remove_renumbers string String.eqb String.eqb_eq
              [Tab.mk 3 "Backlog" "box" None 0;
               Tab.mk 7 "Playing" "play" (Some "#00ff00") 1]
              (Tab.mk 3 "Backlog" "box" None 0))
    as (l' & Hrun & Hget & _).
  - cbn. auto.
  - repeat constructor; cbn; intuition discriminate.
  - exists l'. split; [exact Hrun | exact Hget].
Defined.

End TabRegistryFacts.

(** ** Comparing search nodes *)

Module SearchLogicEqFacts.
Import SearchLogic.

Lemma option_string_eqb_eq (a b : option string) :
  option_string_eqb a b = true <-> a = b.
Proof.
  destruct a as [x | ], b as [y | ]; cbn; try (split; congruence).
  rewrite String.eqb_eq. split; congruence.
Qed.

Lemma eq_fields (a b : t) :
  __eq__ a b = true <->
  logic b = logic a /\ type b = type a /\ token b = token a
  /\ invert b = invert a.
Proof.
  unfold __eq__.
  rewrite !andb_true_iff, !String.eqb_eq, option_string_eqb_eq, Bool.eqb_true_iff.
  tauto.
Qed.

(** X30.  [==] on search nodes compares the logic, the type, the token
    and the inversion, and nothing else: it is reflexive, symmetric and
    transitive, two nodes without children that are equal print the
    same, and two equal nodes with different children need not. *)
Theorem X30_eq_ignores_children :
  (forall a, __eq__ a a = true) /\
  (forall a b, __eq__ a b = __eq__ b a) /\
  (forall a b c, __eq__ a b = true -> __eq__ b c = true -> __eq__ a c = true) /\
  (forall a b, __eq__ a b = true -> nodes a = [] -> nodes b = [] ->
               __str__ a = __str__ b) /\
  (forall a ns, __eq__ a (mk ns (token a) (logic a) (type a) (invert a)) = true) /\
  (exists a b, __eq__ a b = true /\ __str__ a <> __str__ b).
Proof.
  split; [|split; [|split; [|split; [|split]]]].
  - intro a. apply eq_fields. auto.
  - intros a b. destruct (__eq__ b a) eqn:E.
    + apply eq_fields. apply eq_fields in E. intuition congruence.
    + destruct (__eq__ a b) eqn:E'; [|reflexivity].
      apply eq_fields in E'. rewrite <- E. symmetry. apply eq_fields.
      intuition congruence.
  - intros a b c Hab Hbc. apply eq_fields in Hab, Hbc. apply eq_fields.
    intuition congruence.
  - intros [ns tk lg ty inv] [ns' tk' lg' ty' inv'] H Ha Hb.
    apply eq_fields in H. cbn in *. destruct H as (-> & -> & -> & ->).
    subst. reflexivity.
  - intros a ns. apply eq_fields. cbn. auto.
  - exists (mk [] (Some "tag") "&" "&" false),
           (mk [mk [] (Some "unity") "&" "&" false] (Some "tag") "&" "&" false).
    split; [reflexivity | discriminate].
Qed.

Lemma X30_witness :
  __str__ (mk [] (Some "rating") "&" ">=" false)
  = __str__ (mk [] (Some "rating") "&" ">=" false).
Proof.
  destruct X30_eq_ignores_children as (_ & _ & _ & H & _).
  apply H; reflexivity.
Defined.

End SearchLogicEqFacts.
